(** * Syntria: the Markdown-subset renderer of the Workbench page

    A shallow embedding of [markdownToHtml] (src/pages/Workbench.tsx) and
    the properties of its output.

    A JavaScript string is a sequence of UTF-16 code units; it is modelled
    as a list of code units, each an [N].  The built-ins the function calls
    ([split], [trim], [startsWith], [substring], [match], [replace], [join])
    are modelled on such lists; the four regular expressions of the source
    are written as syntax and run by a small backtracking matcher that
    follows the ECMAScript priorities (greedy and lazy [+], leftmost match).

    Two things can go wrong in the JavaScript: a method call on [undefined]
    (a [TypeError]), and, in the model only, the scanning loop of [replace]
    running out of the fuel that bounds it.  Both are outcomes of the
    embedding, and both are proved unreachable.

    The file has a second part for the API server that the same source
    file holds: the fallback score and the parse of the risk analysis, the
    entities kept in memory, the retry loop of the strategy handler, the
    code fence taken off the text of the model, the duration of a task,
    the events created in the calendar and the prompt of the customer
    chat.  What the server gets from outside (the text of the model, the
    clock, the answers of the calendar) is an argument of the embedding.
    There a [TypeError] can be reached, by a request without a body, and
    the theorems say for which requests the code returns. *)

From Stdlib Require Import String Ascii.
From Stdlib Require Import List NArith ZArith Bool Lia.
Import ListNotations.

Local Open Scope N_scope.
Local Open Scope list_scope.

(** ** Strings *)

Definition char := N.
Definition str := list char.

(** A literal of the source, as a list of code units. *)
Fixpoint lit (s : string) : str :=
  match s with
  | EmptyString => []
  | String a s' => N_of_ascii a :: lit s'
  end.

(** The double quote, which the class attributes of the tags contain. *)
Definition dq : str := [34].

Definition str_eq_dec : forall a b : str, {a = b} + {a <> b} :=
  list_eq_dec N.eq_dec.

(** ECMAScript LineTerminator. *)
Definition isLineTerminator (c : char) : bool :=
  (c =? 10) || (c =? 13) || (c =? 8232) || (c =? 8233).

(** ECMAScript WhiteSpace or LineTerminator: what [trim] strips and what
    [\s] matches. *)
Definition isWhiteSpace (c : char) : bool :=
  (c =? 9) || (c =? 11) || (c =? 12) || (c =? 32) || (c =? 160)
  || (c =? 5760) || ((8192 <=? c) && (c <=? 8202))
  || (c =? 8239) || (c =? 8287) || (c =? 12288) || (c =? 65279)
  || isLineTerminator c.

(** [s.split('\n')]: never empty, one more element than there are newlines. *)
Fixpoint split_nl (s : str) : list str :=
  match s with
  | [] => [[]]
  | c :: s' =>
      if c =? 10 then [] :: split_nl s'
      else match split_nl s' with
           | l :: ls => (c :: l) :: ls
           | [] => [[c]]
           end
  end.

Fixpoint trimStart (s : str) : str :=
  match s with
  | [] => []
  | c :: s' => if isWhiteSpace c then trimStart s' else s
  end.

Definition trimEnd (s : str) : str := rev (trimStart (rev s)).

(** [s.trim()]. *)
Definition trim (s : str) : str := trimEnd (trimStart s).

(** [s.startsWith(p)]. *)
Fixpoint startsWith (p s : str) : bool :=
  match p with
  | [] => true
  | a :: p' =>
      match s with
      | [] => false
      | b :: s' => (a =? b) && startsWith p' s'
      end
  end.

(** [s.substring(n)]. *)
Definition substring (n : nat) (s : str) : str := skipn n s.

(** [a.join('')]. *)
Definition join (a : list str) : str := concat a.

(** ** Outcomes *)

Inductive outcome (A : Type) : Type :=
| Ok (a : A)
| TypeError        (* a property read or method call on undefined *)
| OutOfFuel.       (* the bound of a scanning loop of the model was reached *)

Arguments Ok {A} a.
Arguments TypeError {A}.
Arguments OutOfFuel {A}.

Definition bind {A B} (m : outcome A) (f : A -> outcome B) : outcome B :=
  match m with
  | Ok a => f a
  | TypeError => TypeError
  | OutOfFuel => OutOfFuel
  end.

Notation "x <- m ;; k" := (bind m (fun x => k))
  (at level 61, m at next level, right associativity).

(** ** Regular expressions *)

Module Regex.

(** The fragment the source uses: a sequence of assertions, single
    characters (a literal or a class), greedy and lazy [+] over a class,
    and the parentheses of capture group 1. *)
Inductive node : Type :=
| AssertStart                       (* ^ *)
| AssertEnd                         (* $ *)
| Chr (p : char -> bool)            (* one character of a class *)
| PlusGreedy (p : char -> bool)     (* p+ *)
| PlusLazy (p : char -> bool)       (* p+? *)
| GroupOpen                         (* ( *)
| GroupClose.                       (* ) *)

Definition regex := list node.

(** The state of a match in progress: the index reached in the input, the
    input from there on, the input as it was at the open parenthesis, and
    the text captured by group 1 once it is closed. *)
Record mstate : Type := MState {
  idx : nat;
  rest : str;
  mark : option str;
  grp : option str
}.

Definition start (i : nat) (s : str) : mstate :=
  {| idx := i; rest := s; mark := None; grp := None |}.

Definition eat (st : mstate) (s' : str) : mstate :=
  {| idx := S (idx st); rest := s'; mark := mark st; grp := grp st |}.

(** [p+]: one character, then as many more as possible, giving them back
    one at a time while the continuation fails. *)
Fixpoint plusGreedy (p : char -> bool) (k : mstate -> option mstate)
    (s : str) (st : mstate) : option mstate :=
  match s with
  | [] => None
  | c :: s' =>
      if p c then
        let st' := eat st s' in
        match plusGreedy p k s' st' with
        | Some r => Some r
        | None => k st'
        end
      else None
  end.

(** [p+?]: one character, then the continuation, taking one more character
    each time the continuation fails. *)
Fixpoint plusLazy (p : char -> bool) (k : mstate -> option mstate)
    (s : str) (st : mstate) : option mstate :=
  match s with
  | [] => None
  | c :: s' =>
      if p c then
        let st' := eat st s' in
        match k st' with
        | Some r => Some r
        | None => plusLazy p k s' st'
        end
      else None
  end.

(** The backtracking matcher, anchored at the position of [st]. *)
Fixpoint run (re : regex) (st : mstate) : option mstate :=
  match re with
  | [] => Some st
  | AssertStart :: k =>
      match idx st with
      | O => run k st
      | S _ => None
      end
  | AssertEnd :: k =>
      match rest st with
      | [] => run k st
      | _ :: _ => None
      end
  | Chr p :: k =>
      match rest st with
      | [] => None
      | c :: s' => if p c then run k (eat st s') else None
      end
  | PlusGreedy p :: k => plusGreedy p (run k) (rest st) st
  | PlusLazy p :: k => plusLazy p (run k) (rest st) st
  | GroupOpen :: k =>
      run k {| idx := idx st; rest := rest st;
               mark := Some (rest st); grp := grp st |}
  | GroupClose :: k =>
      run k {| idx := idx st; rest := rest st; mark := mark st;
               grp := match mark st with
                      | Some m => Some (firstn (length m - length (rest st)) m)
                      | None => grp st
                      end |}
  end.

(** The leftmost match at or after index [i], where [s] is the input from
    [i] on: the index it starts at and its final state. *)
Fixpoint search (re : regex) (i : nat) (s : str) : option (nat * mstate) :=
  match run re (start i s) with
  | Some m => Some (i, m)
  | None =>
      match s with
      | [] => None
      | _ :: s' => search re (S i) s'
      end
  end.

(** [s.match(re)] for a regular expression without the [g] flag: [null]
    or the match, of which the source reads group 1. *)
Definition js_match (re : regex) (s : str) : option mstate :=
  option_map snd (search re 0 s).

(** [s.replace(re, tpl)] for a regular expression with the [g] flag, from
    index [i] on.  Each match is replaced by [tpl] of its group 1 (a group
    that did not take part is the empty string); after an empty match the
    scan moves one character on. *)
Fixpoint replace_from (fuel : nat) (re : regex) (tpl : str -> str)
    (i : nat) (s : str) : outcome str :=
  match fuel with
  | O => OutOfFuel
  | S fuel' =>
      match search re i s with
      | None => Ok s
      | Some (j, m) =>
          let between := firstn (j - i) s in
          let r := tpl (match grp m with Some g => g | None => [] end) in
          if Nat.eqb (idx m) j then
            match rest m with
            | [] => Ok (between ++ r)
            | c :: s' =>
                t <- replace_from fuel' re tpl (S j) s' ;;
                Ok (between ++ r ++ c :: t)
            end
          else
            t <- replace_from fuel' re tpl (idx m) (rest m) ;;
            Ok (between ++ r ++ t)
      end
  end.

Definition js_replace (re : regex) (tpl : str -> str) (s : str) : outcome str :=
  replace_from (S (length s)) re tpl 0 s.

End Regex.

Import Regex.

(** ** The regular expressions of the source *)

Definition isStar (c : char) : bool := c =? 42.
Definition isDashOrStar (c : char) : bool := (c =? 45) || (c =? 42).
Definition isDot (c : char) : bool := negb (isLineTerminator c).
Definition notStar (c : char) : bool := negb (c =? 42).

(** [/^[-*]\s+(.+)$/] *)
Definition listRe : regex :=
  [AssertStart; Chr isDashOrStar; PlusGreedy isWhiteSpace;
   GroupOpen; PlusGreedy isDot; GroupClose; AssertEnd].

(** [/\*\*(.+?)\*\*/g] *)
Definition boldRe : regex :=
  [Chr isStar; Chr isStar; GroupOpen; PlusLazy isDot; GroupClose;
   Chr isStar; Chr isStar].

(** [/\*(.+?)\*/g], the italic pattern of the list branch. *)
Definition italicListRe : regex :=
  [Chr isStar; GroupOpen; PlusLazy isDot; GroupClose; Chr isStar].

(** [/\*([^*]+?)\*/g], the italic pattern of the paragraph branch. *)
Definition italicParaRe : regex :=
  [Chr isStar; GroupOpen; PlusLazy notStar; GroupClose; Chr isStar].

(** ['<strong>$1</strong>'] and ['<em>$1</em>']. *)
Definition strongTpl (g : str) : str := lit "<strong>" ++ g ++ lit "</strong>".
Definition emTpl (g : str) : str := lit "<em>" ++ g ++ lit "</em>".

(** ** The fragments pushed on [result] *)

Definition UL_OPEN : str :=
  lit "<ul class=" ++ dq ++ lit "list-disc list-inside space-y-1 my-2 ml-4"
  ++ dq ++ lit ">".
Definition UL_CLOSE : str := lit "</ul>".
Definition BR : str := lit "<br>".

Definition H3_OPEN : str :=
  lit "<h3 class=" ++ dq ++ lit "text-lg font-semibold mt-4 mb-2" ++ dq
  ++ lit ">".
Definition H2_OPEN : str :=
  lit "<h2 class=" ++ dq ++ lit "text-xl font-bold mt-6 mb-3" ++ dq
  ++ lit ">".
Definition H1_OPEN : str :=
  lit "<h1 class=" ++ dq ++ lit "text-2xl font-bold mt-8 mb-4" ++ dq
  ++ lit ">".
Definition P_OPEN : str := lit "<p class=" ++ dq ++ lit "mb-2" ++ dq ++ lit ">".

Definition H3 (t : str) : str := H3_OPEN ++ t ++ lit "</h3>".
Definition H2 (t : str) : str := H2_OPEN ++ t ++ lit "</h2>".
Definition H1 (t : str) : str := H1_OPEN ++ t ++ lit "</h1>".
Definition LI (t : str) : str := lit "<li>" ++ t ++ lit "</li>".
Definition P (t : str) : str := P_OPEN ++ t ++ lit "</p>".

(** ** markdownToHtml *)

(** The two local variables the loop updates. *)
Record state : Type := State {
  result : list str;
  inList : bool
}.

Definition push (x : str) (st : state) : state :=
  {| result := result st ++ [x]; inList := inList st |}.

(** [if (inList) { result.push('</ul>'); inList = false; }] *)
Definition closeList (st : state) : state :=
  if inList st then {| result := result st ++ [UL_CLOSE]; inList := false |}
  else st.

(** [if (!inList) { result.push('<ul ...>'); inList = true; }] *)
Definition openList (st : state) : state :=
  if inList st then st
  else {| result := result st ++ [UL_OPEN]; inList := true |}.

(** The inline substitution of the list branch (lines 57-59). *)
Definition inlineList (item : str) : outcome str :=
  b <- js_replace boldRe strongTpl item ;;
  js_replace italicListRe emTpl b.

(** The inline substitution of the paragraph branch (lines 72-76). *)
Definition inlinePara (text : str) : outcome str :=
  b <- js_replace boldRe strongTpl text ;;
  js_replace italicParaRe emTpl b.

(** One iteration of the [for] loop, at index [i]. *)
Definition body (lines : list str) (i : nat) (st : state) : outcome state :=
  match nth_error lines i with
  | None => TypeError
  | Some line =>
      let trimmed := trim line in
      if startsWith (lit "### ") trimmed then
        Ok (push (H3 (substring 4 trimmed)) (closeList st))
      else if startsWith (lit "## ") trimmed then
        Ok (push (H2 (substring 3 trimmed)) (closeList st))
      else if startsWith (lit "# ") trimmed then
        Ok (push (H1 (substring 2 trimmed)) (closeList st))
      else
        match js_match listRe trimmed with
        | Some listMatch =>
            let st1 := openList st in
            match grp listMatch with
            | None => TypeError
            | Some listItem =>
                item <- inlineList listItem ;;
                Ok (push (LI item) st1)
            end
        | None =>
            let st1 := closeList st in
            match trimmed with
            | _ :: _ =>
                processed <- inlinePara trimmed ;;
                Ok (push (P processed) st1)
            | [] =>
                if Nat.ltb i (length lines - 1) then Ok (push BR st1)
                else Ok st1
            end
        end
  end.

(** [for (let i = ...; i < lines.length; i++)]: the [n] iterations from
    index [i] on. *)
Fixpoint iterate (lines : list str) (n i : nat) (st : state) : outcome state :=
  match n with
  | O => Ok st
  | S n' => st' <- body lines i st ;; iterate lines n' (S i) st'
  end.

Definition init : state := {| result := []; inList := false |}.

(** The array [result] when the function reaches its [return]. *)
Definition fragments (markdown : str) : outcome (list str) :=
  let lines := split_nl markdown in
  st <- iterate lines (length lines) 0 init ;;
  Ok (result (closeList st)).

Definition markdownToHtml (markdown : str) : outcome str :=
  frs <- fragments markdown ;;
  Ok (join frs).

(** The state when the first [k] lines have been processed. *)
Definition state_after (markdown : str) (k : nat) : outcome state :=
  iterate (split_nl markdown) k 0 init.

(** * The vocabulary of the properties *)

Local Open Scope nat_scope.

(** ** Matches *)

(** The state [n] characters further, with [s'] left to read. *)
Definition advance (st : mstate) (n : nat) (s' : str) : mstate :=
  {| idx := n + idx st; rest := s'; mark := mark st; grp := grp st |}.

(** A successful [p+], greedy or lazy, read a non-empty run of [p]
    characters and then its continuation succeeded. *)
Definition plus_shape (p : char -> bool) (k : mstate -> option mstate)
    (s : str) (st : mstate) (m : mstate) : Prop :=
  exists x s', x <> [] /\ forallb p x = true /\ s = x ++ s'
               /\ k (advance st (length x) s') = Some m.

(** What a match read lies between its two ends. *)
Definition reads (st m : mstate) : Prop :=
  exists x, rest st = x ++ rest m /\ idx m = length x + idx st.

(** ** Lines and steps *)

(** One of the three [startsWith] tests of the loop holds. *)
Definition isHeading (t : str) : bool :=
  startsWith (lit "### ") t || startsWith (lit "## ") t
  || startsWith (lit "# ") t.

(** The array only grows. *)
Definition extends (st st' : state) : Prop :=
  exists more, result st' = result st ++ more.

(** Line [k] of the document takes the state [st] the earlier lines left
    to [f st], and the array of [f st] is a prefix of the returned one. *)
Definition step_is (md : str) (k : nat) (f : state -> state) : Prop :=
  exists st post,
    state_after md k = Ok st
    /\ state_after md (S k) = Ok (f st)
    /\ fragments md = Ok (result (f st) ++ post).

(** The newline of a document. *)
Definition NL : str := [10%N].

(** A trimmed line that is a heading, and the element it renders as: the
    text after the marker and its space, as it stands. *)
Inductive Heading : str -> str -> Prop :=
| Heading3 t : Heading (lit "### " ++ t) (H3 t)
| Heading2 t : Heading (lit "## " ++ t) (H2 t)
| Heading1 t : Heading (lit "# " ++ t) (H1 t).

(** The trimmed line matches the list pattern. *)
Definition isListItem (t : str) : bool :=
  match js_match listRe t with
  | Some _ => true
  | None => false
  end.

(** From line [k] on, every line of the document is blank. *)
Definition trailing_blank (md : str) (k : nat) : Prop :=
  k < length (split_nl md)
  /\ forall j line, k <= j -> nth_error (split_nl md) j = Some line ->
                    trim line = [].

(** Line [k] pushes nothing. *)
Definition emits_nothing (md : str) (k : nat) : Prop :=
  exists st st', state_after md k = Ok st
                 /\ state_after md (S k) = Ok st'
                 /\ result st' = result st.

(** ** Spans *)

(** The three inline patterns have one shape: a delimiter of stars, a
    lazy non-empty group over a class, the delimiter again. *)
Definition span_re (d : str) (p : char -> bool) (re : regex) : Prop :=
  forall st m, run re st = Some m ->
    exists body, body <> [] /\ forallb p body = true
                 /\ rest st = d ++ body ++ d ++ rest m
                 /\ grp m = Some body
                 /\ idx m <> idx st.

(** [out] is [s] with some spans [d body d] turned into [tpl body]: the
    text before a span is kept, and so is the text after the last one. *)
Inductive Subst (d : str) (p : char -> bool) (tpl : str -> str)
  : str -> str -> Prop :=
| Subst_rest s : Subst d p tpl s s
| Subst_span pre body s o :
    body <> [] -> forallb p body = true -> Subst d p tpl s o ->
    Subst d p tpl (pre ++ d ++ body ++ d ++ s) (pre ++ tpl body ++ o).




(** ** What a line pushes *)

(** The [<li>] content a list line gives: group 1 of the match, with the
    inline substitution of the list branch applied. *)
Definition ItemOf (line item : str) : Prop :=
  exists m cap, js_match listRe (trim line) = Some m
                /\ grp m = Some cap
                /\ inlineList cap = Ok item
                /\ (forallb notStar cap = true -> item = cap).

(** The line is a list item. *)
Definition listLine (line : str) : Prop := isListItem (trim line) = true.

(** Whether a list is open after the lines [pre]: it is when the last of
    them is a list item. *)
Definition open_after (pre : list str) : bool :=
  match rev pre with
  | [] => false
  | l :: _ => isListItem (trim l)
  end.

(** What a line that is not a list item can push after closing the list:
    a heading, a paragraph, or a line break. *)
Definition BlockOf (line x : str) : Prop :=
  Heading (trim line) x
  \/ (exists p, inlinePara (trim line) = Ok p /\ x = P p)
  \/ (trim line = [] /\ x = BR).

(** ** The returned array *)

(** A fragment that is neither of the two list tags. *)
Definition notListTag (x : str) : Prop := x <> UL_OPEN /\ x <> UL_CLOSE.

(** The number of fragments of the array equal to [x]. *)
Definition count (x : str) (frs : list str) : nat :=
  count_occ str_eq_dec frs x.

(** Every [<ul>] of the array has an [<li>] right after it. *)
Definition ul_then_li (frs : list str) : Prop :=
  forall pre post, frs = pre ++ UL_OPEN :: post ->
                   exists item post', post = LI item :: post'.

(** ** The returned string *)

(** The number of places of [s] where [pat] occurs. *)
Fixpoint occurrences (pat s : str) : nat :=
  (if startsWith pat s then 1 else 0)
  + match s with
    | [] => 0
    | _ :: s' => occurrences pat s'
    end.

(** The two patterns counted, ["<ul"] and ["</ul>"], and the fragment that
    goes with each. *)
Definition ulPat (opening : bool) : str :=
  if opening then lit "<ul" else lit "</ul>".

Definition ulTag (opening : bool) : str :=
  if opening then UL_OPEN else UL_CLOSE.

(** The tags the function writes besides the two list tags. *)
Definition plain_tags : list str :=
  [ BR; H3_OPEN; lit "</h3>"; H2_OPEN; lit "</h2>"; H1_OPEN; lit "</h1>";
    P_OPEN; lit "</p>"; lit "<li>"; lit "</li>";
    lit "<strong>"; lit "</strong>"; lit "<em>"; lit "</em>" ].

(** A character that is none of [u], [l], [/] and [>]: one that the two
    list patterns do not have after their [<]. *)
Definition foreign (c : char) : Prop :=
  c <> 117%N /\ c <> 108%N /\ c <> 47%N /\ c <> 62%N.

(** The occurrences of [pat] in the lines of a document, added up. *)
Fixpoint sum_occ (pat : str) (lines : list str) : nat :=
  match lines with
  | [] => 0
  | l :: ls => occurrences pat l + sum_occ pat ls
  end.

(** A string of white space. *)
Definition allWhite (w : str) : Prop := Forall (fun c => isWhiteSpace c = true) w.

(** From the array [r] to the array [r'], the occurrences of the list
    pattern in the joined string grew by [n] beyond the list tags added. *)
Definition adds (o : bool) (r r' : list str) (n : nat) : Prop :=
  occurrences (ulPat o) (join r') + count (ulTag o) r
  = occurrences (ulPat o) (join r) + n + count (ulTag o) r'.

(** ** The renderer as a two-state machine *)

(** The arrays the loop can build, with the flag [inList] they go with:
    the only moves are a block (a fragment that is not a list tag) after
    closing the list, closing the list, and an item after opening the
    list. *)
Inductive Run : list str -> bool -> Prop :=
| Run_init : Run [] false
| Run_block r b x :
    Run r b -> notListTag x ->
    Run ((if b then r ++ [UL_CLOSE] else r) ++ [x]) false
| Run_close r b :
    Run r b -> Run (if b then r ++ [UL_CLOSE] else r) false
| Run_item r b item :
    Run r b ->
    Run ((if b then r else r ++ [UL_OPEN]) ++ [LI item]) true.

(** * The elements, as they are written out *)

(** A trimmed line that is a heading and the element of it, character by
    character: the marker and its space, and the tag with its class
    around the text after them. *)
Inductive HeadingElement : str -> str -> Prop :=
| HeadingElement3 t :
    HeadingElement (lit "### " ++ t)
      (lit "<h3 class=" ++ 34%N :: lit "text-lg font-semibold mt-4 mb-2"
       ++ 34%N :: lit ">" ++ t ++ lit "</h3>")
| HeadingElement2 t :
    HeadingElement (lit "## " ++ t)
      (lit "<h2 class=" ++ 34%N :: lit "text-xl font-bold mt-6 mb-3"
       ++ 34%N :: lit ">" ++ t ++ lit "</h2>")
| HeadingElement1 t :
    HeadingElement (lit "# " ++ t)
      (lit "<h1 class=" ++ 34%N :: lit "text-2xl font-bold mt-8 mb-4"
       ++ 34%N :: lit ">" ++ t ++ lit "</h1>").

(** Group 1 of the list pattern on the trimmed line: the captured content
    of a list line. *)
Definition Captured (line cap : str) : Prop :=
  exists m, js_match listRe (trim line) = Some m /\ grp m = Some cap.

(** * Further vocabulary: the renderer *)

(** In an array of fragments, no list is closed before it is opened and
    at most one list is open. *)
Definition prefix_ok (p : list str) : Prop :=
  count UL_CLOSE p <= count UL_OPEN p /\ count UL_OPEN p <= count UL_CLOSE p + 1.

(** The characters of the tags the function writes. *)
Definition all_tags : list str := UL_OPEN :: UL_CLOSE :: plain_tags.

Definition tag_chars : str := concat all_tags.

(** A fact [H] about all the tags, used for one of them. *)
Ltac tag H := apply H; unfold all_tags, plain_tags; simpl; tauto.

(** The last line of a document. *)
Definition lastLine (md : str) : str := last (split_nl md) [].

(** The state [st] with the fragments [r] in front of its array. *)
Definition prepend (r : list str) (st : state) : state :=
  {| result := r ++ result st; inList := inList st |}.

(** * The API server

    The second part of the file: the request handlers of the Express
    server and the helpers they call. *)

(** ** More of the string built-ins *)

(** [s.includes(p)]. *)
Fixpoint includes (p s : str) : bool :=
  startsWith p s
  || match s with
     | [] => false
     | _ :: s' => includes p s'
     end.

(** [\d]. *)
Definition isDigit (c : char) : bool := ((48 <=? c) && (c <=? 57))%N.

(** The decimal digits of a number, as [String(n)] gives them for a
    natural number below ten to the 21. *)
Fixpoint uint_codes (u : Decimal.uint) : str :=
  match u with
  | Decimal.Nil => []
  | Decimal.D0 u' => 48%N :: uint_codes u'
  | Decimal.D1 u' => 49%N :: uint_codes u'
  | Decimal.D2 u' => 50%N :: uint_codes u'
  | Decimal.D3 u' => 51%N :: uint_codes u'
  | Decimal.D4 u' => 52%N :: uint_codes u'
  | Decimal.D5 u' => 53%N :: uint_codes u'
  | Decimal.D6 u' => 54%N :: uint_codes u'
  | Decimal.D7 u' => 55%N :: uint_codes u'
  | Decimal.D8 u' => 56%N :: uint_codes u'
  | Decimal.D9 u' => 57%N :: uint_codes u'
  end.

Definition decimal (n : N) : str := uint_codes (N.to_uint n).

(** ** More regular expressions *)

(** The patterns of the server use [*] and [?], which the syntax above
    does not have.  They are written here as matchers in continuation
    style, over the same states and with the same backtracking [p+]. *)
Module Pattern.

Definition cont := mstate -> option mstate.

(** [^] *)
Definition atStart (k : cont) : cont :=
  fun st => match idx st with O => k st | S _ => None end.

(** [$] *)
Definition atEnd (k : cont) : cont :=
  fun st => match rest st with [] => k st | _ :: _ => None end.

(** One character of a class. *)
Definition chr (p : char -> bool) (k : cont) : cont :=
  fun st =>
    match rest st with
    | [] => None
    | c :: s' => if p c then k (eat st s') else None
    end.

(** [p+] *)
Definition plus (p : char -> bool) (k : cont) : cont :=
  fun st => plusGreedy p k (rest st) st.

(** [p*]: as many as possible, then fewer, then none. *)
Definition star (p : char -> bool) (k : cont) : cont :=
  fun st =>
    match plusGreedy p k (rest st) st with
    | Some r => Some r
    | None => k st
    end.

(** [p?]: one if possible, then none. *)
Definition opt (p : char -> bool) (k : cont) : cont :=
  fun st =>
    match chr p k st with
    | Some r => Some r
    | None => k st
    end.

(** The characters of a literal, one after the other. *)
Fixpoint chars (ps : list (char -> bool)) (k : cont) : cont :=
  match ps with
  | [] => k
  | p :: ps' => chr p (chars ps' k)
  end.

(** The states at the two parentheses of capture group 1: the input is
    marked at the first, and what was read since is captured at the
    second. *)
Definition openGroup (st : mstate) : mstate :=
  {| idx := idx st; rest := rest st; mark := Some (rest st); grp := grp st |}.

Definition closeGroup (st : mstate) : mstate :=
  {| idx := idx st; rest := rest st; mark := mark st;
     grp := match mark st with
            | Some m => Some (firstn (length m - length (rest st)) m)
            | None => grp st
            end |}.

(** [( ... )] *)
Definition group (inner : cont -> cont) (k : cont) : cont :=
  fun st => inner (fun st' => k (closeGroup st')) (openGroup st).

(** The leftmost match at or after index [i], where [s] is the input from
    [i] on. *)
Fixpoint find (m : cont) (i : nat) (s : str) : option (nat * mstate) :=
  match m (start i s) with
  | Some r => Some (i, r)
  | None =>
      match s with
      | [] => None
      | _ :: s' => find m (S i) s'
      end
  end.

(** [s.match(re)], without the [g] flag. *)
Definition exec (m : cont) (s : str) : option mstate :=
  option_map snd (find m 0 s).

(** [s.replace(re, r)] without the [g] flag and with a replacement that
    has no [$]: the first match is replaced. *)
Definition replaceFirst (m : cont) (r : str) (s : str) : str :=
  match find m 0 s with
  | None => s
  | Some (j, e) => firstn j s ++ r ++ rest e
  end.

(** [s.replace(re, r)] for a regular expression with the [g] flag and a
    replacement [r] without [$], from index [i] on; after an empty match
    the scan moves one character on. *)
Fixpoint replaceFrom (fuel : nat) (m : cont) (r : str) (i : nat) (s : str)
  : outcome str :=
  match fuel with
  | O => OutOfFuel
  | S fuel' =>
      match find m i s with
      | None => Ok s
      | Some (j, e) =>
          let between := firstn (j - i) s in
          if Nat.eqb (idx e) j then
            match rest e with
            | [] => Ok (between ++ r)
            | c :: s' =>
                t <- replaceFrom fuel' m r (S j) s' ;;
                Ok (between ++ r ++ c :: t)
            end
          else
            t <- replaceFrom fuel' m r (idx e) (rest e) ;;
            Ok (between ++ r ++ t)
      end
  end.

Definition replaceAll (m : cont) (r : str) (s : str) : outcome str :=
  replaceFrom (S (length s)) m r 0 s.

End Pattern.

(** ** Values *)

(** The values [JSON.parse] gives.  A number is a double: not a number,
    an infinity, or [m] times two to the [e], with a sign that zero has
    too.  An object is the list of the property writes that made it; the
    last write to a name is the one in force. *)
Module Json.

Inductive number : Type :=
| NaN
| Infinity (neg : bool)
| Finite (neg : bool) (m : N) (e : Z).

#[warnings="-register-all"] Inductive value : Type :=
| VUndefined
| VNull
| VBool (b : bool)
| VNumber (n : number)
| VString (s : str)
| VArray (items : list value)
| VObject (props : list (str * value)).

Definition object := list (str * value).

(** ToBoolean. *)
Definition truthy (v : value) : bool :=
  match v with
  | VUndefined | VNull => false
  | VBool b => b
  | VNumber NaN => false
  | VNumber (Infinity _) => true
  | VNumber (Finite _ m _) => negb (m =? 0)%N
  | VString s => match s with [] => false | _ :: _ => true end
  | VArray _ | VObject _ => true
  end.

(** The last write to the property [k] of an object, if there is one. *)
Fixpoint lookup (k : str) (o : object) : option value :=
  match o with
  | [] => None
  | (k', v) :: o' =>
      match lookup k o' with
      | Some later => Some later
      | None => if str_eq_dec k' k then Some v else None
      end
  end.

(** The value of the property [k] of an object, [undefined] when it has
    none. *)
Definition prop (k : str) (o : object) : value :=
  match lookup k o with
  | Some v => v
  | None => VUndefined
  end.

(** [v.k], for a name [k] that is not [length], not an index and not a
    member of a prototype. *)
Definition get (k : str) (v : value) : outcome value :=
  match v with
  | VUndefined | VNull => TypeError
  | VObject o => Ok (prop k o)
  | _ => Ok VUndefined
  end.

(** [v === s] for a string [s]. *)
Definition isString (s : str) (v : value) : bool :=
  match v with
  | VString s' => if str_eq_dec s' s then true else false
  | _ => false
  end.

End Json.

(** ** POST /api/risk-score *)

Module Risk.

Import Json Pattern.

Local Open Scope Z_scope.

(** The object of a response. *)
Record assessment : Type := Assessment {
  riskLevel : str;
  reasons : list str;
  score : Z;
  error : option str
}.

(** [calculateFallbackScore(data)] *)
Definition calculateFallbackScore (data : value) : outcome assessment :=
  let score := 20 in
  hasPII <- get (lit "hasPII") data ;;
  let score := if truthy hasPII then score + 30 else score in
  hasControls <- get (lit "hasControls") data ;;
  let score := if negb (truthy hasControls) then score + 25 else score in
  country <- get (lit "country") data ;;
  let score := if negb (isString (lit "USA") country) then score + 15 else score in
  let riskLevel :=
    if 70 <? score then lit "HIGH"
    else if 40 <? score then lit "MEDIUM" else lit "LOW" in
  Ok {| riskLevel := riskLevel; reasons := [lit "Rule-based fallback"];
        score := score; error := None |}.

(** [/^\d+\./] *)
Definition numberedRe : cont :=
  atStart (plus isDigit (chr (fun c => c =? 46)%N Some)).

(** The class [[-\d+.]]. *)
Definition isMarker (c : char) : bool :=
  ((c =? 45) || isDigit c || (c =? 43) || (c =? 46))%N.

(** [/^[-\d+.]\s*/] *)
Definition markerRe : cont :=
  atStart (chr isMarker (star isWhiteSpace Some)).

(** The test of the first [filter] (line 2701). *)
Definition isReasonLine (l : str) : bool :=
  startsWith (lit "-") (trim l)
  || match exec numberedRe (trim l) with Some _ => true | None => false end.

(** The function of the [map] (line 2702). *)
Definition cleanLine (l : str) : str := replaceFirst markerRe [] (trim l).

(** The test of the second [filter] (line 2703). *)
Definition nonEmpty (r : str) : bool := Nat.ltb 0 (length r).

(** The parse of the text of the model (lines 2699-2704). *)
Definition parseLevel (text : str) : str :=
  if includes (lit "HIGH") text then lit "HIGH"
  else if includes (lit "MEDIUM") text then lit "MEDIUM" else lit "LOW".

Definition parseReasons (text : str) : list str :=
  firstn 5 (filter nonEmpty (map cleanLine (filter isReasonLine (split_nl text)))).

(** The response when the text was obtained (lines 2706-2710). *)
Definition analysed (text : str) : assessment :=
  let riskLevel := parseLevel text in
  let reasons := parseReasons text in
  {| riskLevel := riskLevel;
     reasons := if Nat.ltb 0 (length reasons) then reasons
                else [lit "Analysis complete based on submitted data"];
     score := if str_eq_dec riskLevel (lit "HIGH") then 85
              else if str_eq_dec riskLevel (lit "MEDIUM") then 55 else 25;
     error := None |}.

(** The response when an error with the message [msg] was caught (lines
    2711-2715). *)
Definition failed (msg : str) (data : value) : outcome assessment :=
  score <- calculateFallbackScore data ;;
  Ok {| riskLevel := riskLevel score; reasons := reasons score;
        score := Risk.score score;
        error := Some (lit "AI analysis failed: " ++ msg) |}.

(** The end of the handler: the text of the model, or the message of the
    error that was thrown on the way to it. *)
Definition respond (got : str + str) (data : value) : outcome assessment :=
  match got with
  | inl text => Ok (analysed text)
  | inr msg => failed msg data
  end.

End Risk.

(** ** The entities in memory *)

Module Entities.

Import Json.

(** The elements of an array or the units of a string as properties,
    under their indices. *)
Fixpoint indexed (i : nat) (items : list value) : object :=
  match items with
  | [] => []
  | x :: items' => (decimal (N.of_nat i), x) :: indexed (S i) items'
  end.

(** The properties that [{...v}] copies. *)
Definition ownProps (v : value) : object :=
  match v with
  | VObject o => o
  | VArray items => indexed 0 items
  | VString s => indexed 0 (map (fun c => VString [c]) s)
  | _ => []
  end.

(** The array [entities]: every element is an object that a POST made. *)
Definition store := list object.

(** What a handler answers: [res.json(entity)], or the status 404. *)
Inductive reply : Type :=
| Found (entity : object)
| NotFound.

(** [e => e.id === id] *)
Definition hasId (id : str) (e : object) : bool :=
  isString id (prop (lit "id") e).

(** [entities.findIndex(f)], [None] for -1. *)
Fixpoint findIndex (f : object -> bool) (es : store) : option nat :=
  match es with
  | [] => None
  | e :: es' => if f e then Some 0 else option_map S (findIndex f es')
  end.

(** [entities[index] = e], for an index within the array. *)
Fixpoint assign (index : nat) (e : object) (es : store) : store :=
  match es, index with
  | [], _ => []
  | _ :: es', O => e :: es'
  | e' :: es', S i => e' :: assign i e es'
  end.

(** GET /api/entities/:id *)
Definition getEntity (id : str) (es : store) : reply :=
  match find (hasId id) es with
  | Some entity => Found entity
  | None => NotFound
  end.

(** POST /api/entities, when [Date.now()] gives [now] and the two
    [new Date().toISOString()] give [createdAt] and [lastUpdated]. *)
Definition postEntity (now : N) (createdAt lastUpdated : str) (body : value)
    (es : store) : store * reply :=
  let entity :=
    [ (lit "id", VString (lit "entity-" ++ decimal now));
      (lit "createdAt", VString createdAt);
      (lit "lastUpdated", VString lastUpdated) ] ++ ownProps body in
  (es ++ [entity], Found entity).

(** PUT /api/entities/:id, when [new Date().toISOString()] gives
    [lastUpdated]. *)
Definition putEntity (id : str) (lastUpdated : str) (body : value)
    (es : store) : store * reply :=
  match findIndex (hasId id) es with
  | None => (es, NotFound)
  | Some index =>
      let entity :=
        nth index es [] ++ ownProps body
        ++ [(lit "lastUpdated", VString lastUpdated)] in
      (assign index entity es, Found entity)
  end.

End Entities.

(** ** POST /api/pm/strategy *)

Module Strategy.

(** How one pass through the [try] block ends: at the [return] for the
    missing key (line 1416), at the [return] after the brief is sent (line
    1520), not at all, when the awaited call of the model (line 1479) never
    settles, or with a value that is thrown, before or after the model was
    called.  [Thrown] is a thrown value whose [message] is a string, as an
    [Error] has.  [ThrownOther] is any other thrown value: [test] is the
    truth value the disjunction of line 1526 has for it, [None] when the
    catch block throws before it has one (reading [message] of [null] or
    of [undefined] at line 1523, calling [includes] of a message that has
    none at line 1526); [printable] tells whether the template of line
    1536 can turn the message into a string. *)
Inductive attempt : Type :=
| NoKey
| Sent
| Thrown (called : bool) (message : str)
| ThrownOther (called : bool) (test : option bool) (printable : bool)
| Pending.

(** What the handler does that can be seen from outside; [Throw] is the
    handler ending with an error of its own, which rejects the promise it
    returns: nothing is sent. *)
Inductive event : Type :=
| CallModel
| Sleep (ms : N)
| Respond (status : N)
| Throw.

Definition maxRetries : nat := 3.

(** The test of line 1526 on the message of the error. *)
Definition isParseError (message : str) : bool :=
  includes (lit "JSON") message
  || includes (lit "parse") message
  || includes (lit "Unexpected token") message.

(** The [catch] block, lines 1521 to 1539; [retry k] is the rest of the
    loop from [retryCount = k]. *)
Definition caught (retry : nat -> outcome (list event))
    (called : bool) (test : option bool) (printable : bool)
    (retryCount : nat) : outcome (list event) :=
  let retryCount := S retryCount in
  let before := if called then [CallModel] else [] in
  match test with
  | None => Ok (before ++ [Throw])
  | Some parse =>
      if parse && Nat.ltb retryCount maxRetries then
        after <- retry retryCount ;;
        Ok (before ++ Sleep (1000 * N.of_nat retryCount)%N :: after)
      else if Nat.leb maxRetries retryCount then
        Ok (before ++ [if printable then Respond 500%N else Throw])
      else
        after <- retry retryCount ;;
        Ok (before ++ after)
  end.

(** The [while] loop, from the value [retryCount] has; [attempts k] is how
    the pass that starts with [retryCount = k] ends. *)
Fixpoint loop (fuel : nat) (attempts : nat -> attempt) (retryCount : nat)
  : outcome (list event) :=
  match fuel with
  | O => OutOfFuel
  | S fuel' =>
      if Nat.ltb retryCount maxRetries then
        match attempts retryCount with
        | NoKey => Ok [Respond 500%N]
        | Sent => Ok [CallModel; Respond 200%N]
        | Pending => Ok [CallModel]
        | Thrown called message =>
            caught (loop fuel' attempts) called
                   (Some (isParseError message)) true retryCount
        | ThrownOther called test printable =>
            caught (loop fuel' attempts) called test printable retryCount
        end
      else Ok []
  end.

(** The handler. *)
Definition strategy (attempts : nat -> attempt) : outcome (list event) :=
  loop (S maxRetries) attempts 0.

(** The calls of the model, the time slept and the responses of a run. *)
Definition calls (tr : list event) : nat :=
  length (filter (fun e => match e with CallModel => true | _ => false end) tr).

Fixpoint slept (tr : list event) : N :=
  match tr with
  | [] => 0%N
  | Sleep ms :: tr' => (ms + slept tr')%N
  | _ :: tr' => slept tr'
  end.

Fixpoint responses (tr : list event) : list N :=
  match tr with
  | [] => []
  | Respond status :: tr' => status :: responses tr'
  | _ :: tr' => responses tr'
  end.

(** A run with one response, of the status 200 or 500, as its last
    event. *)
Definition answered (tr : list event) : Prop :=
  exists tr0 status,
    tr = tr0 ++ [Respond status]
    /\ responses tr0 = []
    /\ (status = 200%N \/ status = 500%N).

(** A pass after which the handler goes on or answers: it ends, and the
    catch block does not throw on what it threw. *)
Definition answers (a : attempt) : bool :=
  match a with
  | NoKey | Sent | Thrown _ _ => true
  | ThrownOther _ (Some _) printable => printable
  | ThrownOther _ None _ => false
  | Pending => false
  end.

(** The delay the handler takes after the pass [k] when that pass throws
    and another one follows. *)
Definition delay (attempts : nat -> attempt) (k : nat) : N :=
  match attempts k with
  | Thrown _ message =>
      if isParseError message then (1000 * N.of_nat (S k))%N else 0%N
  | _ => 0%N
  end.

(** The delays of the passes before the pass [k]. *)
Fixpoint delays (attempts : nat -> attempt) (k : nat) : N :=
  match k with
  | O => 0%N
  | S k' => (delays attempts k' + delay attempts k')%N
  end.

(** The most the handler sleeps from the pass [k] on. *)
Definition budget (k : nat) : N :=
  match k with
  | 0 => 3000%N
  | 1 => 2000%N
  | _ => 0%N
  end.

(** *** Tactics *)

(** The run of a goal that ends with the brief is split into the brief
    and the events before it. *)
Ltac sends :=
  match goal with
  | |- exists tr, Ok ?l = @?r tr /\ @?q tr =>
      exists (removelast l); split; [cbn; reflexivity|];
      split; [reflexivity|vm_compute; reflexivity]
  end.

End Strategy.

(** ** createEventsInGoogleCalendar *)

Module Calendar.

Import Json.

(** The two variables the loop updates. *)
Record tally : Type := Tally {
  created : nat;
  eventLinks : list value
}.

(** One pass of the [for] loop (lines 1920-1949) for the event at index
    [i]: [inserted i] is [response.data.htmlLink] when the insertion
    answers, and [None] when it throws.  An insertion that throws is
    caught and the loop goes on.  An event that is [undefined] or [null]
    throws at [event.title], and again in the [catch] block, which reads
    [event.title] for its message: that error leaves the function. *)
Definition pass (inserted : nat -> option value) (i : nat) (event : value)
    (t : tally) : outcome tally :=
  _ <- get (lit "title") event ;;
  match inserted i with
  | Some htmlLink =>
      if truthy htmlLink
      then Ok {| created := S (created t);
                 eventLinks := eventLinks t ++ [htmlLink] |}
      else Ok t
  | None => Ok t
  end.

Fixpoint forOf (inserted : nat -> option value) (i : nat)
    (calendarEvents : list value) (t : tally) : outcome tally :=
  match calendarEvents with
  | [] => Ok t
  | event :: more =>
      t' <- pass inserted i event t ;;
      forOf inserted (S i) more t'
  end.

(** The function from line 1914 on, when the client is set up. *)
Definition createEventsInGoogleCalendar (inserted : nat -> option value)
    (calendarEvents : list value) : outcome tally :=
  forOf inserted 0 calendarEvents {| created := 0; eventLinks := [] |}.

(** The link the insertion at index [i] adds, if it adds one. *)
Definition linkOf (inserted : nat -> option value) (i : nat) : list value :=
  match inserted i with
  | Some htmlLink => if truthy htmlLink then [htmlLink] else []
  | None => []
  end.

(** The links of [n] insertions from the index [i] on. *)
Fixpoint linksFrom (inserted : nat -> option value) (i n : nat) : list value :=
  match n with
  | O => []
  | S n' => linkOf inserted i ++ linksFrom inserted (S i) n'
  end.

(** [undefined] or [null]. *)
Definition nullish (v : value) : Prop := v = VUndefined \/ v = VNull.

End Calendar.

(** ** POST /api/pm/automation/sync-calendar *)

Module Sync.

Import Json.

(** What the handler answers from line 2070 on: the status 500 of line
    2098, or the object of line 2110. *)
Inductive reply : Type :=
| NotConfigured
| Synced (needsAuth : bool) (eventsCreated : nat) (eventLinks : list value)
    (message : str).

(** Lines 2070-2139.  [hasSession] is [sessionId && tokenStore[sessionId]],
    [accessToken] is [tokens.access_token], [configured] is that the client
    id, the client secret and the client are there, and [creation] is what
    the call of [createEventsInGoogleCalendar] gives: its result, or the
    message of the error it throws.  The result is the reply, and whether
    the token of the session was deleted. *)
Definition syncCalendar (hasSession accessToken configured : bool)
    (creation : Calendar.tally + str) : reply * bool :=
  let '(eventsCreated, eventLinks, needsAuth, deleted) :=
    if hasSession then
      if accessToken then
        match creation with
        | inl result =>
            (Calendar.created result, Calendar.eventLinks result, false, false)
        | inr message =>
            if includes (lit "invalid_grant") message
               || includes (lit "expired") message
            then (0, [], true, true)
            else (0, [], false, false)
        end
      else (0, [], false, false)
    else (0, [], true, false) in
  if needsAuth && negb configured then (NotConfigured, deleted)
  else
    (Synced needsAuth eventsCreated eventLinks
       (if Nat.ltb 0 eventsCreated then
          lit "Successfully created " ++ decimal (N.of_nat eventsCreated)
          ++ lit " events in your Google Calendar!"
        else if needsAuth then
          lit "Please authenticate with Google Calendar to sync events."
        else
          lit "Schedule generated successfully. Events will be created after authentication."),
     deleted).

End Sync.

(** ** The duration of a task *)

Module Duration.

Import Pattern.

(** A letter of a pattern with the [i] flag: the lower-case letter
    [lower] or its capital. *)
Definition letter (lower : N) (c : char) : bool :=
  ((c =? lower) || (c =? lower - 32))%N.

(** [hour], with the [i] flag. *)
Definition hourTail : cont :=
  chars [letter 104; letter 111; letter 117; letter 114] Some.

(** [/(\d+)\s*hour/i] *)
Definition hourRe : cont :=
  group (plus isDigit) (star isWhiteSpace hourTail).

(** The value of a code unit as a digit in a radix, if it is one. *)
Definition digitVal (radix : N) (c : char) : option N :=
  let v :=
    if isDigit c then Some (c - 48)%N
    else if ((97 <=? c) && (c <=? 122))%N then Some (c - 87)%N
    else if ((65 <=? c) && (c <=? 90))%N then Some (c - 55)%N
    else None in
  match v with
  | Some d => if (d <? radix)%N then Some d else None
  | None => None
  end.

(** The integer that the longest prefix of digits writes, from the value
    [acc] of the digits already read; [None] when there is no digit. *)
Fixpoint digitsPrefix (radix : N) (s : str) (acc : option N) : option N :=
  match s with
  | [] => acc
  | c :: s' =>
      match digitVal radix c with
      | Some d =>
          digitsPrefix radix s'
            (Some (radix * match acc with Some n => n | None => 0 end + d)%N)
      | None => acc
      end
  end.

(** The Number of an integer with the magnitude [n]: a double, which is
    the integer itself below two to the 53 and else the double nearest to
    it, the one with the even significand of two that are as near, and an
    infinity from the middle between the largest double and two to the
    1024 on.  [m] has 53 bits then, or is two to the 53 after a carry. *)
Definition toNumber (neg : bool) (n : N) : Json.number :=
  if (n <? 2 ^ 53)%N then Json.Finite neg n 0
  else
    let e := (N.size n - 53)%N in
    let m := N.shiftr n e in
    let low := N.land n (N.ones e) in
    let half := N.shiftl 1 (e - 1) in
    let m :=
      if ((half <? low) || ((low =? half) && N.odd m))%N
      then (m + 1)%N else m in
    if (2 ^ 1024 <=? N.shiftl m e)%N then Json.Infinity neg
    else Json.Finite neg m (Z.of_N e).

(** [parseInt(string)] with no radix: white space, a sign, [0x] for
    radix 16, then the digits; NaN when there is no digit.  The result is
    a Number, the one of the integer that the digits write.  The language
    lets an engine read the digits after the twentieth as zeros; the
    embedding reads them all, as the engine of Node does. *)
Definition parseInt (string : str) : Json.number :=
  let s := trimStart string in
  let '(neg, s) :=
    match s with
    | c :: s' =>
        if (c =? 45)%N then (true, s')
        else if (c =? 43)%N then (false, s') else (false, s)
    | [] => (false, s)
    end in
  let '(radix, s) :=
    match s with
    | c :: x :: s' =>
        if ((c =? 48) && ((x =? 120) || (x =? 88)))%N
        then (16%N, s') else (10%N, s)
    | _ => (10%N, s)
    end in
  match digitsPrefix radix s None with
  | Some n => toNumber neg n
  | None => Json.NaN
  end.

(** Lines 1732-1738 and 2048-2054, for a duration that is a string: the
    hours of the task, 2 when the string does not give them. *)
Definition durationHours (duration : str) : Json.number :=
  match duration with
  | [] => Json.Finite false 2 0
  | _ :: _ =>
      match exec hourRe duration with
      | Some durationMatch =>
          parseInt match grp durationMatch with
                   | Some digits => digits
                   | None => lit "undefined"
                   end
      | None => Json.Finite false 2 0
      end
  end.

(** A Number that is not NaN and has no minus sign. *)
Definition notNegative (x : Json.number) : bool :=
  match x with
  | Json.NaN => false
  | Json.Infinity neg | Json.Finite neg _ _ => negb neg
  end.

(** The number a string of decimal digits writes. *)
Definition decimalValue (digits : str) : N :=
  fold_left (fun n c => (10 * n + (c - 48))%N) digits 0%N.

(** No [h] and no [H]. *)
Definition noH (s : str) : bool := forallb (fun c => negb (letter 104 c)) s.

(** The string does not end with a digit. *)
Definition endsOutsideNumber (s : str) : bool :=
  match rev s with
  | [] => true
  | c :: _ => negb (isDigit c)
  end.

End Duration.

(** ** The text of the model, without its code fence *)

Module Fence.

Import Pattern.

Definition isTick (c : char) : bool := (c =? 96)%N.
Definition isNewline (c : char) : bool := (c =? 10)%N.

(** The character [x] of a pattern. *)
Definition the (x : char) (c : char) : bool := (c =? x)%N.

(** The three backticks. *)
Definition fence : str := [96%N; 96%N; 96%N].

(** [/```json\n?/g] *)
Definition fenceJsonRe : cont :=
  chars (map the (fence ++ lit "json")) (opt isNewline Some).

(** [/```\n?/g] *)
Definition fenceRe : cont :=
  chars (map the fence) (opt isNewline Some).

(** [/```\n?$/g] *)
Definition fenceEndRe : cont :=
  chars (map the fence) (opt isNewline (atEnd Some)).

(** Lines 1483-1488, and the same at lines 1686-1691 and 1823-1828. *)
Definition stripFence (text : str) : outcome str :=
  let jsonText := trim text in
  if startsWith (fence ++ lit "json") jsonText then
    a <- replaceAll fenceJsonRe [] jsonText ;;
    replaceAll fenceEndRe [] a
  else if startsWith fence jsonText then
    a <- replaceAll fenceRe [] jsonText ;;
    replaceAll fenceEndRe [] a
  else Ok jsonText.

(** A string without a backtick. *)
Definition noTick (s : str) : bool := forallb (fun c => negb (isTick c)) s.

(** A string without the newline it may begin with. *)
Definition dropNewline (s : str) : str :=
  match s with
  | c :: s' => if isNewline c then s' else s
  | [] => []
  end.

End Fence.

(** ** The customer chat *)

Module Chat.

(** A message of the chat. *)
Record msg : Type := Msg {
  role : str;
  content : str
}.

(** *** The page *)

(** The two state variables of the page that the handler writes. *)
Record page : Type := Page {
  customerMessages : list msg;
  customerMessageInput : str
}.

(** What the handler passes to [runCustomerAdvisoryAgent]. *)
Record request : Type := Request {
  message : str;
  conversationHistory : list msg
}.

(** The request of [handleCustomerAdvisoryMessage] (lines 172-192), if it
    makes one. *)
Definition requestOf (p : page) : option request :=
  match trim (customerMessageInput p) with
  | [] => None
  | userMessage =>
      let newMessages :=
        customerMessages p
        ++ [{| role := lit "user"; content := userMessage |}] in
      Some {| message := userMessage; conversationHistory := newMessages |}
  end.

(** [handleCustomerAdvisoryMessage] (lines 171-208): the state of the
    page when the handler is done, for a page that nothing else updates
    meanwhile; [reply] is [response.data.message], and [None] when the
    call throws. *)
Definition handleCustomerAdvisoryMessage (p : page) (reply : option str)
  : page :=
  match requestOf p with
  | None => p
  | Some r =>
      match reply with
      | Some answer =>
          {| customerMessages :=
               conversationHistory r
               ++ [{| role := lit "assistant"; content := answer |}];
             customerMessageInput := [] |}
      | None =>
          {| customerMessages := customerMessages p;
             customerMessageInput := [] |}
      end
  end.

(** [clearCustomerChat] *)
Definition clearCustomerChat (p : page) : page :=
  {| customerMessages := [];
     customerMessageInput := customerMessageInput p |}.

(** *** The server *)

(** The function of the [forEach] (lines 1571-1577): what a message adds
    to the context. *)
Definition contextLine (m : msg) : str :=
  if str_eq_dec (role m) (lit "user") then
    lit "PM: " ++ content m ++ NL
  else if str_eq_dec (role m) (lit "assistant") then
    lit "Customer: " ++ content m ++ NL
  else [].

(** [conversationContext] (lines 1568-1578), for a history that is an
    array of messages. *)
Definition conversationContext (history : list msg) : str :=
  match history with
  | [] => []
  | _ :: _ =>
      NL ++ NL ++ lit "Previous conversation:" ++ NL
      ++ concat (map contextLine history)
  end.

(** [prompt] (lines 1599-1605). *)
Definition prompt (systemPrompt : str) (r : request) : str :=
  systemPrompt ++ NL ++ NL
  ++ conversationContext (conversationHistory r) ++ NL ++ NL
  ++ lit "Current question from PM: " ++ dq ++ message r ++ dq ++ NL ++ NL
  ++ lit "Respond as a real customer would. Be authentic and helpful. Keep your response conversational and natural (2-4 sentences typically, but can be longer if the question warrants it).".

(** *** The chat as a sequence of questions and answers *)

Inductive paired : list msg -> Prop :=
| paired_nil : paired []
| paired_snoc ms question answer :
    paired ms -> question <> [] ->
    paired (ms ++ [ {| role := lit "user"; content := question |};
                    {| role := lit "assistant"; content := answer |} ]).

End Chat.

(** * Properties *)

(** ** The matcher *)

Module RegexFacts.

Lemma plus_shape_cons p k c s st m :
  p c = true ->
  plus_shape p k s (advance st 1 s) m ->
  plus_shape p k (c :: s) st m.
Proof.
  intros Hc (x & s' & _ & Hp & -> & Hk).
  exists (c :: x), s'. repeat split.
  - discriminate.
  - simpl. now rewrite Hc, Hp.
  - unfold advance in *. simpl in *.
    now rewrite Nat.add_succ_r in Hk.
Qed.

Lemma plus_shape_one p k c s st m :
  p c = true -> k (eat st s) = Some m -> plus_shape p k (c :: s) st m.
Proof.
  intros Hc Hk. exists [c], s. repeat split.
  - discriminate.
  - simpl. now rewrite Hc.
  - exact Hk.
Qed.

Lemma plusGreedy_some p k s : forall st m,
  plusGreedy p k s st = Some m -> plus_shape p k s st m.
Proof.
  induction s as [|c s IH]; intros st m H; simpl in H; [discriminate|].
  destruct (p c) eqn:Hc; [|discriminate].
  destruct (plusGreedy p k s (eat st s)) as [r|] eqn:Hg.
  - injection H as ->. apply plus_shape_cons; [exact Hc|].
    apply IH. exact Hg.
  - now apply plus_shape_one.
Qed.

Lemma plusLazy_some p k s : forall st m,
  plusLazy p k s st = Some m -> plus_shape p k s st m.
Proof.
  induction s as [|c s IH]; intros st m H; simpl in H; [discriminate|].
  destruct (p c) eqn:Hc; [|discriminate].
  destruct (k (eat st s)) as [r|] eqn:Hk.
  - injection H as ->. now apply plus_shape_one.
  - apply plus_shape_cons; [exact Hc|]. apply IH. exact H.
Qed.

Lemma reads_refl st : reads st st.
Proof. exists []. split; reflexivity. Qed.

Lemma reads_step st c s' m :
  rest st = c :: s' -> reads (eat st s') m -> reads st m.
Proof.
  intros Hr (x & Hx & Hi). simpl in *. exists (c :: x). split.
  - rewrite Hr, Hx. reflexivity.
  - rewrite Hi. simpl. lia.
Qed.

Lemma reads_plus p k st m :
  (forall st', k st' = Some m -> reads st' m) ->
  plus_shape p k (rest st) st m -> reads st m.
Proof.
  intros Hk (x & s' & _ & _ & Hs & Hm).
  destruct (Hk _ Hm) as (y & Hy & Hi). simpl in *.
  exists (x ++ y). split.
  - rewrite Hs, Hy. now rewrite app_assoc.
  - rewrite Hi, length_app. lia.
Qed.

Lemma run_reads re : forall st m, run re st = Some m -> reads st m.
Proof.
  induction re as [|n re IH]; intros st m H; simpl in H.
  - injection H as ->. apply reads_refl.
  - destruct n.
    + destruct (idx st); [now apply IH|discriminate].
    + destruct (rest st); [now apply IH|discriminate].
    + destruct (rest st) as [|c s'] eqn:Hr; [discriminate|].
      destruct (p c); [|discriminate].
      eapply reads_step; [exact Hr|]. now apply IH.
    + apply (reads_plus p (run re)); [exact (fun st' => IH st' m)|].
      now apply plusGreedy_some.
    + apply (reads_plus p (run re)); [exact (fun st' => IH st' m)|].
      now apply plusLazy_some.
    + apply IH in H. exact H.
    + apply IH in H. exact H.
Qed.

(** A match found by [search] starts after a prefix the matcher failed
    on, and is anchored where that prefix ends. *)
Lemma search_some re s : forall i j m,
  search re i s = Some (j, m) ->
  exists pre s', s = pre ++ s' /\ j = length pre + i
                 /\ run re (start j s') = Some m.
Proof.
  induction s as [|c s IH]; intros i j m H; simpl in H.
  - destruct (run re (start i [])) eqn:Hr; [|discriminate].
    injection H as <- <-. exists [], []. auto.
  - destruct (run re (start i (c :: s))) eqn:Hr.
    + injection H as <- <-. exists [], (c :: s). auto.
    + destruct (IH _ _ _ H) as (pre & s' & -> & -> & Hm).
      exists (c :: pre), s'. repeat split; [|exact Hm]. simpl. lia.
Qed.

(** The scan of [replace] ends within [S (length s)] rounds. *)
Lemma replace_from_total re tpl fuel : forall i s,
  length s < fuel -> exists out, replace_from fuel re tpl i s = Ok out.
Proof.
  induction fuel as [|fuel IH]; intros i s Hlen; [lia|].
  simpl. destruct (search re i s) as [[j m]|] eqn:Hs; [|eauto].
  destruct (search_some _ _ _ _ _ Hs) as (pre & s' & -> & -> & Hm).
  destruct (run_reads _ _ _ Hm) as (x & Hx & Hi). simpl in Hx, Hi.
  rewrite length_app in Hlen.
  destruct (Nat.eqb (idx m) (length pre + i)) eqn:He.
  - destruct (rest m) as [|c t] eqn:Hr; [eauto|].
    destruct (IH (S (length pre + i)) t) as [out Ho].
    + subst s'. rewrite length_app in Hlen. simpl in Hlen. lia.
    + rewrite Ho. simpl. eauto.
  - apply Nat.eqb_neq in He.
    destruct (IH (idx m) (rest m)) as [out Ho].
    + subst s'. rewrite length_app in Hlen.
      destruct x; simpl in *; lia.
    + rewrite Ho. simpl. eauto.
Qed.

Lemma js_replace_total re tpl s : exists out, js_replace re tpl s = Ok out.
Proof. apply replace_from_total. lia. Qed.

End RegexFacts.

Import RegexFacts.

(** ** The built-ins on strings *)

Lemma startsWith_spec p : forall s,
  startsWith p s = true <-> exists t, s = p ++ t.
Proof.
  induction p as [|a p IH]; intros s; simpl.
  - split; [exists s; reflexivity|reflexivity].
  - destruct s as [|b s].
    + split; [discriminate|]. intros [t Ht]. discriminate.
    + rewrite andb_true_iff, N.eqb_eq, IH. split.
      * intros [-> [t ->]]. now exists t.
      * intros [t Ht]. injection Ht as -> ->. split; [reflexivity|now exists t].
Qed.

Lemma split_nl_nonempty s : split_nl s <> [].
Proof.
  destruct s as [|c s]; simpl; [discriminate|].
  destruct (c =? 10)%N; [discriminate|].
  destruct (split_nl s); discriminate.
Qed.

(** The three heading markers exclude one another, so the order of the
    three tests decides nothing by itself. *)
Lemma h2_not_h3 t :
  startsWith (lit "## ") t = true -> startsWith (lit "### ") t = false.
Proof.
  intros H. apply startsWith_spec in H as [u ->]. reflexivity.
Qed.

Lemma h1_not_h3 t :
  startsWith (lit "# ") t = true -> startsWith (lit "### ") t = false.
Proof.
  intros H. apply startsWith_spec in H as [u ->]. reflexivity.
Qed.

Lemma h1_not_h2 t :
  startsWith (lit "# ") t = true -> startsWith (lit "## ") t = false.
Proof.
  intros H. apply startsWith_spec in H as [u ->]. reflexivity.
Qed.

(** ** The list pattern *)

(** What [/^[-*]\s+(.+)$/] accepts: a dash or star, white space, and a
    non-empty group without line terminators that ends the string. *)
Lemma listRe_run s m :
  run listRe (start 0 s) = Some m ->
  exists c w cap,
    s = c :: w ++ cap /\ isDashOrStar c = true
    /\ w <> [] /\ forallb isWhiteSpace w = true
    /\ cap <> [] /\ forallb isDot cap = true
    /\ grp m = Some cap /\ rest m = [].
Proof.
  unfold listRe. simpl.
  destruct s as [|c s1]; [discriminate|].
  destruct (isDashOrStar c) eqn:Hc; [|discriminate].
  intros H. apply plusGreedy_some in H.
  destruct H as (w & s2 & Hw & Hws & -> & H). simpl in H.
  apply plusGreedy_some in H.
  destruct H as (cap & s3 & Hcap & Hdot & -> & H). simpl in H.
  destruct s3; [|discriminate]. injection H as <-. simpl.
  exists c, w, cap. rewrite app_nil_r, Nat.sub_0_r, firstn_all.
  repeat split; assumption.
Qed.

Lemma listRe_anchored s : forall i, search listRe (S i) s = None.
Proof.
  induction s as [|c s IH]; intros i; simpl; [reflexivity|apply IH].
Qed.

Lemma js_match_listRe s m :
  js_match listRe s = Some m <-> run listRe (start 0 s) = Some m.
Proof.
  unfold js_match. destruct s as [|c s].
  - simpl. split; discriminate.
  - cbn [search]. destruct (run listRe (start 0 (c :: s))) as [r|].
    + simpl. reflexivity.
    + rewrite listRe_anchored. simpl. reflexivity.
Qed.

(** A list match always has its group: [listMatch[1]] is a string. *)
Lemma js_match_listRe_grp s m :
  js_match listRe s = Some m -> exists cap, grp m = Some cap /\ cap <> [].
Proof.
  intros H. apply js_match_listRe in H.
  destruct (listRe_run _ _ H) as (c & w & cap & _ & _ & _ & _ & Hc & _ & Hg & _).
  now exists cap.
Qed.

(** ** The loop body, branch by branch *)

Lemma inlineList_total s : exists out, inlineList s = Ok out.
Proof.
  unfold inlineList.
  destruct (js_replace_total boldRe strongTpl s) as [b ->]. simpl.
  apply js_replace_total.
Qed.

Lemma inlinePara_total s : exists out, inlinePara s = Ok out.
Proof.
  unfold inlinePara.
  destruct (js_replace_total boldRe strongTpl s) as [b ->]. simpl.
  apply js_replace_total.
Qed.

Section Body.

Variable lines : list str.
Variable i : nat.
Variable line : str.
Hypothesis Hline : nth_error lines i = Some line.

Lemma body_h3 st :
  startsWith (lit "### ") (trim line) = true ->
  body lines i st = Ok (push (H3 (substring 4 (trim line))) (closeList st)).
Proof. intros H. unfold body. now rewrite Hline, H. Qed.

Lemma body_h2 st :
  startsWith (lit "## ") (trim line) = true ->
  body lines i st = Ok (push (H2 (substring 3 (trim line))) (closeList st)).
Proof.
  intros H. unfold body. now rewrite Hline, (h2_not_h3 _ H), H.
Qed.

Lemma body_h1 st :
  startsWith (lit "# ") (trim line) = true ->
  body lines i st = Ok (push (H1 (substring 2 (trim line))) (closeList st)).
Proof.
  intros H. unfold body.
  now rewrite Hline, (h1_not_h3 _ H), (h1_not_h2 _ H), H.
Qed.

Lemma body_not_heading st :
  isHeading (trim line) = false ->
  body lines i st =
    match js_match listRe (trim line) with
    | Some listMatch =>
        match grp listMatch with
        | None => TypeError
        | Some listItem =>
            item <- inlineList listItem ;; Ok (push (LI item) (openList st))
        end
    | None =>
        match trim line with
        | _ :: _ =>
            processed <- inlinePara (trim line) ;;
            Ok (push (P processed) (closeList st))
        | [] =>
            if Nat.ltb i (length lines - 1) then Ok (push BR (closeList st))
            else Ok (closeList st)
        end
    end.
Proof.
  unfold isHeading. rewrite !orb_false_iff. intros [[H3 H2] H1].
  unfold body. rewrite Hline, H3, H2, H1. reflexivity.
Qed.

Lemma body_list st m cap :
  isHeading (trim line) = false ->
  js_match listRe (trim line) = Some m ->
  grp m = Some cap ->
  exists item, inlineList cap = Ok item
               /\ body lines i st = Ok (push (LI item) (openList st)).
Proof.
  intros Hh Hm Hg. rewrite (body_not_heading _ Hh), Hm, Hg.
  destruct (inlineList_total cap) as [item Hi]. exists item.
  rewrite Hi. split; reflexivity.
Qed.

Lemma body_para st :
  isHeading (trim line) = false ->
  js_match listRe (trim line) = None ->
  trim line <> [] ->
  exists processed, inlinePara (trim line) = Ok processed
               /\ body lines i st = Ok (push (P processed) (closeList st)).
Proof.
  intros Hh Hm Hne. rewrite (body_not_heading _ Hh), Hm.
  destruct (inlinePara_total (trim line)) as [p Hp]. exists p.
  rewrite Hp. destruct (trim line); [contradiction|]. split; reflexivity.
Qed.

Lemma body_blank st :
  trim line = [] ->
  body lines i st =
    Ok (if Nat.ltb i (length lines - 1) then push BR (closeList st)
        else closeList st).
Proof.
  intros He. rewrite body_not_heading by (rewrite He; reflexivity).
  rewrite He. simpl. now destruct (Nat.ltb i (length lines - 1)).
Qed.

(** No iteration fails. *)
Lemma body_total st : exists st', body lines i st = Ok st'.
Proof.
  destruct (startsWith (lit "### ") (trim line)) eqn:H3;
    [rewrite body_h3 by assumption; eauto|].
  destruct (startsWith (lit "## ") (trim line)) eqn:H2;
    [rewrite body_h2 by assumption; eauto|].
  destruct (startsWith (lit "# ") (trim line)) eqn:H1;
    [rewrite body_h1 by assumption; eauto|].
  assert (Hh : isHeading (trim line) = false)
    by (unfold isHeading; now rewrite H3, H2, H1).
  destruct (js_match listRe (trim line)) as [m|] eqn:Hm.
  - destruct (js_match_listRe_grp _ _ Hm) as (cap & Hg & _).
    destruct (body_list st m cap Hh Hm Hg) as (item & _ & ->). eauto.
  - destruct (trim line) as [|c t] eqn:Ht.
    + rewrite body_blank by assumption. eauto.
    + assert (Hne : trim line <> []) by (rewrite Ht; discriminate).
      rewrite <- Ht in Hh, Hm.
      destruct (body_para st Hh Hm Hne) as (p & _ & ->). eauto.
Qed.

End Body.

(** ** The loop *)

Lemma iterate_total lines n : forall i st,
  i + n <= length lines -> exists st', iterate lines n i st = Ok st'.
Proof.
  induction n as [|n IH]; intros i st Hle; simpl; [eauto|].
  destruct (nth_error lines i) as [line|] eqn:Hl.
  - destruct (body_total lines i line Hl st) as [st1 ->]. simpl.
    apply IH. lia.
  - apply nth_error_None in Hl. lia.
Qed.

(** The iterations can be cut anywhere. *)
Lemma iterate_add lines n1 : forall n2 i st,
  iterate lines (n1 + n2) i st =
  (st' <- iterate lines n1 i st ;; iterate lines n2 (i + n1) st').
Proof.
  induction n1 as [|n1 IH]; intros n2 i st; simpl.
  - now rewrite Nat.add_0_r.
  - destruct (body lines i st) as [st1| |]; simpl; try reflexivity.
    rewrite IH. now rewrite Nat.add_succ_r.
Qed.

Lemma state_after_add md k n :
  state_after md (k + n) =
  (st <- state_after md k ;; iterate (split_nl md) n k st).
Proof. unfold state_after. now rewrite iterate_add. Qed.

Lemma state_after_S md k :
  state_after md (S k) =
  (st <- state_after md k ;; body (split_nl md) k st).
Proof.
  rewrite <- Nat.add_1_r, state_after_add.
  destruct (state_after md k) as [st| |]; simpl; try reflexivity.
  now destruct (body (split_nl md) k st).
Qed.

Lemma state_after_total md k :
  k <= length (split_nl md) -> exists st, state_after md k = Ok st.
Proof. intros H. apply iterate_total. lia. Qed.

Lemma fragments_unfold md :
  fragments md =
  (st <- state_after md (length (split_nl md)) ;; Ok (result (closeList st))).
Proof. reflexivity. Qed.

Lemma extends_refl st : extends st st.
Proof. exists []. now rewrite app_nil_r. Qed.

Lemma extends_trans a b c : extends a b -> extends b c -> extends a c.
Proof.
  intros [x Hx] [y Hy]. exists (x ++ y). now rewrite Hy, Hx, app_assoc.
Qed.

Lemma extends_push x st : extends st (push x st).
Proof. now exists [x]. Qed.

Lemma extends_closeList st : extends st (closeList st).
Proof.
  unfold closeList. destruct (inList st); [now exists [UL_CLOSE]|].
  apply extends_refl.
Qed.

Lemma extends_openList st : extends st (openList st).
Proof.
  unfold openList. destruct (inList st); [apply extends_refl|].
  now exists [UL_OPEN].
Qed.

Lemma extends_push_after f x st :
  extends st (f st) -> extends st (push x (f st)).
Proof. intros H. eapply extends_trans; [exact H|apply extends_push]. Qed.

Lemma body_extends lines i st st' :
  body lines i st = Ok st' -> extends st st'.
Proof.
  unfold body. destruct (nth_error lines i) as [line|]; [|discriminate].
  repeat match goal with
  | |- (if ?b then _ else _) = _ -> _ => destruct b
  | |- Ok _ = Ok _ -> _ => intros [= <-]
  end; try (apply (extends_push_after closeList), extends_closeList).
  destruct (js_match listRe (trim line)) as [m|].
  - destruct (grp m) as [cap|]; [|discriminate].
    destruct (inlineList cap) as [item| |]; simpl; try discriminate.
    intros [= <-]. apply (extends_push_after openList), extends_openList.
  - destruct (trim line).
    + destruct (Nat.ltb i (length lines - 1)); intros [= <-].
      * apply (extends_push_after closeList), extends_closeList.
      * apply extends_closeList.
    + destruct (inlinePara (c :: s)) as [p| |]; simpl; try discriminate.
      intros [= <-]. apply (extends_push_after closeList), extends_closeList.
Qed.

Lemma iterate_extends lines n : forall i st st',
  iterate lines n i st = Ok st' -> extends st st'.
Proof.
  induction n as [|n IH]; intros i st st' H; simpl in H.
  - injection H as <-. apply extends_refl.
  - destruct (body lines i st) as [st1| |] eqn:Hb; try discriminate.
    simpl in H. eapply extends_trans; [eapply body_extends; eauto|eauto].
Qed.

(** What the first [k] lines pushed is a prefix of the returned array. *)
Lemma fragments_prefix md k st :
  k <= length (split_nl md) ->
  state_after md k = Ok st ->
  exists post, fragments md = Ok (result st ++ post).
Proof.
  intros Hk Hst. rewrite fragments_unfold.
  replace (length (split_nl md)) with (k + (length (split_nl md) - k)) by lia.
  rewrite state_after_add, Hst. simpl.
  destruct (iterate_total (split_nl md) (length (split_nl md) - k) k st)
    as [st' Hi]; [lia|].
  rewrite Hi. simpl.
  destruct (extends_trans _ _ _ (iterate_extends _ _ _ _ _ Hi)
              (extends_closeList st')) as [post ->].
  eauto.
Qed.

Lemma step_is_intro md k line f :
  nth_error (split_nl md) k = Some line ->
  (forall st, body (split_nl md) k st = Ok (f st)) ->
  step_is md k f.
Proof.
  intros Hl Hb.
  assert (Hk : k < length (split_nl md))
    by (apply nth_error_Some; rewrite Hl; discriminate).
  destruct (state_after_total md k) as [st Hst]; [lia|].
  assert (HS : state_after md (S k) = Ok (f st))
    by (rewrite state_after_S, Hst; simpl; apply Hb).
  destruct (fragments_prefix md (S k) (f st)) as [post Hp]; [lia|exact HS|].
  now exists st, post.
Qed.

(** ** Headings *)

Lemma body_heading lines i line el st :
  nth_error lines i = Some line ->
  Heading (trim line) el ->
  body lines i st = Ok (push el (closeList st)).
Proof.
  intros Hl Hh. inversion Hh as [t Ht|t Ht|t Ht]; subst el.
  - rewrite (body_h3 lines i line Hl) by (rewrite <- Ht; reflexivity).
    rewrite <- Ht. reflexivity.
  - rewrite (body_h2 lines i line Hl) by (rewrite <- Ht; reflexivity).
    rewrite <- Ht. reflexivity.
  - rewrite (body_h1 lines i line Hl) by (rewrite <- Ht; reflexivity).
    rewrite <- Ht. reflexivity.
Qed.

Lemma listItem_not_heading t : isListItem t = true -> isHeading t = false.
Proof.
  unfold isListItem. destruct (js_match listRe t) as [m|] eqn:Hm;
    [intros _|discriminate].
  apply js_match_listRe in Hm.
  destruct (listRe_run _ _ Hm) as (c & w & cap & -> & Hc & _).
  unfold isHeading. simpl.
  unfold isDashOrStar in Hc. apply orb_true_iff in Hc.
  destruct Hc as [Hc|Hc]; apply N.eqb_eq in Hc; subst c; reflexivity.
Qed.

(** After a line, a list is open exactly when the line was a list item. *)
Lemma body_inList lines i line st st' :
  nth_error lines i = Some line ->
  body lines i st = Ok st' ->
  inList st' = isListItem (trim line).
Proof.
  intros Hl. destruct (isListItem (trim line)) eqn:Hi.
  - pose proof (listItem_not_heading _ Hi) as Hh.
    unfold isListItem in Hi.
    destruct (js_match listRe (trim line)) as [m|] eqn:Hm; [|discriminate].
    destruct (js_match_listRe_grp _ _ Hm) as (cap & Hg & _).
    destruct (body_list lines i line Hl st m cap Hh Hm Hg) as (item & _ & ->).
    intros [= <-]. unfold openList.
    destruct (inList st) eqn:E; [exact E|reflexivity].
  - assert (Hc : inList (closeList st) = false)
      by (unfold closeList; destruct (inList st) eqn:E; [reflexivity|exact E]).
    destruct (isHeading (trim line)) eqn:Hh.
    + unfold isHeading in Hh. rewrite !orb_true_iff in Hh.
      destruct Hh as [[Hh|Hh]|Hh];
        [rewrite (body_h3 lines i line Hl st Hh)
        |rewrite (body_h2 lines i line Hl st Hh)
        |rewrite (body_h1 lines i line Hl st Hh)];
        intros [= <-]; exact Hc.
    + unfold isListItem in Hi.
      destruct (js_match listRe (trim line)) as [m|] eqn:Hm; [discriminate|].
      destruct (trim line) as [|c t] eqn:Ht.
      * rewrite (body_blank lines i line Hl st Ht).
        intros [= <-]. now destruct (Nat.ltb i (length lines - 1)).
      * rewrite <- Ht in Hh, Hm.
        destruct (body_para lines i line Hl st Hh Hm) as (p & _ & ->);
          [rewrite Ht; discriminate|].
        intros [= <-]. exact Hc.
Qed.

(** ** The claims on single lines *)

(** C2. [markdownToHtml] returns a string on every input: no iteration
    reads past the array of lines, [listMatch[1]] is never undefined, and
    every scan of [replace] ends.  (That the result depends on the input
    alone is what being a function of the model says.) *)
Theorem markdownToHtml_total (markdown : str) :
  exists html, markdownToHtml markdown = Ok html.
Proof.
  unfold markdownToHtml.
  destruct (state_after_total markdown 0) as [st0 H0]; [lia|].
  destruct (fragments_prefix markdown 0 st0) as [post ->]; [lia|exact H0|].
  simpl. eauto.
Qed.

(** C10. The empty document is one empty line, the last one, and renders
    as the empty string: nothing is pushed. *)
Theorem markdownToHtml_empty :
  split_nl [] = [[]] /\ fragments [] = Ok [] /\ markdownToHtml [] = Ok [].
Proof. repeat split. Qed.

(** ** Blank lines *)

(** C3, as stated, fails: a blank line of a trailing run that is not the
    last line of the document does push its [<br>].  In ["line1\n\n"] the
    second of the three lines is such a line. *)
Lemma trailing_blank_counterexample :
  ~ (forall md k, trailing_blank md k -> emits_nothing md k).
Proof.
  intros H.
  destruct (H (lit "line1" ++ NL ++ NL) 1) as (st & st' & H1 & H2 & Hr).
  - split; [vm_compute; lia|].
    intros j line Hj.
    change (split_nl (lit "line1" ++ NL ++ NL)) with [lit "line1"; []; []].
    destruct j as [|[|[|j]]]; simpl; try lia.
    + now intros [= <-].
    + now intros [= <-].
    + destruct j; discriminate.
  - vm_compute in H1, H2. injection H1 as <-. injection H2 as <-.
    discriminate Hr.
Qed.

(** C3, amended. A line that trims to the empty string pushes one [<br>]
    when it is not the last line and no [<br>] when it is, in both cases
    after the [</ul>] of a list still open; so only the last line of a
    trailing run of blank lines is silent. *)
Theorem blank_line_break (md : str) (k : nat) (line : str)
    (Hline : nth_error (split_nl md) k = Some line)
    (Hblank : trim line = []) :
  step_is md k
    (fun st => if Nat.ltb k (length (split_nl md) - 1)
               then push BR (closeList st) else closeList st)
  /\ fragments (lit "line1" ++ NL ++ NL ++ lit "line2")
     = Ok [P (lit "line1"); BR; P (lit "line2")]
  /\ state_after (lit "line1" ++ NL ++ NL) 2
     = Ok {| result := [P (lit "line1"); BR]; inList := false |}
  /\ state_after (lit "line1" ++ NL ++ NL) 3
     = Ok {| result := [P (lit "line1"); BR]; inList := false |}
  /\ markdownToHtml (lit "line1" ++ NL ++ NL) = Ok (P (lit "line1") ++ BR)
  /\ markdownToHtml (lit "line1" ++ NL ++ NL ++ NL)
     = Ok (P (lit "line1") ++ BR ++ BR).
Proof.
  split; [|repeat split].
  apply (step_is_intro md k line); [exact Hline|].
  intros st. rewrite (body_blank _ k line Hline st Hblank).
  now destruct (Nat.ltb k (length (split_nl md) - 1)).
Qed.

Lemma blank_line_break_witness :
  step_is (lit "- a" ++ NL ++ lit "  " ++ NL ++ lit "b") 1
    (fun st => if Nat.ltb 1
                    (length (split_nl (lit "- a" ++ NL ++ lit "  " ++ NL
                                       ++ lit "b")) - 1)
               then push BR (closeList st) else closeList st).
Proof.
  apply (blank_line_break (lit "- a" ++ NL ++ lit "  " ++ NL ++ lit "b") 1
           (lit "  ")); reflexivity.
Defined.

(** ** The bold and italic patterns *)

Module Spans.

Lemma firstn_app_exact (x y : str) :
  firstn (length (x ++ y) - length y) (x ++ y) = x.
Proof.
  rewrite length_app, Nat.add_sub, firstn_app, Nat.sub_diag, firstn_all.
  simpl. apply app_nil_r.
Qed.

Lemma run_star k st m :
  run (Chr isStar :: k) st = Some m ->
  exists s', rest st = 42%N :: s' /\ run k (eat st s') = Some m.
Proof.
  simpl. destruct (rest st) as [|c s']; [discriminate|].
  destruct (isStar c) eqn:Hc; [|discriminate].
  apply N.eqb_eq in Hc. subst c. eauto.
Qed.

Lemma run_lazy_group p k st m :
  run (GroupOpen :: PlusLazy p :: GroupClose :: k) st = Some m ->
  exists body s',
    body <> [] /\ forallb p body = true /\ rest st = body ++ s'
    /\ run k {| idx := length body + idx st; rest := s';
                mark := Some (rest st); grp := Some body |} = Some m.
Proof.
  simpl. intros H. apply plusLazy_some in H.
  destruct H as (body & s' & Hne & Hp & Hs & H). simpl in H.
  exists body, s'. rewrite Hs in H. rewrite firstn_app_exact in H.
  rewrite Hs. auto.
Qed.

Lemma boldRe_span : span_re [42%N; 42%N] isDot boldRe.
Proof.
  intros st m H. unfold boldRe in H.
  apply run_star in H as (s1 & H1 & H).
  apply run_star in H as (s2 & H2 & H).
  apply run_lazy_group in H as (body & s3 & Hne & Hp & H3 & H).
  apply run_star in H as (s4 & H4 & H).
  apply run_star in H as (s5 & H5 & H).
  injection H as <-. simpl in *. subst. exists body.
  repeat split; try assumption. lia.
Qed.

Lemma italicListRe_span : span_re [42%N] isDot italicListRe.
Proof.
  intros st m H. unfold italicListRe in H.
  apply run_star in H as (s1 & H1 & H).
  apply run_lazy_group in H as (body & s3 & Hne & Hp & H3 & H).
  apply run_star in H as (s4 & H4 & H).
  injection H as <-. simpl in *. subst. exists body.
  repeat split; try assumption. lia.
Qed.

Lemma italicParaRe_span : span_re [42%N] notStar italicParaRe.
Proof.
  intros st m H. unfold italicParaRe in H.
  apply run_star in H as (s1 & H1 & H).
  apply run_lazy_group in H as (body & s3 & Hne & Hp & H3 & H).
  apply run_star in H as (s4 & H4 & H).
  injection H as <-. simpl in *. subst. exists body.
  repeat split; try assumption. lia.
Qed.

(** Soundness of the scan: it only ever rewrites spans. *)
Lemma replace_from_Subst d p re tpl :
  span_re d p re ->
  forall fuel i s out,
    replace_from fuel re tpl i s = Ok out -> Subst d p tpl s out.
Proof.
  intros Hre. induction fuel as [|fuel IH]; intros i s out H;
    simpl in H; [discriminate|].
  destruct (search re i s) as [[j m]|] eqn:Hs;
    [|injection H as <-; apply Subst_rest].
  destruct (search_some _ _ _ _ _ Hs) as (pre & s' & -> & -> & Hm).
  destruct (Hre _ _ Hm) as (body & Hne & Hp & Hr & Hg & Hi).
  simpl in Hr, Hi. apply Nat.eqb_neq in Hi. rewrite Hi, Hg in H.
  rewrite Nat.add_sub, firstn_app, Nat.sub_diag, firstn_all in H.
  simpl in H. rewrite app_nil_r in H.
  destruct (replace_from fuel re tpl (idx m) (rest m)) as [t| |] eqn:Ht;
    try discriminate.
  simpl in H. injection H as <-. subst s'.
  apply Subst_span; try assumption.
  eapply IH. exact Ht.
Qed.

Lemma js_replace_Subst d p re tpl s out :
  span_re d p re -> js_replace re tpl s = Ok out -> Subst d p tpl s out.
Proof. intros Hre H. eapply replace_from_Subst; eauto. Qed.

(** Text without a star is left as it is. *)
Lemma search_no_star d p re :
  span_re (42%N :: d) p re ->
  forall s i, forallb notStar s = true -> search re i s = None.
Proof.
  intros Hre. induction s as [|c s IH]; intros i Hs; simpl.
  - destruct (run re (start i [])) as [m|] eqn:Hm; [|reflexivity].
    destruct (Hre _ _ Hm) as (body & _ & _ & Hr & _). discriminate.
  - simpl in Hs. apply andb_true_iff in Hs as [Hc Hs].
    destruct (run re (start i (c :: s))) as [m|] eqn:Hm; [|now apply IH].
    destruct (Hre _ _ Hm) as (body & _ & _ & Hr & _). simpl in Hr.
    injection Hr as -> _. discriminate.
Qed.

Lemma js_replace_no_star d p re tpl s :
  span_re (42%N :: d) p re ->
  forallb notStar s = true -> js_replace re tpl s = Ok s.
Proof.
  intros Hre Hs. unfold js_replace. simpl.
  now rewrite (search_no_star d p re Hre).
Qed.

End Spans.

Import Spans.

Lemma inlineList_no_star s : forallb notStar s = true -> inlineList s = Ok s.
Proof.
  intros Hs. unfold inlineList.
  rewrite (js_replace_no_star _ _ _ _ _ boldRe_span Hs). simpl.
  apply (js_replace_no_star _ _ _ _ _ italicListRe_span Hs).
Qed.

Lemma inlinePara_no_star s : forallb notStar s = true -> inlinePara s = Ok s.
Proof.
  intros Hs. unfold inlinePara.
  rewrite (js_replace_no_star _ _ _ _ _ boldRe_span Hs). simpl.
  apply (js_replace_no_star _ _ _ _ _ italicParaRe_span Hs).
Qed.

(** ** Runs of list items *)

Lemma body_listLine lines i line st :
  nth_error lines i = Some line ->
  listLine line ->
  exists item, ItemOf line item
               /\ body lines i st = Ok (push (LI item) (openList st)).
Proof.
  intros Hl Hi. pose proof (listItem_not_heading _ Hi) as Hh.
  unfold listLine, isListItem in Hi.
  destruct (js_match listRe (trim line)) as [m|] eqn:Hm; [|discriminate].
  destruct (js_match_listRe_grp _ _ Hm) as (cap & Hg & _).
  destruct (body_list lines i line Hl st m cap Hh Hm Hg) as (item & Hit & Hb).
  exists item. split; [|exact Hb].
  exists m, cap. repeat split; try assumption.
  intros Hs. rewrite (inlineList_no_star _ Hs) in Hit. now injection Hit.
Qed.

(** With a list open, a run of list lines pushes its items and nothing
    else. *)
Lemma iterate_items lines seg : forall pre suf st,
  lines = pre ++ seg ++ suf ->
  Forall listLine seg ->
  inList st = true ->
  exists items,
    Forall2 ItemOf seg items
    /\ iterate lines (length seg) (length pre) st
       = Ok {| result := result st ++ map LI items; inList := true |}.
Proof.
  induction seg as [|l seg IH]; intros pre suf st Hlines Hall Hin.
  - exists []. split; [constructor|]. simpl. rewrite app_nil_r.
    destruct st; simpl in *. now subst.
  - inversion Hall as [|? ? Hl Hall']; subst.
    assert (Hn : nth_error (pre ++ (l :: seg) ++ suf) (length pre) = Some l)
      by (rewrite nth_error_app2, Nat.sub_diag by lia; reflexivity).
    destruct (body_listLine _ _ _ st Hn Hl) as (item & Hit & Hb).
    destruct (IH (pre ++ [l]) suf (push (LI item) (openList st)))
      as (items & Hits & Hi).
    + rewrite <- app_assoc. reflexivity.
    + exact Hall'.
    + unfold openList. rewrite Hin. exact Hin.
    + exists (item :: items). split; [now constructor|].
      cbn [length iterate]. rewrite Hb. cbn [bind].
      rewrite length_app, Nat.add_1_r in Hi. rewrite Hi.
      unfold openList. rewrite Hin. simpl. now rewrite <- app_assoc.
Qed.

(** The same from any state: the [<ul>] comes first when no list is
    open. *)
Lemma iterate_list_run lines pre l seg suf st :
  lines = pre ++ (l :: seg) ++ suf ->
  Forall listLine (l :: seg) ->
  exists items,
    Forall2 ItemOf (l :: seg) items
    /\ iterate lines (length (l :: seg)) (length pre) st
       = Ok {| result := result st
                         ++ (if inList st then [] else [UL_OPEN])
                         ++ map LI items;
               inList := true |}.
Proof.
  intros Hlines Hall. inversion Hall as [|? ? Hl Hall']; subst.
  assert (Hn : nth_error (pre ++ (l :: seg) ++ suf) (length pre) = Some l)
    by (rewrite nth_error_app2, Nat.sub_diag by lia; reflexivity).
  destruct (body_listLine _ _ _ st Hn Hl) as (item & Hit & Hb).
  destruct (iterate_items (pre ++ (l :: seg) ++ suf) seg (pre ++ [l]) suf
              (push (LI item) (openList st))) as (items & Hits & Hi).
  - rewrite <- app_assoc. reflexivity.
  - exact Hall'.
  - unfold openList. now destruct (inList st) eqn:E.
  - exists (item :: items). split; [now constructor|].
    cbn [length iterate]. rewrite Hb. cbn [bind].
    rewrite length_app, Nat.add_1_r in Hi. rewrite Hi.
    unfold openList. destruct (inList st); simpl;
      now rewrite <- !app_assoc.
Qed.

Lemma state_after_inList md pre suf st :
  split_nl md = pre ++ suf ->
  state_after md (length pre) = Ok st ->
  inList st = open_after pre.
Proof.
  intros Hs. unfold open_after.
  destruct pre as [|a pre'] using rev_ind.
  - simpl. now intros [= <-].
  - clear IHpre'. rewrite rev_app_distr. simpl.
    rewrite length_app, Nat.add_1_r, state_after_S.
    destruct (state_after md (length pre')) as [st0| |]; try discriminate.
    simpl. apply body_inList. rewrite Hs, <- app_assoc.
    rewrite nth_error_app2, Nat.sub_diag by lia. reflexivity.
Qed.

(** ** The moves of the machine *)

(** The three things an iteration can do to the state. *)
Lemma body_cases lines i line st st' :
  nth_error lines i = Some line ->
  body lines i st = Ok st' ->
  (exists x, BlockOf line x /\ st' = push x (closeList st))
  \/ (trim line = [] /\ st' = closeList st)
  \/ (exists item, ItemOf line item /\ st' = push (LI item) (openList st)).
Proof.
  intros Hl. destruct (isListItem (trim line)) eqn:Hi.
  - destruct (body_listLine lines i line st Hl Hi) as (item & Hit & ->).
    intros [= <-]. right; right. eauto.
  - destruct (isHeading (trim line)) eqn:Hh.
    + unfold isHeading in Hh. rewrite !orb_true_iff in Hh.
      destruct Hh as [[Hh|Hh]|Hh]; pose proof Hh as Hs;
        apply startsWith_spec in Hs as [t Ht];
        [rewrite (body_h3 lines i line Hl st Hh)
        |rewrite (body_h2 lines i line Hl st Hh)
        |rewrite (body_h1 lines i line Hl st Hh)];
        intros [= <-]; left; eexists; (split; [left|reflexivity]);
        rewrite Ht;
        [exact (Heading3 t)|exact (Heading2 t)|exact (Heading1 t)].
    + unfold isListItem in Hi.
      destruct (js_match listRe (trim line)) as [m|] eqn:Hm; [discriminate|].
      destruct (trim line) as [|c t] eqn:Ht.
      * rewrite (body_blank lines i line Hl st Ht).
        destruct (Nat.ltb i (length lines - 1)); intros [= <-].
        -- left. exists BR. split; [|reflexivity]. right; right.
           now split.
        -- right; left. now split.
      * rewrite <- Ht in Hh, Hm.
        destruct (body_para lines i line Hl st Hh Hm) as (p & Hp & ->);
          [rewrite Ht; discriminate|].
        intros [= <-]. left. exists (P p). split; [|reflexivity].
        right; left. exists p. now split.
Qed.

Lemma LI_notListTag item : notListTag (LI item).
Proof. split; cbv; discriminate. Qed.

Lemma BlockOf_notListTag line x : BlockOf line x -> notListTag x.
Proof.
  intros [H|[(p & _ & ->)|[_ ->]]]; [destruct H|..]; split; cbv; discriminate.
Qed.

Lemma body_Run lines i st st' :
  body lines i st = Ok st' ->
  Run (result st) (inList st) -> Run (result st') (inList st').
Proof.
  intros Hb Hr.
  destruct (nth_error lines i) as [line|] eqn:Hl;
    [|unfold body in Hb; rewrite Hl in Hb; discriminate].
  destruct (body_cases _ _ _ _ _ Hl Hb)
    as [(x & Hx & ->)|[[_ ->]|(item & Hit & ->)]].
  - pose proof (Run_block _ _ x Hr (BlockOf_notListTag _ _ Hx)) as R.
    unfold push, closeList. destruct (inList st) eqn:E;
      cbn in R |- *; rewrite ?E; exact R.
  - pose proof (Run_close _ _ Hr) as R.
    unfold closeList. destruct (inList st) eqn:E;
      cbn in R |- *; rewrite ?E; exact R.
  - pose proof (Run_item _ _ item Hr) as R.
    unfold push, openList. destruct (inList st) eqn:E;
      cbn in R |- *; rewrite ?E; exact R.
Qed.

Lemma iterate_Run lines n : forall i st st',
  iterate lines n i st = Ok st' ->
  Run (result st) (inList st) -> Run (result st') (inList st').
Proof.
  induction n as [|n IH]; intros i st st' H Hr; simpl in H.
  - now injection H as <-.
  - destruct (body lines i st) as [st1| |] eqn:Hb; try discriminate.
    simpl in H. eapply IH; [exact H|]. eapply body_Run; eauto.
Qed.

(** The returned array is a run that ends with no list open. *)
Lemma fragments_Run md frs : fragments md = Ok frs -> Run frs false.
Proof.
  rewrite fragments_unfold.
  destruct (state_after md (length (split_nl md))) as [st| |] eqn:Hst;
    try discriminate.
  simpl. intros [= <-].
  pose proof (iterate_Run _ _ _ _ _ Hst Run_init) as R.
  pose proof (Run_close _ _ R) as R'.
  unfold closeList. destruct (inList st) eqn:E;
    cbn in R' |- *; rewrite ?E; exact R'.
Qed.

(** ** Counting list tags in the array *)

Lemma count_snoc x y frs :
  count x (frs ++ [y]) = count x frs + (if str_eq_dec y x then 1 else 0).
Proof.
  unfold count. rewrite count_occ_app. simpl.
  now destruct (str_eq_dec y x).
Qed.

Lemma count_snoc_other x y frs : y <> x -> count x (frs ++ [y]) = count x frs.
Proof.
  intros H. rewrite count_snoc. destruct (str_eq_dec y x); [contradiction|lia].
Qed.

Lemma count_snoc_same x frs : count x (frs ++ [x]) = S (count x frs).
Proof.
  rewrite count_snoc. destruct (str_eq_dec x x); [lia|contradiction].
Qed.

Lemma UL_OPEN_CLOSE : UL_OPEN <> UL_CLOSE.
Proof. cbv. discriminate. Qed.

(** Each open list is one [<ul>] not yet matched by a [</ul>]. *)
Lemma Run_balance r b :
  Run r b ->
  count UL_OPEN r = count UL_CLOSE r + (if b then 1 else 0).
Proof.
  pose proof UL_OPEN_CLOSE as Hoc.
  induction 1 as [|r b x _ IH [Hx1 Hx2]|r b _ IH|r b item _ IH].
  - reflexivity.
  - rewrite !count_snoc_other by assumption. destruct b.
    + rewrite count_snoc_same, count_snoc_other by congruence. lia.
    + lia.
  - destruct b.
    + rewrite count_snoc_same, count_snoc_other by congruence. lia.
    + lia.
  - destruct (LI_notListTag item) as [Hi1 Hi2].
    rewrite !count_snoc_other by assumption. destruct b.
    + lia.
    + rewrite count_snoc_same, count_snoc_other by congruence. lia.
Qed.

(** ** No empty list *)

Lemma ul_then_li_app a b : ul_then_li a -> ul_then_li b -> ul_then_li (a ++ b).
Proof.
  intros Ha Hb pre post H.
  apply app_eq_app in H as [l [[-> H]|[-> H]]].
  - destruct l as [|x l].
    + apply (Hb [] post). symmetry. exact H.
    + injection H as Hx Hp. subst x post.
      destruct (Ha pre l eq_refl) as (item & post' & ->).
      exists item, (post' ++ b). reflexivity.
  - destruct (Hb l post H) as (item & post' & ->). eauto.
Qed.

Lemma ul_then_li_nil : ul_then_li [].
Proof. intros [|? ?] post H; discriminate. Qed.

Lemma ul_then_li_one x : x <> UL_OPEN -> ul_then_li [x].
Proof.
  intros Hx [|y pre] post H.
  - injection H as -> _. contradiction.
  - injection H as _ H. destruct pre; discriminate.
Qed.

Lemma ul_then_li_open item : ul_then_li [UL_OPEN; LI item].
Proof.
  intros [|y [|z pre]] post H.
  - injection H as <-. eauto.
  - injection H as _ H _. symmetry in H.
    now destruct (LI_notListTag item).
  - injection H as _ _ H. destruct pre; discriminate.
Qed.

Lemma Run_ul_then_li r b : Run r b -> ul_then_li r.
Proof.
  pose proof UL_OPEN_CLOSE as Hoc.
  induction 1 as [|r b x _ IH [Hx1 Hx2]|r b _ IH|r b item _ IH].
  - apply ul_then_li_nil.
  - apply ul_then_li_app; [|now apply ul_then_li_one].
    destruct b; [|exact IH].
    apply ul_then_li_app; [exact IH|apply ul_then_li_one; congruence].
  - destruct b; [|exact IH].
    apply ul_then_li_app; [exact IH|apply ul_then_li_one; congruence].
  - destruct b.
    + apply ul_then_li_app; [exact IH|].
      apply ul_then_li_one, LI_notListTag.
    + rewrite <- app_assoc. apply ul_then_li_app; [exact IH|].
      apply ul_then_li_open.
Qed.

Lemma fragments_total md : exists frs, fragments md = Ok frs.
Proof.
  destruct (state_after_total md 0) as [st0 H0]; [lia|].
  destruct (fragments_prefix md 0 st0) as [post Hp]; [lia|exact H0|]. eauto.
Qed.

(** ** Counting the list patterns in the output *)

Lemma join_snoc r x : join (r ++ [x]) = join r ++ x.
Proof. unfold join. rewrite concat_app. simpl. now rewrite app_nil_r. Qed.

Module Occ.

Lemma startsWith_cut pt c b :
  ~ In c pt -> forall a, startsWith pt (a ++ c :: b) = startsWith pt a.
Proof.
  induction pt as [|p pt IH]; intros Hn a; [reflexivity|].
  destruct a as [|a1 a]; simpl.
  - destruct (N.eqb_spec p c) as [->|_]; [|reflexivity].
    exfalso. apply Hn. now left.
  - rewrite IH; [reflexivity|]. intros Hin. apply Hn. now right.
Qed.

Lemma occurrences_cut p pt c b :
  ~ In c pt ->
  forall a, occurrences (p :: pt) (a ++ c :: b)
            = occurrences (p :: pt) a + occurrences (p :: pt) (c :: b).
Proof.
  intros Hn a. set (X := occurrences (p :: pt) (c :: b)).
  induction a as [|a1 a IH]; [reflexivity|].
  cbn [app occurrences startsWith]. rewrite IH, (startsWith_cut pt c b Hn).
  lia.
Qed.

Lemma ulPat_tail o : exists pt,
  ulPat o = 60%N :: pt /\ forall c, foreign c -> ~ In c pt.
Proof.
  destruct o; eexists; (split; [reflexivity|]);
    intros c (H1 & H2 & H3 & H4) Hin; simpl in Hin; intuition congruence.
Qed.

Lemma occ_skip o c s :
  c <> 60%N -> occurrences (ulPat o) (c :: s) = occurrences (ulPat o) s.
Proof.
  intros Hc. destruct (ulPat_tail o) as (pt & -> & _).
  cbn [occurrences startsWith].
  destruct (N.eqb_spec 60 c); [congruence|reflexivity].
Qed.

Lemma occ_cut o c a b :
  foreign c ->
  occurrences (ulPat o) (a ++ c :: b)
  = occurrences (ulPat o) a + occurrences (ulPat o) (c :: b).
Proof.
  intros Hc. destruct (ulPat_tail o) as (pt & -> & Hpt).
  apply occurrences_cut, Hpt, Hc.
Qed.

Lemma foreign_lt : foreign 60%N.
Proof. repeat split; discriminate. Qed.

Lemma foreign_star : foreign 42%N.
Proof. repeat split; discriminate. Qed.

Lemma foreign_nl : foreign 10%N.
Proof. repeat split; discriminate. Qed.

Lemma white_foreign c : isWhiteSpace c = true -> foreign c /\ c <> 60%N.
Proof.
  intros H. repeat split; intros ->; discriminate.
Qed.

(** Cutting at a star, a newline or a white space character loses no
    occurrence and makes none. *)
Lemma occ_cut_skip o c a b :
  foreign c -> c <> 60%N ->
  occurrences (ulPat o) (a ++ c :: b)
  = occurrences (ulPat o) a + occurrences (ulPat o) b.
Proof. intros Hf Hc. now rewrite occ_cut, occ_skip. Qed.

(** So does joining with something that starts with [<]. *)
Lemma occ_app_lt o a x :
  (x = [] \/ exists x', x = 60%N :: x') ->
  occurrences (ulPat o) (a ++ x)
  = occurrences (ulPat o) a + occurrences (ulPat o) x.
Proof.
  intros [->|[x' ->]].
  - rewrite app_nil_r. destruct (ulPat_tail o) as (pt & -> & _). simpl. lia.
  - apply occ_cut, foreign_lt.
Qed.

Lemma plain_tag_occ o t s :
  In t plain_tags ->
  occurrences (ulPat o) (t ++ s) = occurrences (ulPat o) s.
Proof.
  intros H. simpl in H.
  destruct o; repeat (destruct H as [<-|H]; [reflexivity|]); contradiction.
Qed.

Lemma plain_tag_lt t : In t plain_tags -> exists t', t = 60%N :: t'.
Proof.
  intros H. simpl in H.
  repeat (destruct H as [<-|H]; [eexists; reflexivity|]); contradiction.
Qed.

Lemma ulTag_occ o o' s :
  occurrences (ulPat o) (ulTag o' ++ s)
  = (if Bool.eqb o o' then 1 else 0) + occurrences (ulPat o) s.
Proof. destruct o, o'; reflexivity. Qed.

Lemma occ_nil o : occurrences (ulPat o) [] = 0.
Proof. destruct o; reflexivity. Qed.

(** An element has the occurrences of its content. *)
Lemma occ_wrap o topen tclose t :
  In topen plain_tags -> In tclose plain_tags ->
  occurrences (ulPat o) (topen ++ t ++ tclose) = occurrences (ulPat o) t.
Proof.
  intros Ho Hc. rewrite (plain_tag_occ o topen _ Ho).
  rewrite occ_app_lt by (right; now apply plain_tag_lt).
  rewrite <- (app_nil_r tclose), (plain_tag_occ o tclose _ Hc), occ_nil. lia.
Qed.

Lemma occ_stars o d s :
  forallb isStar d = true ->
  occurrences (ulPat o) (d ++ s) = occurrences (ulPat o) s.
Proof.
  induction d as [|c d IH]; intros H; [reflexivity|].
  simpl in H. apply andb_true_iff in H as [Hc Hd].
  apply N.eqb_eq in Hc. subst c. simpl app.
  rewrite occ_skip by discriminate. now apply IH.
Qed.

Lemma occ_white o w s :
  Forall (fun c => isWhiteSpace c = true) w ->
  occurrences (ulPat o) (w ++ s) = occurrences (ulPat o) s.
Proof.
  induction 1 as [|c w Hc _ IH]; [reflexivity|].
  simpl app. rewrite occ_skip; [exact IH|]. now apply white_foreign.
Qed.

Lemma occ_white_end o w : forall s,
  Forall (fun c => isWhiteSpace c = true) w ->
  occurrences (ulPat o) (s ++ w) = occurrences (ulPat o) s.
Proof.
  intros s H. destruct w as [|c w].
  - now rewrite app_nil_r.
  - inversion H as [|? ? Hc Hw]; subst.
    destruct (white_foreign c Hc) as [Hf Hn].
    rewrite (occ_cut_skip o c s w Hf Hn).
    rewrite <- (app_nil_r w), (occ_white o w [] Hw), occ_nil. lia.
Qed.

(** Rewriting spans into elements keeps the occurrences. *)
Lemma Subst_occ o d p topen tclose s out :
  d <> [] -> forallb isStar d = true ->
  In topen plain_tags -> In tclose plain_tags ->
  Subst d p (fun g => topen ++ g ++ tclose) s out ->
  occurrences (ulPat o) out = occurrences (ulPat o) s.
Proof.
  intros Hne Hd Ho Hc.
  induction 1 as [s|pre body s out' _ _ _ IH]; [reflexivity|].
  destruct d as [|c d']; [contradiction|].
  pose proof Hd as Hd'. simpl in Hd'.
  apply andb_true_iff in Hd' as [Hc' Hd']. apply N.eqb_eq in Hc'. subst c.
  cbv beta. rewrite <- !app_assoc.
  destruct (plain_tag_lt _ Ho) as [to' Eo].
  destruct (plain_tag_lt _ Hc) as [tc' Ec].
  rewrite occ_app_lt by (right; rewrite Eo; eexists; reflexivity).
  rewrite (plain_tag_occ o topen _ Ho).
  rewrite occ_app_lt by (right; rewrite Ec; eexists; reflexivity).
  rewrite (plain_tag_occ o tclose _ Hc), IH.
  simpl app.
  rewrite (occ_cut_skip o 42%N pre _ foreign_star) by discriminate.
  rewrite (occ_stars o d' _ Hd').
  rewrite (occ_cut_skip o 42%N body _ foreign_star) by discriminate.
  rewrite (occ_stars o d' _ Hd'). lia.
Qed.

End Occ.

Import Occ.

Lemma trimStart_split s : exists w, s = w ++ trimStart s /\ allWhite w.
Proof.
  induction s as [|c s (w & E & Hw)]; simpl.
  - exists []. split; [reflexivity|constructor].
  - destruct (isWhiteSpace c) eqn:Hc.
    + exists (c :: w). split; [simpl; now rewrite <- E|now constructor].
    + exists []. split; [reflexivity|constructor].
Qed.

Lemma trimEnd_split s : exists w, s = trimEnd s ++ w /\ allWhite w.
Proof.
  unfold trimEnd. destruct (trimStart_split (rev s)) as (w & E & Hw).
  exists (rev w). split; [|now apply Forall_rev].
  rewrite <- rev_app_distr, <- E. symmetry. apply rev_involutive.
Qed.

(** Trimming a line takes no occurrence away. *)
Lemma occ_trim o s : occurrences (ulPat o) (trim s) = occurrences (ulPat o) s.
Proof.
  unfold trim.
  destruct (trimStart_split s) as (w1 & E1 & H1).
  destruct (trimEnd_split (trimStart s)) as (w2 & E2 & H2).
  rewrite E1 at 2. rewrite (occ_white o w1 _ H1).
  rewrite E2 at 2. now rewrite (occ_white_end o w2 _ H2).
Qed.

Lemma inlinePara_occ o s out :
  inlinePara s = Ok out -> occurrences (ulPat o) out = occurrences (ulPat o) s.
Proof.
  unfold inlinePara.
  destruct (js_replace boldRe strongTpl s) as [b| |] eqn:Hb; try discriminate.
  simpl. intros Hi.
  apply (js_replace_Subst _ _ _ _ _ _ boldRe_span) in Hb.
  apply (js_replace_Subst _ _ _ _ _ _ italicParaRe_span) in Hi.
  rewrite (Subst_occ o [42%N] notStar (lit "<em>") (lit "</em>") b out);
    [|discriminate|reflexivity|simpl; tauto|simpl; tauto|exact Hi].
  apply (Subst_occ o [42%N; 42%N] isDot (lit "<strong>") (lit "</strong>"));
    [discriminate|reflexivity|simpl; tauto|simpl; tauto|exact Hb].
Qed.

Lemma inlineList_occ o s out :
  inlineList s = Ok out -> occurrences (ulPat o) out = occurrences (ulPat o) s.
Proof.
  unfold inlineList.
  destruct (js_replace boldRe strongTpl s) as [b| |] eqn:Hb; try discriminate.
  simpl. intros Hi.
  apply (js_replace_Subst _ _ _ _ _ _ boldRe_span) in Hb.
  apply (js_replace_Subst _ _ _ _ _ _ italicListRe_span) in Hi.
  rewrite (Subst_occ o [42%N] isDot (lit "<em>") (lit "</em>") b out);
    [|discriminate|reflexivity|simpl; tauto|simpl; tauto|exact Hi].
  apply (Subst_occ o [42%N; 42%N] isDot (lit "<strong>") (lit "</strong>"));
    [discriminate|reflexivity|simpl; tauto|simpl; tauto|exact Hb].
Qed.

(** A block has the occurrences of its line, and starts with [<]. *)
Lemma BlockOf_occ o line x :
  BlockOf line x ->
  occurrences (ulPat o) x = occurrences (ulPat o) line
  /\ exists x', x = 60%N :: x'.
Proof.
  rewrite <- (occ_trim o line).
  intros [H|[(p & Hp & ->)|[Hb ->]]].
  - destruct H as [t|t|t]; (split; [|eexists; reflexivity]).
    + unfold H3. rewrite occ_wrap by (simpl; tauto).
      simpl app. now rewrite !occ_skip by discriminate.
    + unfold H2. rewrite occ_wrap by (simpl; tauto).
      simpl app. now rewrite !occ_skip by discriminate.
    + unfold H1. rewrite occ_wrap by (simpl; tauto).
      simpl app. now rewrite !occ_skip by discriminate.
  - split; [|eexists; reflexivity].
    unfold P. rewrite occ_wrap by (simpl; tauto).
    now apply inlinePara_occ.
  - split; [|eexists; reflexivity]. rewrite Hb. now destruct o.
Qed.

(** So has a list item. *)
Lemma ItemOf_occ o line item :
  ItemOf line item ->
  occurrences (ulPat o) (LI item) = occurrences (ulPat o) line.
Proof.
  intros (m & cap & Hm & Hg & Hi & _). rewrite <- (occ_trim o line).
  apply js_match_listRe in Hm.
  destruct (listRe_run _ _ Hm)
    as (c & w & cap' & -> & Hc & _ & Hw & _ & _ & Hg' & _).
  rewrite Hg in Hg'. injection Hg' as <-.
  unfold LI. rewrite occ_wrap by (simpl; tauto).
  rewrite (inlineList_occ o _ _ Hi).
  rewrite occ_skip.
  - symmetry. apply occ_white. apply Forall_forall. intros a Ha.
    rewrite forallb_forall in Hw. now apply Hw.
  - unfold isDashOrStar in Hc. apply orb_true_iff in Hc.
    destruct Hc as [Hc|Hc]; apply N.eqb_eq in Hc; subst c; discriminate.
Qed.

Lemma split_nl_first s l ls :
  split_nl s = l :: ls ->
  (s = l /\ ls = []) \/ exists r, s = l ++ 10%N :: r.
Proof.
  revert l ls. induction s as [|c s IH]; intros l ls H; simpl in H.
  - injection H as <- <-. now left.
  - destruct (N.eqb_spec c 10) as [->|Hc].
    + injection H as <- _. right. now exists s.
    + destruct (split_nl s) as [|l' ls'] eqn:E.
      * destruct (split_nl_nonempty s E).
      * injection H as <- <-.
        destruct (IH l' ls' eq_refl) as [[-> ->]|[r ->]]; [now left|].
        right. now exists r.
Qed.

(** The occurrences of a document are those of its lines. *)
Lemma occ_split_nl o md :
  occurrences (ulPat o) md = sum_occ (ulPat o) (split_nl md).
Proof.
  induction md as [|c s IH]; simpl split_nl.
  - cbn [sum_occ]. rewrite occ_nil. reflexivity.
  - destruct (N.eqb_spec c 10) as [->|Hc].
    + cbn [sum_occ]. rewrite occ_nil, occ_skip by discriminate. exact IH.
    + destruct (split_nl s) as [|l ls] eqn:E.
      * destruct (split_nl_nonempty s E).
      * cbn [sum_occ] in IH |- *.
        destruct (split_nl_first s l ls E) as [[-> ->]|[r ->]].
        -- cbn [sum_occ]. unfold str, char in *. lia.
        -- rewrite occ_cut_skip in IH by first [apply foreign_nl|discriminate].
           rewrite app_comm_cons.
           rewrite occ_cut_skip by first [apply foreign_nl|discriminate].
           unfold str, char in *. lia.
Qed.

Lemma occ_push o r x :
  (exists x', x = 60%N :: x') ->
  occurrences (ulPat o) (join (r ++ [x]))
  = occurrences (ulPat o) (join r) + occurrences (ulPat o) x.
Proof. intros H. rewrite join_snoc. apply occ_app_lt. now right. Qed.

Lemma adds_refl o r : adds o r r 0.
Proof. unfold adds. lia. Qed.

Lemma adds_trans o r1 r2 r3 n m :
  adds o r1 r2 n -> adds o r2 r3 m -> adds o r1 r3 (n + m).
Proof. unfold adds. lia. Qed.

Lemma adds_tag o o' r : adds o r (r ++ [ulTag o']) 0.
Proof.
  unfold adds. rewrite occ_push by (destruct o'; eexists; reflexivity).
  rewrite <- (app_nil_r (ulTag o')) at 1. rewrite ulTag_occ, occ_nil.
  rewrite count_snoc. pose proof UL_OPEN_CLOSE as Hoc.
  destruct (str_eq_dec (ulTag o') (ulTag o)) as [E|E];
    destruct o, o'; cbn [ulTag Bool.eqb] in *; try congruence; lia.
Qed.

Lemma adds_plain o r x :
  (exists x', x = 60%N :: x') -> notListTag x ->
  adds o r (r ++ [x]) (occurrences (ulPat o) x).
Proof.
  intros Hx [H1 H2]. unfold adds. rewrite occ_push by exact Hx.
  rewrite count_snoc_other by (destruct o; assumption). lia.
Qed.

Lemma adds_closeList o st : adds o (result st) (result (closeList st)) 0.
Proof.
  unfold closeList. destruct (inList st); [|apply adds_refl].
  apply (adds_tag o false).
Qed.

Lemma adds_openList o st : adds o (result st) (result (openList st)) 0.
Proof.
  unfold openList. destruct (inList st); [apply adds_refl|].
  apply (adds_tag o true).
Qed.

(** An iteration adds the occurrences of its line, and list tags. *)
Lemma body_adds o lines i line st st' :
  nth_error lines i = Some line ->
  body lines i st = Ok st' ->
  adds o (result st) (result st') (occurrences (ulPat o) line).
Proof.
  intros Hl Hb.
  destruct (body_cases _ _ _ _ _ Hl Hb)
    as [(x & Hx & ->)|[[Ht ->]|(item & Hit & ->)]].
  - destruct (BlockOf_occ o line x Hx) as [<- Hlt].
    apply (adds_trans o _ _ _ 0 _ (adds_closeList o st)).
    apply adds_plain; [exact Hlt|]. now apply BlockOf_notListTag with line.
  - rewrite <- (occ_trim o line), Ht, occ_nil. apply adds_closeList.
  - rewrite <- (ItemOf_occ o line item Hit).
    apply (adds_trans o _ _ _ 0 _ (adds_openList o st)).
    apply adds_plain; [eexists; reflexivity|apply LI_notListTag].
Qed.

Lemma firstn_snoc (l : list str) k x :
  nth_error l k = Some x -> firstn (S k) l = firstn k l ++ [x].
Proof.
  revert k. induction l as [|a l IH]; intros [|k] H; try discriminate.
  - now injection H as ->.
  - simpl in H. rewrite (firstn_cons (S k)), (firstn_cons k), (IH k H).
    reflexivity.
Qed.

Lemma sum_occ_snoc pat l x :
  sum_occ pat (l ++ [x]) = sum_occ pat l + occurrences pat x.
Proof. induction l as [|a l IH]; simpl; lia. Qed.

(** After [k] lines, the joined array has the occurrences of those lines
    and one for each list tag pushed. *)
Lemma state_after_occ o md k : forall st,
  state_after md k = Ok st ->
  occurrences (ulPat o) (join (result st))
  = sum_occ (ulPat o) (firstn k (split_nl md)) + count (ulTag o) (result st).
Proof.
  induction k as [|k IH]; intros st H.
  - injection H as <-. transitivity 0; [apply occ_nil|reflexivity].
  - rewrite state_after_S in H.
    destruct (state_after md k) as [st0| |]; try discriminate.
    simpl in H. specialize (IH st0 eq_refl).
    destruct (nth_error (split_nl md) k) as [line|] eqn:Hl;
      [|unfold body in H; rewrite Hl in H; discriminate].
    pose proof (body_adds o _ _ _ _ _ Hl H) as Ha. unfold adds in Ha.
    rewrite (firstn_snoc _ _ _ Hl), sum_occ_snoc. lia.
Qed.

(** What the function returns has the occurrences of the document and
    one for each list tag of the array. *)
Lemma fragments_occ o md frs :
  fragments md = Ok frs ->
  occurrences (ulPat o) (join frs)
  = occurrences (ulPat o) md + count (ulTag o) frs.
Proof.
  rewrite fragments_unfold.
  destruct (state_after md (length (split_nl md))) as [st| |] eqn:Hst;
    try discriminate.
  simpl. intros [= <-].
  pose proof (state_after_occ o md _ st Hst) as H.
  rewrite firstn_all, <- occ_split_nl in H.
  pose proof (adds_closeList o st) as Ha. unfold adds in Ha. lia.
Qed.

(** ** The balance of list tags *)

(** C1, as stated, fails: the text of a line is copied as it is, so a
    document can bring its own ["<ul"]. *)
Lemma ul_balance_counterexample :
  ~ (forall md html, markdownToHtml md = Ok html ->
       occurrences (lit "<ul") html = occurrences (lit "</ul>") html).
Proof.
  intros H. specialize (H (lit "<ul") (P (lit "<ul")) eq_refl).
  vm_compute in H. discriminate H.
Qed.

(** C1, amended. The array [markdownToHtml] joins holds as many [<ul ...>]
    fragments as [</ul>] fragments, whatever the document, a list open at
    the end of the document being closed.  In the output string, the
    occurrences of ["<ul"] are those of the document and one for each
    [<ul ...>] fragment, and likewise for ["</ul>"]: the output has as many
    of the one as of the other exactly when the document has, and so when
    the document has neither. *)
Theorem ul_balanced (md : str) :
  (exists frs html,
     fragments md = Ok frs
     /\ markdownToHtml md = Ok html
     /\ count UL_OPEN frs = count UL_CLOSE frs
     /\ occurrences (lit "<ul") html
        = occurrences (lit "<ul") md + count UL_OPEN frs
     /\ occurrences (lit "</ul>") html
        = occurrences (lit "</ul>") md + count UL_CLOSE frs
     /\ (occurrences (lit "<ul") html = occurrences (lit "</ul>") html
         <-> occurrences (lit "<ul") md = occurrences (lit "</ul>") md))
  /\ fragments (lit "x" ++ NL ++ lit "- a")
     = Ok [P (lit "x"); UL_OPEN; LI (lit "a"); UL_CLOSE].
Proof.
  split; [|reflexivity].
  destruct (fragments_total md) as [frs Hf].
  exists frs, (join frs).
  pose proof (Run_balance _ _ (fragments_Run _ _ Hf)) as Hb.
  pose proof (fragments_occ true md frs Hf) as Ho.
  pose proof (fragments_occ false md frs Hf) as Hc.
  cbn [ulPat ulTag] in Ho, Hc.
  assert (Hm : markdownToHtml md = Ok (join frs))
    by (unfold markdownToHtml; now rewrite Hf).
  cbv iota in Hb.
  repeat split; try assumption; unfold str, char in *; lia.
Qed.

Lemma ul_balanced_witness :
  exists html,
    markdownToHtml (lit "- *a* b" ++ NL ++ lit "<b>c</b>") = Ok html
    /\ occurrences (lit "<ul") html = occurrences (lit "</ul>") html.
Proof.
  destruct (ul_balanced (lit "- *a* b" ++ NL ++ lit "<b>c</b>"))
    as [(frs & html & _ & Hm & _ & _ & _ & Hiff) _].
  exists html. split; [exact Hm|]. apply Hiff. reflexivity.
Defined.

(** ** The scan of [replace], one span at a time *)

Module Scan.















End Scan.

Import Scan.

(** ** Inline substitution *)

(** C4. The two branches do not apply the same substitution: the italic
    pattern of the list branch takes any character in its body, a star
    included, where the pattern of the paragraph branch takes none.  On
    the text [***] and on [**a*] the list branch produces an [<em>] whose
    content has a star, and the paragraph branch does not. *)
Theorem inline_list_italic_differs :
  inlineList (lit "***") = Ok (lit "<em>*</em>")
  /\ inlinePara (lit "***") = Ok (lit "***")
  /\ inlineList (lit "**a*") = Ok (lit "<em>*a</em>")
  /\ inlinePara (lit "**a*") = Ok (lit "*<em>a</em>")
  /\ fragments (lit "- **a*") = Ok [UL_OPEN; LI (lit "<em>*a</em>"); UL_CLOSE]
  /\ fragments (lit "**a*") = Ok [P (lit "*<em>a</em>")].
Proof. repeat split. Qed.

(** * The elements of the output *)

(** ** Headings *)

Lemma HeadingElement_Heading s el : HeadingElement s el -> Heading s el.
Proof. intros [t|t|t]; [exact (Heading3 t)|exact (Heading2 t)|exact (Heading1 t)]. Qed.

(** The state after a block: the list is closed, then the block is
    pushed. *)
Lemma push_closeList x st :
  push x (closeList st)
  = {| result := result st ++ (if inList st then [lit "</ul>"] else []) ++ [x];
       inList := false |}.
Proof.
  unfold push, closeList. destruct (inList st) eqn:E; cbn [result inList].
  - now rewrite <- app_assoc.
  - now rewrite E.
Qed.

(** C5. A line whose trimmed text is a marker ([### ], [## ] or [# ])
    followed by [t] pushes, after the [</ul>] of a list still open, the
    element of that marker, with its class, around [t] as it stands:
    stars in [t] stay stars.  ["# Title"] renders as the one element
    [<h1 ...>Title</h1>], with no paragraph around it. *)
Theorem heading_line_element (md : str) (k : nat) (line el : str)
    (Hline : nth_error (split_nl md) k = Some line)
    (Hhead : HeadingElement (trim line) el) :
  step_is md k
    (fun st =>
       {| result := result st
                    ++ (if inList st then [lit "</ul>"] else []) ++ [el];
          inList := false |})
  /\ fragments (lit "# Title")
     = Ok [lit "<h1 class=" ++ 34%N :: lit "text-2xl font-bold mt-8 mb-4"
           ++ 34%N :: lit ">Title</h1>"]
  /\ markdownToHtml (lit "# Title")
     = Ok (lit "<h1 class=" ++ 34%N :: lit "text-2xl font-bold mt-8 mb-4"
           ++ 34%N :: lit ">Title</h1>")
  /\ markdownToHtml (lit "## **b** and *i*")
     = Ok (lit "<h2 class=" ++ 34%N :: lit "text-xl font-bold mt-6 mb-3"
           ++ 34%N :: lit ">**b** and *i*</h2>").
Proof.
  split; [|repeat split].
  apply (step_is_intro md k line); [exact Hline|].
  intros st. rewrite <- push_closeList.
  apply body_heading with (line := line); [exact Hline|].
  now apply HeadingElement_Heading.
Qed.

Lemma heading_line_element_witness :
  step_is (lit "### Plan *now*") 0
    (fun st =>
       {| result := result st
                    ++ (if inList st then [lit "</ul>"] else [])
                    ++ [lit "<h3 class=" ++ 34%N
                        :: lit "text-lg font-semibold mt-4 mb-2"
                        ++ 34%N :: lit ">Plan *now*</h3>"];
          inList := false |}).
Proof.
  apply (heading_line_element (lit "### Plan *now*") 0 (lit "### Plan *now*")).
  - reflexivity.
  - apply (HeadingElement3 (lit "Plan *now*")).
Defined.

(** ** A heading after a list *)

(** C7. When a heading line follows a list item, the list is open as the
    heading line is reached, and the line pushes [</ul>] and then the
    heading element: in the output the [</ul>] stands right before the
    element.  In ["- item\n# Heading"] the [</ul>] comes before the
    [<h1 ...>]. *)
Theorem list_closed_before_heading (md : str) (k : nat)
    (item_line heading_line el : str)
    (Hitem : nth_error (split_nl md) k = Some item_line)
    (Hlist : isListItem (trim item_line) = true)
    (Hnext : nth_error (split_nl md) (S k) = Some heading_line)
    (Hhead : HeadingElement (trim heading_line) el) :
  (exists st post,
     state_after md (S k) = Ok st
     /\ inList st = true
     /\ state_after md (S (S k))
        = Ok {| result := result st ++ [lit "</ul>"; el]; inList := false |}
     /\ fragments md = Ok (result st ++ [lit "</ul>"; el] ++ post)
     /\ markdownToHtml md
        = Ok (join (result st) ++ lit "</ul>" ++ el ++ join post))
  /\ fragments (lit "- item" ++ NL ++ lit "# Heading")
     = Ok [ lit "<ul class=" ++ 34%N
            :: lit "list-disc list-inside space-y-1 my-2 ml-4"
            ++ 34%N :: lit ">";
            lit "<li>item</li>";
            lit "</ul>";
            lit "<h1 class=" ++ 34%N :: lit "text-2xl font-bold mt-8 mb-4"
            ++ 34%N :: lit ">Heading</h1>" ]
  /\ markdownToHtml (lit "- item" ++ NL ++ lit "# Heading")
     = Ok (lit "<ul class=" ++ 34%N
           :: lit "list-disc list-inside space-y-1 my-2 ml-4"
           ++ 34%N :: lit "><li>item</li></ul><h1 class=" ++ 34%N
           :: lit "text-2xl font-bold mt-8 mb-4" ++ 34%N
           :: lit ">Heading</h1>").
Proof.
  split; [|split; reflexivity].
  apply HeadingElement_Heading in Hhead.
  assert (Hk : S k < length (split_nl md))
    by (apply nth_error_Some; rewrite Hnext; discriminate).
  destruct (state_after_total md (S k)) as [st Hst]; [lia|].
  assert (Hin : inList st = true).
  { rewrite state_after_S in Hst.
    destruct (state_after md k) as [st0| |]; try discriminate.
    simpl in Hst. rewrite (body_inList _ _ _ _ _ Hitem Hst). exact Hlist. }
  assert (HS : state_after md (S (S k))
               = Ok {| result := result st ++ [lit "</ul>"; el];
                       inList := false |}).
  { rewrite state_after_S, Hst. cbn [bind].
    rewrite (body_heading _ _ _ el st Hnext Hhead), push_closeList, Hin.
    reflexivity. }
  destruct (fragments_prefix md (S (S k)) _ ltac:(lia) HS) as [post Hp].
  cbn [result] in Hp. rewrite <- app_assoc in Hp.
  exists st, post. repeat split; try assumption.
  unfold markdownToHtml. rewrite Hp. cbn [bind]. unfold join.
  rewrite concat_app. reflexivity.
Qed.

Lemma list_closed_before_heading_witness :
  exists st post,
    state_after (lit "- item" ++ NL ++ lit "## Next") 1 = Ok st
    /\ inList st = true
    /\ state_after (lit "- item" ++ NL ++ lit "## Next") 2
       = Ok {| result := result st
                 ++ [lit "</ul>";
                     lit "<h2 class=" ++ 34%N
                     :: lit "text-xl font-bold mt-6 mb-3" ++ 34%N
                     :: lit ">Next</h2>"];
               inList := false |}
    /\ fragments (lit "- item" ++ NL ++ lit "## Next")
       = Ok (result st
             ++ [lit "</ul>";
                 lit "<h2 class=" ++ 34%N
                 :: lit "text-xl font-bold mt-6 mb-3" ++ 34%N
                 :: lit ">Next</h2>"] ++ post)
    /\ markdownToHtml (lit "- item" ++ NL ++ lit "## Next")
       = Ok (join (result st) ++ lit "</ul>"
             ++ (lit "<h2 class=" ++ 34%N
                 :: lit "text-xl font-bold mt-6 mb-3" ++ 34%N
                 :: lit ">Next</h2>") ++ join post).
Proof.
  apply (list_closed_before_heading (lit "- item" ++ NL ++ lit "## Next") 0
           (lit "- item") (lit "## Next")).
  - reflexivity.
  - reflexivity.
  - reflexivity.
  - apply (HeadingElement2 (lit "Next")).
Defined.

(** ** Runs of list items *)

(** C6, as stated, fails: an item holds group 1 of its line with the
    inline substitution applied, not group 1 as it was captured.  In
    ["- *a*"] group 1 is [*a*] and the item holds [<em>a</em>]. *)
Lemma list_item_counterexample :
  ~ (forall md pre seg suf,
       split_nl md = pre ++ seg ++ suf -> Forall listLine seg -> seg <> [] ->
       exists before caps after,
         Forall2 Captured seg caps
         /\ fragments md
            = Ok (before
                  ++ map (fun cap => lit "<li>" ++ cap ++ lit "</li>") caps
                  ++ after)).
Proof.
  intros H.
  destruct (H (lit "- *a*") [] [lit "- *a*"] [])
    as (before & caps & after & HC & Hf);
    [reflexivity|repeat constructor|discriminate|].
  inversion HC as [|l cap ls cs (m & Hm & Hg) Hcs]; subst.
  inversion Hcs; subst.
  vm_compute in Hm. injection Hm as <-. cbn [grp] in Hg. injection Hg as <-.
  assert (E : fragments (lit "- *a*")
              = Ok [UL_OPEN; lit "<li><em>a</em></li>"; lit "</ul>"])
    by reflexivity.
  rewrite E in Hf. injection Hf as Hf.
  match type of Hf with
  | _ = ?r =>
      assert (Hin : In (lit "<li>*a*</li>") r)
        by (apply in_or_app; right; now left)
  end.
  rewrite <- Hf in Hin.
  destruct Hin as [Hin|[Hin|[Hin|[]]]]; vm_compute in Hin; discriminate Hin.
Qed.

(** C6, amended. A run of consecutive list lines pushes, in this order,
    the opening [<ul ...>] when no list is open as the run starts (that
    is, when the line before the run is not a list item) and one
    [<li>...</li>] per line, holding group 1 of that line with the inline
    substitution applied: group 1 itself when it has no asterisk.
    ["- a\n- b"] is one [<ul ...>] with the items [a] and [b], and in
    ["- **b** *i*"] the item holds [<strong>b</strong> <em>i</em>]. *)
Theorem list_run_elements (md : str) (pre seg suf : list str)
    (Hlines : split_nl md = pre ++ seg ++ suf)
    (Hrun : Forall listLine seg)
    (Hne : seg <> []) :
  (exists st items post,
     state_after md (length pre) = Ok st
     /\ inList st = open_after pre
     /\ Forall2 ItemOf seg items
     /\ state_after md (length pre + length seg)
        = Ok {| result :=
                  result st
                  ++ (if inList st then []
                      else [lit "<ul class=" ++ 34%N
                            :: lit "list-disc list-inside space-y-1 my-2 ml-4"
                            ++ 34%N :: lit ">"])
                  ++ map (fun item => lit "<li>" ++ item ++ lit "</li>") items;
                inList := true |}
     /\ fragments md
        = Ok (result st
              ++ (if inList st then []
                  else [lit "<ul class=" ++ 34%N
                        :: lit "list-disc list-inside space-y-1 my-2 ml-4"
                        ++ 34%N :: lit ">"])
              ++ map (fun item => lit "<li>" ++ item ++ lit "</li>") items
              ++ post))
  /\ fragments (lit "- a" ++ NL ++ lit "- b")
     = Ok [ lit "<ul class=" ++ 34%N
            :: lit "list-disc list-inside space-y-1 my-2 ml-4"
            ++ 34%N :: lit ">";
            lit "<li>a</li>"; lit "<li>b</li>"; lit "</ul>" ]
  /\ markdownToHtml (lit "- a" ++ NL ++ lit "- b")
     = Ok (lit "<ul class=" ++ 34%N
           :: lit "list-disc list-inside space-y-1 my-2 ml-4"
           ++ 34%N :: lit "><li>a</li><li>b</li></ul>")
  /\ markdownToHtml (lit "- **b** *i*")
     = Ok (lit "<ul class=" ++ 34%N
           :: lit "list-disc list-inside space-y-1 my-2 ml-4"
           ++ 34%N
           :: lit "><li><strong>b</strong> <em>i</em></li></ul>").
Proof.
  split; [|repeat split].
  destruct seg as [|l seg']; [contradiction|].
  assert (Hlen : length (split_nl md)
                 = length pre + length (l :: seg') + length suf)
    by (rewrite Hlines, !length_app; lia).
  destruct (state_after_total md (length pre)) as [st Hst]; [lia|].
  destruct (iterate_list_run _ pre l seg' suf st Hlines Hrun)
    as (items & Hits & Hi).
  assert (HS : state_after md (length pre + length (l :: seg'))
               = Ok {| result := result st
                          ++ (if inList st then [] else [UL_OPEN])
                          ++ map LI items;
                       inList := true |})
    by (rewrite state_after_add, Hst; exact Hi).
  destruct (fragments_prefix md (length pre + length (l :: seg')) _
              ltac:(lia) HS) as [post Hp].
  exists st, items, post. repeat split; try assumption.
  - apply (state_after_inList md pre ((l :: seg') ++ suf)); assumption.
  - rewrite Hp. cbn [result]. now rewrite <- !app_assoc.
Qed.

Lemma list_run_elements_witness :
  exists st items post,
    state_after (lit "# t" ++ NL ++ lit "- a" ++ NL ++ lit "* b") 1 = Ok st
    /\ inList st = open_after [lit "# t"]
    /\ Forall2 ItemOf [lit "- a"; lit "* b"] items
    /\ state_after (lit "# t" ++ NL ++ lit "- a" ++ NL ++ lit "* b") (1 + 2)
       = Ok {| result :=
                 result st
                 ++ (if inList st then []
                     else [lit "<ul class=" ++ 34%N
                           :: lit "list-disc list-inside space-y-1 my-2 ml-4"
                           ++ 34%N :: lit ">"])
                 ++ map (fun item => lit "<li>" ++ item ++ lit "</li>") items;
               inList := true |}
    /\ fragments (lit "# t" ++ NL ++ lit "- a" ++ NL ++ lit "* b")
       = Ok (result st
             ++ (if inList st then []
                 else [lit "<ul class=" ++ 34%N
                       :: lit "list-disc list-inside space-y-1 my-2 ml-4"
                       ++ 34%N :: lit ">"])
             ++ map (fun item => lit "<li>" ++ item ++ lit "</li>") items
             ++ post).
Proof.
  apply (list_run_elements (lit "# t" ++ NL ++ lit "- a" ++ NL ++ lit "* b")
           [lit "# t"] [lit "- a"; lit "* b"] []).
  - reflexivity.
  - repeat constructor.
  - discriminate.
Defined.

(** ** Inline substitution in a paragraph *)




(** ** No empty list *)

Lemma startsWith_prefix p q : forall s,
  startsWith (p ++ q) s = true -> startsWith p s = true.
Proof.
  induction p as [|a p IH]; intros s; cbn [app startsWith]; [reflexivity|].
  destruct s as [|b s]; [discriminate|].
  intros H. apply andb_true_iff in H as [Hab H].
  now rewrite Hab, (IH s H).
Qed.

(** A longer pattern occurs no more often than a prefix of it. *)
Lemma occ_le_prefix p q : forall s,
  occurrences (p ++ q) s <= occurrences p s.
Proof.
  induction s as [|c s IH]; cbn [occurrences].
  - destruct (startsWith (p ++ q) []) eqn:E; [|lia].
    now rewrite (startsWith_prefix p q [] E).
  - destruct (startsWith (p ++ q) (c :: s)) eqn:E; [|lia].
    rewrite (startsWith_prefix p q _ E). lia.
Qed.

(** When it occurs as often, it occurs wherever the prefix does. *)
Lemma occ_eq_extends p q : forall a s b,
  s = a ++ b ->
  occurrences (p ++ q) s = occurrences p s ->
  startsWith p b = true -> startsWith (p ++ q) b = true.
Proof.
  induction a as [|c a IH]; intros s b -> Ho Hb.
  - cbn [app] in Ho. destruct b as [|c b]; cbn [occurrences] in Ho;
      rewrite Hb in Ho.
    + destruct (startsWith (p ++ q) []); [reflexivity|lia].
    + pose proof (occ_le_prefix p q b).
      destruct (startsWith (p ++ q) (c :: b)); [reflexivity|lia].
  - cbn [app occurrences] in Ho.
    pose proof (occ_le_prefix p q (a ++ b)) as Hle.
    apply (IH (a ++ b) b eq_refl); [|exact Hb].
    destruct (startsWith (p ++ q) (c :: a ++ b)) eqn:E.
    + rewrite (startsWith_prefix p q _ E) in Ho. lia.
    + destruct (startsWith p (c :: a ++ b)); lia.
Qed.

Lemma occ_suffix pat a R : occurrences pat R <= occurrences pat (a ++ R).
Proof.
  induction a as [|c a IH]; cbn [app occurrences]; lia.
Qed.

(** Each [<ul ...>] fragment, with the [<li>] after it, is a place of the
    output where the tag and [<li>] occur. *)
Lemma count_le_occ frs :
  ul_then_li frs ->
  count UL_OPEN frs <= occurrences (UL_OPEN ++ lit "<li>") (join frs).
Proof.
  induction frs as [|x rest IH]; intros H; [cbn; lia|].
  assert (Hrest : ul_then_li rest).
  { intros pre post E. apply (H (x :: pre) post). now rewrite E. }
  specialize (IH Hrest). unfold count in *.
  change (join (x :: rest)) with (x ++ join rest).
  pose proof (occ_suffix (UL_OPEN ++ lit "<li>") x (join rest)) as Hs.
  destruct (str_eq_dec x UL_OPEN) as [->|Hx].
  - rewrite count_occ_cons_eq by reflexivity.
    destruct (H [] rest eq_refl) as (item & post' & ->).
    change (join (LI item :: post')) with (LI item ++ join post') in *.
    assert (Hw : startsWith (UL_OPEN ++ lit "<li>")
                   (UL_OPEN ++ LI item ++ join post') = true).
    { apply startsWith_spec. exists (item ++ lit "</li>" ++ join post').
      unfold LI. now rewrite <- !app_assoc. }
    pose proof (occ_suffix (UL_OPEN ++ lit "<li>") (tl UL_OPEN)
                  (LI item ++ join post')) as Ht.
    change (UL_OPEN ++ LI item ++ join post')
      with (60%N :: tl UL_OPEN ++ LI item ++ join post') in Hw |- *.
    cbn [occurrences]. rewrite Hw. lia.
  - rewrite count_occ_cons_neq by exact Hx. lia.
Qed.

(** C9, as stated, fails on the output string: the text of a line is
    copied as it is, so a document can bring the opening tag, and what
    follows it is then not an [<li>].  A line that is the tag renders as
    the tag in a paragraph, followed by [</p>]. *)
Lemma ul_followed_counterexample :
  ~ (forall md html,
       markdownToHtml md = Ok html ->
       forall a b,
         html = a ++ (lit "<ul class=" ++ 34%N
                      :: lit "list-disc list-inside space-y-1 my-2 ml-4"
                      ++ 34%N :: lit ">") ++ b ->
         startsWith (lit "<li>") b = true).
Proof.
  intros H.
  specialize (H (lit "<ul class=" ++ 34%N
                 :: lit "list-disc list-inside space-y-1 my-2 ml-4"
                 ++ 34%N :: lit ">")
                _ eq_refl
                (lit "<p class=" ++ 34%N :: lit "mb-2" ++ 34%N :: lit ">")
                (lit "</p>") eq_refl).
  discriminate H.
Qed.

(** C9, amended. In the array [markdownToHtml] joins, every [<ul ...>]
    fragment is directly followed by an [<li>...</li>] fragment, so that
    no list the function opens is empty.  In the output string of a
    document that has no ["<ul"] of its own, every ["<ul"] is the opening
    tag, with [<li>] right after it. *)
Theorem ul_never_empty (md : str) :
  exists frs,
    fragments md = Ok frs
    /\ markdownToHtml md = Ok (join frs)
    /\ (forall pre post,
          frs = pre ++ (lit "<ul class=" ++ 34%N
                        :: lit "list-disc list-inside space-y-1 my-2 ml-4"
                        ++ 34%N :: lit ">") :: post ->
          exists item post',
            post = (lit "<li>" ++ item ++ lit "</li>") :: post'
            /\ join frs
               = join pre
                 ++ (lit "<ul class=" ++ 34%N
                     :: lit "list-disc list-inside space-y-1 my-2 ml-4"
                     ++ 34%N :: lit ">")
                 ++ (lit "<li>" ++ item ++ lit "</li>") ++ join post')
    /\ (occurrences (lit "<ul") md = 0 ->
        forall a b,
          join frs = a ++ b -> startsWith (lit "<ul") b = true ->
          startsWith (lit "<ul class=" ++ 34%N
                      :: lit "list-disc list-inside space-y-1 my-2 ml-4"
                      ++ 34%N :: lit "><li>") b = true).
Proof.
  destruct (fragments_total md) as [frs Hf]. exists frs.
  pose proof (Run_ul_then_li _ _ (fragments_Run _ _ Hf)) as Hul.
  split; [exact Hf|]. split; [unfold markdownToHtml; now rewrite Hf|]. split.
  - intros pre post H.
    destruct (Hul pre post H) as (item & post' & ->).
    exists item, post'. split; [reflexivity|].
    rewrite H. unfold join. rewrite concat_app. reflexivity.
  - intros Hmd a b Hab Hb.
    pose proof (fragments_occ true md frs Hf) as Ho.
    cbn [ulPat ulTag] in Ho.
    pose proof (count_le_occ frs Hul) as Hc.
    change (UL_OPEN ++ lit "<li>")
      with (lit "<ul"
            ++ (lit " class=" ++ 34%N
                :: lit "list-disc list-inside space-y-1 my-2 ml-4"
                ++ 34%N :: lit "><li>")) in Hc.
    pose proof (occ_le_prefix (lit "<ul")
                  (lit " class=" ++ 34%N
                   :: lit "list-disc list-inside space-y-1 my-2 ml-4"
                   ++ 34%N :: lit "><li>") (join frs)) as Hle.
    apply (occ_eq_extends (lit "<ul")
             (lit " class=" ++ 34%N
              :: lit "list-disc list-inside space-y-1 my-2 ml-4"
              ++ 34%N :: lit "><li>") a (join frs) b Hab);
      [|exact Hb].
    unfold str, char in *. lia.
Qed.

Lemma ul_never_empty_witness :
  exists item post',
    [lit "<li>a</li>"; lit "</ul>"]
    = (lit "<li>" ++ item ++ lit "</li>") :: post'
    /\ join [ lit "<ul class=" ++ 34%N
              :: lit "list-disc list-inside space-y-1 my-2 ml-4"
              ++ 34%N :: lit ">";
              lit "<li>a</li>"; lit "</ul>" ]
       = join []
         ++ (lit "<ul class=" ++ 34%N
             :: lit "list-disc list-inside space-y-1 my-2 ml-4"
             ++ 34%N :: lit ">")
         ++ (lit "<li>" ++ item ++ lit "</li>") ++ join post'.
Proof.
  destruct (ul_never_empty (lit "- a")) as (frs & Hf & _ & H & _).
  assert (E : fragments (lit "- a")
              = Ok [ lit "<ul class=" ++ 34%N
                     :: lit "list-disc list-inside space-y-1 my-2 ml-4"
                     ++ 34%N :: lit ">";
                     lit "<li>a</li>"; lit "</ul>" ])
    by reflexivity.
  rewrite E in Hf. injection Hf as <-.
  exact (H [] [lit "<li>a</li>"; lit "</ul>"] eq_refl).
Defined.

(** * Further properties of the renderer *)

(** ** Lists do not nest *)

Lemma Run_prefix_ok r b : Run r b -> prefix_ok r.
Proof.
  intros H. pose proof (Run_balance r b H) as Hb. unfold prefix_ok.
  destruct b; lia.
Qed.

Lemma firstn_snoc_cases (r : list str) x n :
  firstn n (r ++ [x]) = firstn n r \/ firstn n (r ++ [x]) = r ++ [x].
Proof.
  destruct (Nat.le_gt_cases n (length r)) as [H|H].
  - left. rewrite firstn_app.
    replace (n - length r) with 0 by lia. simpl. apply app_nil_r.
  - right. apply firstn_all2. rewrite length_app. simpl. lia.
Qed.

Lemma prefixes_snoc r x :
  (forall n, prefix_ok (firstn n r)) -> prefix_ok (r ++ [x]) ->
  forall n, prefix_ok (firstn n (r ++ [x])).
Proof.
  intros Hr Hx n. destruct (firstn_snoc_cases r x n) as [-> | ->]; auto.
Qed.

Lemma Run_prefixes r b : Run r b -> forall n, prefix_ok (firstn n r).
Proof.
  induction 1 as [|r b x R IH Hx|r b R IH|r b item R IH].
  - intros n. rewrite firstn_nil. unfold prefix_ok. simpl. lia.
  - apply prefixes_snoc; [|apply (Run_prefix_ok _ false); now constructor].
    destruct b; [|exact IH].
    apply prefixes_snoc; [exact IH|].
    apply (Run_prefix_ok _ false). exact (Run_close r true R).
  - destruct b; [|exact IH].
    apply prefixes_snoc; [exact IH|].
    apply (Run_prefix_ok _ false). exact (Run_close r true R).
  - apply prefixes_snoc; [|apply (Run_prefix_ok _ true); now constructor].
    destruct b; [exact IH|].
    apply prefixes_snoc; [exact IH|].
    pose proof (Run_balance r false R) as Hb. unfold prefix_ok.
    rewrite count_snoc_same, count_snoc_other by apply UL_OPEN_CLOSE.
    simpl in Hb. lia.
Qed.

(** X1. Lists never nest: at every point of the array that is joined,
    the [</ul>] fragments so far are no more than the [<ul ...>]
    fragments so far, and the [<ul ...>] fragments exceed them by one at
    most. *)
Theorem lists_never_nest (md : str) :
  exists frs,
    fragments md = Ok frs
    /\ markdownToHtml md = Ok (join frs)
    /\ forall n, count UL_CLOSE (firstn n frs) <= count UL_OPEN (firstn n frs)
                 /\ count UL_OPEN (firstn n frs)
                    <= count UL_CLOSE (firstn n frs) + 1.
Proof.
  destruct (fragments_total md) as [frs Hf]. exists frs.
  split; [exact Hf|]. split; [unfold markdownToHtml; now rewrite Hf|].
  exact (Run_prefixes _ _ (fragments_Run _ _ Hf)).
Qed.

(** ** Text is not escaped *)

(** X2. A paragraph line without a star is copied as it stands between
    [<p class="mb-2">] and [</p>]: whatever markup it holds reaches the
    output unchanged. *)
Theorem paragraph_verbatim (md : str) (k : nat) (line : str)
    (Hline : nth_error (split_nl md) k = Some line)
    (Hhead : isHeading (trim line) = false)
    (Hitem : isListItem (trim line) = false)
    (Hne : trim line <> [])
    (Hstar : forallb notStar (trim line) = true) :
  step_is md k (fun st => push (P (trim line)) (closeList st)).
Proof.
  assert (Hm : js_match listRe (trim line) = None).
  { unfold isListItem in Hitem. now destruct (js_match listRe (trim line)). }
  apply (step_is_intro md k line); [exact Hline|]. intros st.
  destruct (body_para _ _ _ Hline st Hhead Hm Hne) as (p & Hp & ->).
  rewrite (inlinePara_no_star _ Hstar) in Hp. now injection Hp as <-.
Qed.

Lemma paragraph_verbatim_witness :
  step_is (lit "<script>alert(1)</script> ") 0
    (fun st => push (P (lit "<script>alert(1)</script>")) (closeList st)).
Proof.
  apply (paragraph_verbatim (lit "<script>alert(1)</script> ") 0
           (lit "<script>alert(1)</script> ")); try reflexivity.
  discriminate.
Defined.

(** ** The characters of the output *)

Section Alphabet.

Variable Q : char -> Prop.
Hypothesis Qtags : forall t, In t all_tags -> Forall Q t.

Lemma Q_trimStart s : Forall Q s -> Forall Q (trimStart s).
Proof.
  induction 1 as [|c s Hc Hs IH]; simpl; [constructor|].
  destruct (isWhiteSpace c); [exact IH|now constructor].
Qed.

Lemma Q_trim s : Forall Q s -> Forall Q (trim s).
Proof.
  intros H. unfold trim, trimEnd.
  apply Forall_rev, Q_trimStart, Forall_rev, Q_trimStart, H.
Qed.

Lemma Q_Subst d p tpl s out :
  (forall g, Forall Q g -> Forall Q (tpl g)) ->
  Subst d p tpl s out -> Forall Q s -> Forall Q out.
Proof.
  intros Ht. induction 1 as [s|pre b s o Hne Hp HS IH]; intros H; [exact H|].
  apply Forall_app in H as [Hpre H].
  apply Forall_app in H as [_ H].
  apply Forall_app in H as [Hb H].
  apply Forall_app in H as [_ H].
  apply Forall_app. split; [exact Hpre|].
  apply Forall_app. split; [now apply Ht|now apply IH].
Qed.

Lemma Q_strongTpl g : Forall Q g -> Forall Q (strongTpl g).
Proof.
  intros H. unfold strongTpl. apply Forall_app. split; [tag Qtags|].
  apply Forall_app. split; [exact H|tag Qtags].
Qed.

Lemma Q_emTpl g : Forall Q g -> Forall Q (emTpl g).
Proof.
  intros H. unfold emTpl. apply Forall_app. split; [tag Qtags|].
  apply Forall_app. split; [exact H|tag Qtags].
Qed.

Lemma Q_inlinePara s out : inlinePara s = Ok out -> Forall Q s -> Forall Q out.
Proof.
  unfold inlinePara. intros H Hs.
  destruct (js_replace boldRe strongTpl s) as [b| |] eqn:Hb; try discriminate.
  cbn [bind] in H.
  apply (Q_Subst _ _ _ _ _ Q_emTpl (js_replace_Subst _ _ _ _ _ _ Spans.italicParaRe_span H)).
  exact (Q_Subst _ _ _ _ _ Q_strongTpl (js_replace_Subst _ _ _ _ _ _ Spans.boldRe_span Hb) Hs).
Qed.

Lemma Q_inlineList s out : inlineList s = Ok out -> Forall Q s -> Forall Q out.
Proof.
  unfold inlineList. intros H Hs.
  destruct (js_replace boldRe strongTpl s) as [b| |] eqn:Hb; try discriminate.
  cbn [bind] in H.
  apply (Q_Subst _ _ _ _ _ Q_emTpl (js_replace_Subst _ _ _ _ _ _ Spans.italicListRe_span H)).
  exact (Q_Subst _ _ _ _ _ Q_strongTpl (js_replace_Subst _ _ _ _ _ _ Spans.boldRe_span Hb) Hs).
Qed.

Lemma Q_BlockOf line x : Forall Q line -> BlockOf line x -> Forall Q x.
Proof.
  intros Hl [H|[(p & Hp & ->)|[_ ->]]].
  - apply Q_trim in Hl. destruct H as [t|t|t];
      apply Forall_app in Hl as [_ Hl];
      apply Forall_app; (split; [tag Qtags|]);
      apply Forall_app; (split; [exact Hl|tag Qtags]).
  - unfold P. apply Forall_app. split; [tag Qtags|].
    apply Forall_app. split; [|tag Qtags].
    apply (Q_inlinePara _ _ Hp). now apply Q_trim.
  - tag Qtags.
Qed.

Lemma Q_ItemOf line item : Forall Q line -> ItemOf line item -> Forall Q (LI item).
Proof.
  intros Hl (m & cap & Hm & Hg & Hi & _).
  apply js_match_listRe in Hm.
  destruct (listRe_run _ _ Hm) as (c & w & cap' & E & _ & _ & _ & _ & _ & Hg' & _).
  rewrite Hg in Hg'. injection Hg' as <-.
  apply Q_trim in Hl. rewrite E in Hl.
  apply Forall_inv_tail in Hl. apply Forall_app in Hl as [_ Hcap].
  unfold LI. apply Forall_app. split; [tag Qtags|].
  apply Forall_app. split; [|tag Qtags].
  exact (Q_inlineList _ _ Hi Hcap).
Qed.

Lemma Q_join_snoc r x : Forall Q (join r) -> Forall Q x -> Forall Q (join (r ++ [x])).
Proof. intros Hr Hx. rewrite join_snoc. apply Forall_app. now split. Qed.

Lemma Q_closeList st : Forall Q (join (result st)) -> Forall Q (join (result (closeList st))).
Proof.
  intros H. unfold closeList. destruct (inList st); [|exact H].
  cbn [result]. apply Q_join_snoc; [exact H|tag Qtags].
Qed.

Lemma Q_openList st : Forall Q (join (result st)) -> Forall Q (join (result (openList st))).
Proof.
  intros H. unfold openList. destruct (inList st); [exact H|].
  cbn [result]. apply Q_join_snoc; [exact H|tag Qtags].
Qed.

Lemma Q_body (lines : list str) i st st' :
  Forall (Forall Q) lines -> body lines i st = Ok st' ->
  Forall Q (join (result st)) -> Forall Q (join (result st')).
Proof.
  intros HL Hb Hst.
  destruct (nth_error lines i) as [line|] eqn:Hl;
    [|unfold body in Hb; rewrite Hl in Hb; discriminate].
  assert (Hline : Forall Q line).
  { apply nth_error_In in Hl. rewrite Forall_forall in HL. now apply HL. }
  destruct (body_cases _ _ _ _ _ Hl Hb)
    as [(x & Hx & ->)|[(_ & ->)|(item & Hit & ->)]].
  - cbn [push result]. apply Q_join_snoc; [now apply Q_closeList|].
    exact (Q_BlockOf _ _ Hline Hx).
  - now apply Q_closeList.
  - cbn [push result]. apply Q_join_snoc; [now apply Q_openList|].
    exact (Q_ItemOf _ _ Hline Hit).
Qed.

Lemma Q_iterate (lines : list str) : Forall (Forall Q) lines ->
  forall n i st st', iterate lines n i st = Ok st' ->
  Forall Q (join (result st)) -> Forall Q (join (result st')).
Proof.
  intros HL. induction n as [|n IH]; intros i st st' H Hst; cbn [iterate] in H.
  - now injection H as <-.
  - destruct (body lines i st) as [st1| |] eqn:Hb; try discriminate.
    cbn [bind] in H. apply (IH _ _ _ H). exact (Q_body _ _ _ _ HL Hb Hst).
Qed.

Lemma Q_fragments md frs :
  Forall (Forall Q) (split_nl md) -> fragments md = Ok frs -> Forall Q (join frs).
Proof.
  intros HL H. unfold fragments in H. cbv zeta in H.
  destruct (iterate (split_nl md) (length (split_nl md)) 0 init) as [st| |] eqn:Hi;
    try discriminate.
  cbn [bind] in H. injection H as <-. apply Q_closeList.
  apply (Q_iterate _ HL _ _ _ _ Hi). constructor.
Qed.

End Alphabet.

Lemma split_nl_no_nl md : Forall (Forall (fun c => c <> 10%N)) (split_nl md).
Proof.
  induction md as [|c md IH]; cbn [split_nl]; [repeat constructor|].
  destruct (N.eqb_spec c 10) as [E|E]; [constructor; [constructor|exact IH]|].
  destruct (split_nl md) as [|l ls]; [repeat constructor; exact E|].
  inversion_clear IH. constructor; [now constructor|assumption].
Qed.

Lemma split_nl_chars md : Forall (Forall (fun c => In c md)) (split_nl md).
Proof.
  induction md as [|c md IH]; cbn [split_nl]; [repeat constructor|].
  assert (IH' : Forall (Forall (fun x => In x (c :: md))) (split_nl md)).
  { eapply Forall_impl; [|exact IH]. intros l Hl.
    eapply Forall_impl; [|exact Hl]. intros x Hx. now right. }
  destruct (c =? 10)%N; [constructor; [constructor|exact IH']|].
  destruct (split_nl md) as [|l ls]; [repeat constructor|].
  inversion_clear IH'. constructor; [|assumption].
  constructor; [now left|assumption].
Qed.

(** X3. The returned string has no newline: the lines are joined with
    the empty string, and no tag holds one. *)
Theorem output_single_line (md : str) :
  exists html, markdownToHtml md = Ok html /\ ~ In 10%N html.
Proof.
  destruct (fragments_total md) as [frs Hf]. exists (join frs).
  split; [unfold markdownToHtml; now rewrite Hf|].
  assert (H : Forall (fun c => c <> 10%N) (join frs)).
  { apply (Q_fragments _) with (md := md); [|apply split_nl_no_nl|exact Hf].
    intros t Ht. apply Forall_forall. intros c Hc ->.
    unfold all_tags, plain_tags in Ht. simpl in Ht.
    repeat (destruct Ht as [<-|Ht];
            [simpl in Hc; repeat (destruct Hc as [Hc|Hc]; [discriminate|]);
             exact Hc|]).
    exact Ht. }
  rewrite Forall_forall in H. intros Hin. now apply (H _ Hin).
Qed.

(** X4. Every character of the returned string is a character of the
    input or a character of one of the tags the function writes. *)
Theorem output_alphabet (md : str) :
  exists html,
    markdownToHtml md = Ok html
    /\ forall c, In c html -> In c md \/ In c tag_chars.
Proof.
  destruct (fragments_total md) as [frs Hf]. exists (join frs).
  split; [unfold markdownToHtml; now rewrite Hf|].
  apply Forall_forall.
  apply (Q_fragments _) with (md := md); [| |exact Hf].
  - intros t Ht. apply Forall_forall. intros c Hc. right.
    unfold tag_chars. apply in_concat. eauto.
  - eapply Forall_impl; [|apply split_nl_chars]. intros l Hl.
    eapply Forall_impl; [|exact Hl]. intros x Hx. now left.
Qed.

(** ** What an iteration depends on *)

(** An iteration reads its line only through [trim], and its index only
    through the test for the last line, which only a blank line reaches. *)
Lemma body_ext (L L' : list str) i i' st :
  option_map trim (nth_error L i) = option_map trim (nth_error L' i') ->
  (Nat.ltb i (length L - 1) = Nat.ltb i' (length L' - 1)
   \/ exists line, nth_error L i = Some line /\ trim line <> []) ->
  body L i st = body L' i' st.
Proof.
  intros Hn Hlast. unfold body.
  destruct (nth_error L i) as [l|], (nth_error L' i') as [l'|];
    try discriminate; [|reflexivity].
  injection Hn as Hn. cbv zeta. rewrite <- Hn.
  destruct (startsWith (lit "### ") (trim l)); [reflexivity|].
  destruct (startsWith (lit "## ") (trim l)); [reflexivity|].
  destruct (startsWith (lit "# ") (trim l)); [reflexivity|].
  destruct (js_match listRe (trim l)); [reflexivity|].
  destruct (trim l) eqn:Ht; [|reflexivity].
  destruct Hlast as [->|(line & [= <-] & Hne)]; [reflexivity|].
  now rewrite Ht in Hne.
Qed.

Lemma iterate_ext (L L' : list str) n : forall i i' st,
  (forall j s, j < n -> body L (i + j) s = body L' (i' + j) s) ->
  iterate L n i st = iterate L' n i' st.
Proof.
  induction n as [|n IH]; intros i i' st H; cbn [iterate]; [reflexivity|].
  pose proof (H 0 st ltac:(lia)) as H0. rewrite !Nat.add_0_r in H0. rewrite H0.
  destruct (body L' i' st) as [st1| |]; cbn [bind]; try reflexivity.
  apply IH. intros j s Hj. specialize (H (S j) s ltac:(lia)).
  now rewrite !Nat.add_succ_r in H.
Qed.

(** X5. The output depends on the lines only through their trimmed
    form: two documents whose lines agree after [trim] give the same
    string. *)
Theorem trim_insensitive (a b : str)
    (H : map trim (split_nl a) = map trim (split_nl b)) :
  markdownToHtml a = markdownToHtml b.
Proof.
  assert (Hlen : length (split_nl a) = length (split_nl b)).
  { rewrite <- (length_map trim (split_nl a)), H. apply length_map. }
  unfold markdownToHtml, fragments. cbv zeta. rewrite Hlen.
  rewrite (iterate_ext (split_nl a) (split_nl b) _ 0 0 init); [reflexivity|].
  intros j s _. cbn [Nat.add]. apply body_ext.
  - rewrite <- !nth_error_map. now rewrite H.
  - left. now rewrite Hlen.
Qed.

Lemma trim_insensitive_witness :
  markdownToHtml (lit "  # a  ") = markdownToHtml (lit "# a").
Proof. apply (trim_insensitive (lit "  # a  ") (lit "# a")). reflexivity. Defined.

(** ** Documents one after the other *)

Lemma split_nl_app a b : split_nl (a ++ 10%N :: b) = split_nl a ++ split_nl b.
Proof.
  induction a as [|c a IH]; [reflexivity|].
  cbn [app split_nl]. destruct (c =? 10)%N; [now rewrite IH|].
  rewrite IH. pose proof (split_nl_nonempty a) as Hn.
  destruct (split_nl a) as [|l ls]; [contradiction|reflexivity].
Qed.

Lemma closeList_prepend r st : closeList (prepend r st) = prepend r (closeList st).
Proof.
  unfold closeList, prepend. cbn [inList result].
  destruct (inList st) eqn:E; cbn [inList result]; rewrite ?E; [|reflexivity].
  now rewrite app_assoc.
Qed.

Lemma openList_prepend r st : openList (prepend r st) = prepend r (openList st).
Proof.
  unfold openList, prepend. cbn [inList result].
  destruct (inList st) eqn:E; cbn [inList result]; rewrite ?E; [reflexivity|].
  now rewrite app_assoc.
Qed.

Lemma push_prepend r x st : push x (prepend r st) = prepend r (push x st).
Proof. unfold push, prepend. cbn [inList result]. now rewrite app_assoc. Qed.

(** The fragments already in the array are not read: an iteration does
    the same with any array in front. *)
Lemma body_frame (L : list str) i r st :
  body L i (prepend r st) = (st' <- body L i st ;; Ok (prepend r st')).
Proof.
  unfold body. destruct (nth_error L i) as [l|]; [|reflexivity]. cbv zeta.
  rewrite openList_prepend, !closeList_prepend, !push_prepend.
  destruct (startsWith (lit "### ") (trim l)); [reflexivity|].
  destruct (startsWith (lit "## ") (trim l)); [reflexivity|].
  destruct (startsWith (lit "# ") (trim l)); [reflexivity|].
  destruct (js_match listRe (trim l)) as [m|].
  - destruct (grp m) as [cap|]; [|reflexivity].
    destruct (inlineList cap) as [item| |]; cbn [bind]; try reflexivity.
    now rewrite push_prepend.
  - destruct (trim l) as [|c t] eqn:Ht.
    + destruct (Nat.ltb i (length L - 1)); cbn [bind]; reflexivity.
    + destruct (inlinePara (c :: t)) as [p| |]; cbn [bind]; try reflexivity.
      now rewrite push_prepend.
Qed.

Lemma iterate_frame (L : list str) r n : forall i st,
  iterate L n i (prepend r st) = (st' <- iterate L n i st ;; Ok (prepend r st')).
Proof.
  induction n as [|n IH]; intros i st; cbn [iterate]; [reflexivity|].
  rewrite body_frame.
  destruct (body L i st) as [st1| |]; cbn [bind]; try reflexivity. apply IH.
Qed.

Lemma rev_last (l : list str) : l <> [] -> rev l = last l [] :: rev (removelast l).
Proof.
  intros H. rewrite (app_removelast_last [] H) at 1.
  now rewrite rev_app_distr.
Qed.

Lemma nth_error_last (l : list str) : l <> [] ->
  nth_error l (length l - 1) = Some (last l []).
Proof.
  intros H. rewrite (app_removelast_last [] H) at 1 2.
  rewrite length_app. cbn [length].
  rewrite nth_error_app2 by lia.
  replace (_ - _) with 0 by lia. reflexivity.
Qed.

(** X6. Rendering composes over a line break: when the last line of [a]
    is neither blank nor a list item, the fragments of [a], a newline and
    [b] are those of [a] followed by those of [b]. *)
Theorem render_concat (a b : str)
    (Hne : trim (lastLine a) <> [])
    (Hitem : isListItem (trim (lastLine a)) = false) :
  exists fa fb,
    fragments a = Ok fa /\ fragments b = Ok fb
    /\ fragments (a ++ NL ++ b) = Ok (fa ++ fb)
    /\ markdownToHtml (a ++ NL ++ b) = Ok (join fa ++ join fb).
Proof.
  pose proof (split_nl_nonempty a) as Ha.
  set (la := split_nl a) in *. set (lb := split_nl b).
  assert (Hla : length la <> 0) by (destruct la; [contradiction|discriminate]).
  destruct (iterate_total la (length la) 0 init) as [sa Hsa]; [lia|].
  destruct (iterate_total lb (length lb) 0 init) as [sb Hsb]; [lia|].
  assert (Hin : inList sa = false).
  { rewrite (state_after_inList a la [] sa); [| |exact Hsa].
    - unfold open_after. rewrite (rev_last la Ha). exact Hitem.
    - now rewrite app_nil_r. }
  assert (Esa : sa = prepend (result sa) init).
  { destruct sa as [r i]. cbn in Hin. subst i. unfold prepend. cbn.
    now rewrite app_nil_r. }
  assert (E1 : iterate (la ++ lb) (length la) 0 init = Ok sa).
  { rewrite <- Hsa. apply iterate_ext. intros j s Hj. cbn [Nat.add].
    apply body_ext.
    - now rewrite nth_error_app1 by exact Hj.
    - destruct (Nat.eq_dec j (length la - 1)) as [->|Hlt].
      + right. exists (lastLine a). split; [|exact Hne].
        rewrite nth_error_app1 by lia. now apply nth_error_last.
      + left. rewrite length_app.
        transitivity true; [|symmetry]; apply Nat.ltb_lt; lia. }
  assert (E2 : iterate (la ++ lb) (length lb) (length la) sa
               = Ok (prepend (result sa) sb)).
  { rewrite Esa at 1. rewrite iterate_frame.
    rewrite (iterate_ext (la ++ lb) lb _ (length la) 0 init).
    - now rewrite Hsb.
    - intros j s Hj. cbn [Nat.add]. apply body_ext.
      + rewrite nth_error_app2 by lia. f_equal. f_equal. lia.
      + left. rewrite length_app.
        destruct (Nat.ltb_spec j (length lb - 1)) as [H|H];
          [apply Nat.ltb_lt|apply Nat.ltb_ge]; lia. }
  assert (Ef : fragments (a ++ NL ++ b) = Ok (result sa ++ result (closeList sb))).
  { unfold fragments. cbv zeta. unfold NL. cbn [app].
    rewrite split_nl_app. fold la lb. rewrite length_app, iterate_add.
    rewrite E1. cbn [bind Nat.add]. rewrite E2. cbn [bind].
    now rewrite closeList_prepend. }
  exists (result sa), (result (closeList sb)). repeat split.
  - unfold fragments. cbv zeta. fold la. rewrite Hsa. cbn [bind].
    unfold closeList. now rewrite Hin.
  - unfold fragments. cbv zeta. fold lb. now rewrite Hsb.
  - exact Ef.
  - unfold markdownToHtml. rewrite Ef. cbn [bind]. unfold join.
    now rewrite concat_app.
Qed.

Lemma render_concat_witness :
  exists fa fb,
    fragments (lit "# t") = Ok fa /\ fragments (lit "- x") = Ok fb
    /\ fragments (lit "# t" ++ NL ++ lit "- x") = Ok (fa ++ fb)
    /\ markdownToHtml (lit "# t" ++ NL ++ lit "- x") = Ok (join fa ++ join fb).
Proof.
  apply (render_concat (lit "# t") (lit "- x")); [discriminate|reflexivity].
Defined.

(** * Properties of the API server *)

(** ** The matchers *)

Module PatternFacts.

Import Pattern.

Lemma find_atStart k s : forall i, find (atStart k) (S i) s = None.
Proof. induction s as [|c s IH]; intros i; simpl; [reflexivity|apply IH]. Qed.

(** A pattern that begins with [^] matches at index 0 or not at all. *)
Lemma find_anchored k s :
  find (atStart k) 0 s =
  match k (start 0 s) with Some r => Some (0, r) | None => None end.
Proof.
  destruct s as [|c s]; cbn [find]; unfold atStart at 1; cbn [idx start];
    destruct (k _); try reflexivity.
  apply find_atStart.
Qed.

(** [\s*] at the end of a pattern takes all the white space there is. *)
Lemma plusGreedy_white s : forall st,
  match plusGreedy isWhiteSpace Some s st with
  | Some r => rest r = trimStart s
  | None => trimStart s = s
  end.
Proof.
  induction s as [|c s IH]; intros st; cbn [plusGreedy trimStart]; [reflexivity|].
  destruct (isWhiteSpace c); [|reflexivity].
  specialize (IH (eat st s)).
  destruct (plusGreedy isWhiteSpace Some s (eat st s)); [exact IH|].
  cbn [rest eat]. now symmetry.
Qed.

Lemma star_white st :
  exists r, star isWhiteSpace Some st = Some r /\ rest r = trimStart (rest st).
Proof.
  unfold star. pose proof (plusGreedy_white (rest st) st) as H.
  destruct (plusGreedy isWhiteSpace Some (rest st) st) as [r|]; eauto.
Qed.

Lemma digit_not_white c : isDigit c = true -> isWhiteSpace c = false.
Proof.
  unfold isDigit, isWhiteSpace, isLineTerminator. intros H.
  apply andb_true_iff in H as [H1 H2].
  apply N.leb_le in H1. apply N.leb_le in H2. unfold char in *.
  repeat (apply orb_false_iff; split);
    try (apply N.eqb_neq; lia).
  apply andb_false_iff. left. apply N.leb_gt. lia.
Qed.

End PatternFacts.

(** ** POST /api/risk-score *)

Module RiskFacts.

Import Json Pattern PatternFacts Risk.

Local Open Scope Z_scope.

(** X7. The rule-based fallback decides the level from two fields only:
    HIGH when the data has PII and no controls, LOW when it has controls
    and no PII, MEDIUM otherwise; the country moves the score and never
    the level, and the score stays between 20 and 90. *)
Theorem fallback_level (data : value)
    (Hu : data <> VUndefined) (Hn : data <> VNull) :
  exists hasPII hasControls a,
    get (lit "hasPII") data = Ok hasPII
    /\ get (lit "hasControls") data = Ok hasControls
    /\ calculateFallbackScore data = Ok a
    /\ riskLevel a =
       (if truthy hasPII
        then if truthy hasControls then lit "MEDIUM" else lit "HIGH"
        else if truthy hasControls then lit "LOW" else lit "MEDIUM")
    /\ reasons a = [lit "Rule-based fallback"]
    /\ 20 <= score a <= 90.
Proof.
  assert (H : exists f, forall k, get k data = Ok (f k)).
  { destruct data; try contradiction;
      try (exists (fun _ => VUndefined); reflexivity).
    exists (fun k => prop k props). reflexivity. }
  destruct H as [f Hf].
  exists (f (lit "hasPII")), (f (lit "hasControls")).
  unfold calculateFallbackScore. rewrite !Hf. cbn [bind].
  eexists. split; [reflexivity|]. split; [reflexivity|]. split; [reflexivity|].
  cbn [riskLevel reasons score].
  destruct (truthy (f (lit "hasPII"))), (truthy (f (lit "hasControls"))),
    (isString (lit "USA") (f (lit "country")));
    (split; [reflexivity|split; [reflexivity|cbn; lia]]).
Qed.

Lemma fallback_level_witness :
  exists hasPII hasControls a,
    get (lit "hasPII") (VObject [(lit "hasPII", VBool true)]) = Ok hasPII
    /\ get (lit "hasControls") (VObject [(lit "hasPII", VBool true)])
       = Ok hasControls
    /\ calculateFallbackScore (VObject [(lit "hasPII", VBool true)]) = Ok a
    /\ riskLevel a =
       (if truthy hasPII
        then if truthy hasControls then lit "MEDIUM" else lit "HIGH"
        else if truthy hasControls then lit "LOW" else lit "MEDIUM")
    /\ reasons a = [lit "Rule-based fallback"]
    /\ 20 <= score a <= 90.
Proof.
  apply (fallback_level (VObject [(lit "hasPII", VBool true)])); discriminate.
Defined.

Lemma parseLevel_cases text :
  (parseLevel text = lit "HIGH" /\ score (analysed text) = 85)
  \/ (parseLevel text = lit "MEDIUM" /\ score (analysed text) = 55)
  \/ (parseLevel text = lit "LOW" /\ score (analysed text) = 25).
Proof.
  unfold analysed. cbn [score]. unfold parseLevel.
  destruct (includes (lit "HIGH") text); [left; split; reflexivity|].
  destruct (includes (lit "MEDIUM") text); right; [left|right]; split; reflexivity.
Qed.

Lemma failed_fallback msg data a :
  failed msg data = Ok a ->
  exists b, calculateFallbackScore data = Ok b
            /\ riskLevel a = riskLevel b /\ reasons a = reasons b
            /\ score a = score b.
Proof.
  unfold failed. destruct (calculateFallbackScore data) as [b| |]; try discriminate.
  cbn [bind]. intros [= <-]. exists b. repeat split.
Qed.

Lemma fallback_reasons data b :
  calculateFallbackScore data = Ok b -> reasons b = [lit "Rule-based fallback"].
Proof.
  unfold calculateFallbackScore.
  destruct (get (lit "hasPII") data) as [p| |]; try discriminate.
  destruct (get (lit "hasControls") data) as [c| |]; try discriminate.
  destruct (get (lit "country") data) as [n| |]; try discriminate.
  cbn [bind]. now intros [= <-].
Qed.

(** X8. In every response the level and the score agree with the
    thresholds of the fallback: HIGH goes with a score above 70, MEDIUM
    with one above 40 and at most 70, LOW with one of at most 40, whether
    the level was read off the text of the model or computed by the
    rules. *)
Theorem level_matches_score (got : str + str) (data : value) (a : assessment)
    (H : respond got data = Ok a) :
  (riskLevel a = lit "HIGH" /\ 70 < score a <= 90)
  \/ (riskLevel a = lit "MEDIUM" /\ 40 < score a <= 70)
  \/ (riskLevel a = lit "LOW" /\ 20 <= score a <= 40).
Proof.
  destruct got as [text|msg]; cbn [respond] in H.
  - injection H as <-.
    destruct (parseLevel_cases text) as [[Hl Hs]|[[Hl Hs]|[Hl Hs]]];
      change (riskLevel (analysed text)) with (parseLevel text);
      rewrite Hl, Hs; [left|right; left|right; right]; split;
      try reflexivity; lia.
  - apply failed_fallback in H as (b & Hb & -> & _ & ->).
    unfold calculateFallbackScore in Hb.
    destruct (get (lit "hasPII") data) as [p| |]; try discriminate.
    destruct (get (lit "hasControls") data) as [c| |]; try discriminate.
    destruct (get (lit "country") data) as [n| |]; try discriminate.
    cbn [bind] in Hb. injection Hb as <-. cbn [riskLevel score].
    destruct (truthy p), (truthy c), (isString _ n); cbn;
      try (left; split; [reflexivity|lia]);
      try (right; left; split; [reflexivity|lia]);
      right; right; (split; [reflexivity|lia]).
Qed.

Lemma level_matches_score_witness :
  exists a,
    respond (inr (lit "quota")) (VObject []) = Ok a
    /\ ((riskLevel a = lit "HIGH" /\ 70 < score a <= 90)
        \/ (riskLevel a = lit "MEDIUM" /\ 40 < score a <= 70)
        \/ (riskLevel a = lit "LOW" /\ 20 <= score a <= 40)).
Proof.
  eexists. split; [reflexivity|].
  apply (level_matches_score (inr (lit "quota")) (VObject [])). reflexivity.
Defined.

Lemma nonEmpty_spec r : nonEmpty r = true <-> r <> [].
Proof.
  unfold nonEmpty. destruct r; cbn; split; congruence.
Qed.

Lemma parseReasons_bounds text :
  (length (parseReasons text) <= 5)%nat
  /\ Forall (fun r => r <> []) (parseReasons text).
Proof.
  unfold parseReasons. split.
  - rewrite length_firstn. lia.
  - apply Forall_forall. intros r Hr. apply nonEmpty_spec.
    apply (In_nth _ _ []) in Hr as (n & Hn & <-).
    set (l := filter _ _) in *.
    assert (Hin : In (nth n (firstn 5 l) []) l).
    { rewrite length_firstn in Hn. rewrite nth_firstn.
      destruct (Nat.ltb_spec n 5); [|lia]. apply nth_In. lia. }
    now apply filter_In in Hin.
Qed.

(** X9. Every response carries between one and five reasons, and none
    of them is the empty string. *)
Theorem reasons_bounds (got : str + str) (data : value) (a : assessment)
    (H : respond got data = Ok a) :
  (1 <= length (reasons a) <= 5)%nat /\ Forall (fun r => r <> []) (reasons a).
Proof.
  destruct got as [text|msg]; cbn [respond] in H.
  - injection H as <-. unfold analysed. cbn [reasons].
    destruct (parseReasons_bounds text) as [Hl Hf].
    destruct (Nat.ltb_spec 0 (length (parseReasons text))) as [Hp|Hp].
    + split; [lia|exact Hf].
    + split; [cbn; lia|]. repeat constructor. discriminate.
  - apply failed_fallback in H as (b & Hb & _ & -> & _).
    rewrite (fallback_reasons _ _ Hb).
    split; [cbn; lia|]. repeat constructor. discriminate.
Qed.

Lemma reasons_bounds_witness :
  (1 <= length (reasons (analysed (lit "- a"))) <= 5)%nat
  /\ Forall (fun r => r <> []) (reasons (analysed (lit "- a"))).
Proof.
  apply (reasons_bounds (inl (lit "- a")) (VObject [])). reflexivity.
Defined.

(** What [numberedRe] accepts: a digit, then a digit or a period. *)
Lemma plus_digit_dot s : forall st r,
  plusGreedy isDigit (chr (fun c => c =? 46)%N Some) s st = Some r ->
  exists d c s', s = d :: c :: s' /\ isDigit d = true
                 /\ (isDigit c || (c =? 46)%N) = true.
Proof.
  induction s as [|d s IH]; intros st r; cbn [plusGreedy]; [discriminate|].
  destruct (isDigit d) eqn:Hd; [|discriminate].
  destruct (plusGreedy isDigit _ s (eat st s)) as [r'|] eqn:Hr.
  - intros _. destruct (IH _ _ Hr) as (d' & c & s' & -> & Hd' & _).
    exists d, d', (c :: s'). rewrite Hd'. now repeat split.
  - unfold chr. cbn [rest eat]. destruct s as [|c s']; [discriminate|].
    destruct (c =? 46)%N eqn:Hc; [|discriminate]. intros _.
    exists d, c, s'. rewrite Hc, orb_true_r. now repeat split.
Qed.

Lemma numbered_shape t :
  exec numberedRe t <> None ->
  exists d c s', t = d :: c :: s' /\ isDigit d = true
                 /\ (isDigit c || (c =? 46)%N) = true.
Proof.
  unfold exec, numberedRe. rewrite find_anchored. unfold plus. cbn [rest start].
  destruct (plusGreedy _ _ t (start 0 t)) as [r|] eqn:Hr; [|now intros []].
  intros _. exact (plus_digit_dot _ _ _ Hr).
Qed.

Lemma digit_is_marker c : isDigit c = true -> isMarker c = true.
Proof. unfold isMarker. intros ->. now rewrite orb_true_r. Qed.

(** What [cleanLine] takes away when the class matches: one character
    and the white space after it. *)
Lemma replace_marker c s :
  isMarker c = true -> replaceFirst markerRe [] (c :: s) = trimStart s.
Proof.
  intros Hc. unfold replaceFirst, markerRe. rewrite find_anchored.
  unfold chr at 1. cbn [rest start]. rewrite Hc.
  destruct (star_white (eat (start 0 (c :: s)) s)) as (r & -> & Hr).
  cbn [firstn app]. exact Hr.
Qed.

Lemma isReasonLine_cases l :
  isReasonLine l = true ->
  (exists s, trim l = 45%N :: s) \/ exec numberedRe (trim l) <> None.
Proof.
  unfold isReasonLine. intros H. apply orb_true_iff in H as [H|H].
  - left. apply startsWith_spec in H as [s Hs]. now exists s.
  - right. now destruct (exec numberedRe (trim l)).
Qed.

Lemma cleanLine_numbered l :
  exec numberedRe (trim l) <> None ->
  cleanLine l = tl (trim l) /\ cleanLine l <> [].
Proof.
  unfold cleanLine.
  intros Hn. destruct (numbered_shape _ Hn) as (d & c & s' & -> & Hd & Hc).
  rewrite (replace_marker d (c :: s') (digit_is_marker d Hd)).
  cbn [tl trimStart].
  assert (Hw : isWhiteSpace c = false).
  { apply orb_true_iff in Hc as [Hc|Hc]; [now apply digit_not_white|].
    apply N.eqb_eq in Hc. now subst c. }
  rewrite Hw. split; [reflexivity|discriminate].
Qed.

(** X10. From a line that is kept as a reason, one character and the
    white space after it are taken away, and no more: of a numbered line
    such as [12. text] the first digit goes, and the other digits and the
    period stay. *)
Theorem reason_marker (l : str) (H : isReasonLine l = true) :
  cleanLine l = trimStart (tl (trim l))
  /\ (exec numberedRe (trim l) <> None ->
      cleanLine l = tl (trim l) /\ cleanLine l <> []).
Proof.
  split; [|apply cleanLine_numbered].
  unfold cleanLine. destruct (isReasonLine_cases l H) as [[s ->]|Hn].
  - now apply replace_marker.
  - destruct (numbered_shape _ Hn) as (d & c & s' & -> & Hd & _).
    apply replace_marker. now apply digit_is_marker.
Qed.

Lemma reason_marker_witness :
  cleanLine (lit "12. Encrypt backups") = lit "2. Encrypt backups".
Proof.
  destruct (reason_marker (lit "12. Encrypt backups")) as [_ H];
    [reflexivity|].
  destruct H as [H _]; [discriminate|]. exact H.
Defined.

Lemma filter_all {A} (f : A -> bool) (l : list A) :
  Forall (fun x => f x = true) l -> filter f l = l.
Proof.
  induction 1 as [|x l Hx Hl IH]; cbn [filter]; [reflexivity|].
  now rewrite Hx, IH.
Qed.

(** X11. A text of numbered lines gives as its reasons the first five
    lines, each trimmed and without its first character: [1. A] comes
    back as [. A]. *)
Theorem numbered_reasons (text : str)
    (H : Forall (fun l => exec numberedRe (trim l) <> None) (split_nl text)) :
  parseReasons text = firstn 5 (map (fun l => tl (trim l)) (split_nl text)).
Proof.
  unfold parseReasons. rewrite (filter_all isReasonLine).
  - rewrite (filter_all nonEmpty).
    + f_equal. apply map_ext_in. intros l Hl.
      rewrite Forall_forall in H. now apply cleanLine_numbered, H.
    + apply Forall_forall. intros r Hr. apply in_map_iff in Hr as (l & <- & Hl).
      rewrite Forall_forall in H. apply nonEmpty_spec.
      now apply cleanLine_numbered, H.
  - eapply Forall_impl; [|exact H]. intros l Hl. unfold isReasonLine.
    cbv beta in Hl.
    destruct (exec numberedRe (trim l)) eqn:E; [apply orb_true_r|congruence].
Qed.

Lemma numbered_reasons_witness :
  parseReasons (lit "1. A" ++ NL ++ lit " 2. B")
  = [lit ". A"; lit ". B"].
Proof.
  apply (numbered_reasons (lit "1. A" ++ NL ++ lit " 2. B")).
  repeat constructor; discriminate.
Defined.

End RiskFacts.

(** ** The entities in memory *)

Module EntitiesFacts.

Import Json Entities.

Lemma lookup_app k (a b : object) :
  lookup k (a ++ b) =
  match lookup k b with Some v => Some v | None => lookup k a end.
Proof.
  induction a as [|[k' v] a IH]; cbn [app lookup].
  - now destruct (lookup k b).
  - rewrite IH. destruct (lookup k b); [reflexivity|].
    now destruct (lookup k a).
Qed.

Lemma lookup_single k k' v :
  lookup k [(k', v)] = if str_eq_dec k' k then Some v else None.
Proof. reflexivity. Qed.

Lemma findIndex_find f (es : store) i :
  findIndex f es = Some i ->
  i < length es /\ find f es = Some (nth i es []) /\ f (nth i es []) = true.
Proof.
  revert i. induction es as [|e es IH]; intros i; cbn [findIndex find];
    [discriminate|].
  destruct (f e) eqn:He.
  - intros [= <-]. cbn. repeat split; [lia|exact He].
  - destruct (findIndex f es) as [j|]; [|discriminate]. intros [= <-].
    destruct (IH j eq_refl) as (Hj & Hf & Ht). cbn [length nth].
    repeat split; [lia|exact Hf|exact Ht].
Qed.

Lemma find_findIndex f (es : store) e :
  find f es = Some e -> exists i, findIndex f es = Some i /\ nth i es [] = e.
Proof.
  induction es as [|e' es IH]; cbn [findIndex find]; [discriminate|].
  destruct (f e').
  - intros [= <-]. now exists 0.
  - intros H. destruct (IH H) as (i & -> & Hi). now exists (S i).
Qed.

Lemma findIndex_none f (es : store) :
  findIndex f es = None <-> find f es = None.
Proof.
  induction es as [|e es IH]; cbn [findIndex find]; [tauto|].
  destruct (f e); [split; discriminate|].
  destruct (findIndex f es); cbn; split; try discriminate; try tauto.
  intros H. apply IH in H. discriminate.
Qed.

(** The entity written over the first match is then the first match. *)
Lemma find_assign f (es : store) i e :
  findIndex f es = Some i -> f e = true -> find f (assign i e es) = Some e.
Proof.
  revert i. induction es as [|e' es IH]; intros i; cbn [findIndex];
    [discriminate|].
  destruct (f e') eqn:He'.
  - intros [= <-] He. cbn [assign find]. now rewrite He.
  - destruct (findIndex f es) as [j|]; [|discriminate]. intros [= <-] He.
    cbn [assign find]. rewrite He'. now apply IH.
Qed.

Lemma length_assign i e (es : store) : length (assign i e es) = length es.
Proof.
  revert i. induction es as [|e' es IH]; intros [|i]; cbn [assign length];
    try reflexivity. now rewrite IH.
Qed.

Lemma nth_error_assign i j e (es : store) :
  j <> i -> nth_error (assign i e es) j = nth_error es j.
Proof.
  revert i j. induction es as [|e' es IH]; intros [|i] [|j] H;
    cbn [assign nth_error]; try reflexivity; [contradiction|].
  apply IH. congruence.
Qed.

Lemma find_snoc f (es : store) e :
  find f (es ++ [e]) =
  match find f es with
  | Some old => Some old
  | None => if f e then Some e else None
  end.
Proof.
  induction es as [|e' es IH]; cbn [app find]; [reflexivity|].
  now destruct (f e').
Qed.

Lemma hasId_spec id e : hasId id e = true <-> prop (lit "id") e = VString id.
Proof.
  unfold hasId, isString. destruct (prop (lit "id") e); try (split; discriminate).
  destruct (str_eq_dec s id) as [->|Hn]; split; try reflexivity;
    try discriminate. intros [= ->]. contradiction.
Qed.

(** The object a POST makes has the id of the server when the body has
    none. *)
Lemma post_id now c u body :
  lookup (lit "id") (ownProps body) = None ->
  prop (lit "id")
    ([ (lit "id", VString (lit "entity-" ++ decimal now));
       (lit "createdAt", VString c); (lit "lastUpdated", VString u) ]
     ++ ownProps body)
  = VString (lit "entity-" ++ decimal now).
Proof. intros H. unfold prop. rewrite lookup_app, H. reflexivity. Qed.

(** The entity an id finds after a POST: an older one with that id if
    there is one. *)
Lemma get_after_post now c u body es :
  lookup (lit "id") (ownProps body) = None ->
  getEntity (lit "entity-" ++ decimal now)
    (fst (postEntity now c u body es))
  = match getEntity (lit "entity-" ++ decimal now) es with
    | Found old => Found old
    | NotFound => snd (postEntity now c u body es)
    end.
Proof.
  intros H. unfold getEntity, postEntity. cbn [fst snd]. rewrite find_snoc.
  destruct (find _ es); [reflexivity|].
  set (e := _ ++ ownProps body).
  assert (He : hasId (lit "entity-" ++ decimal now) e = true)
    by now apply hasId_spec, post_id.
  now rewrite He.
Qed.

(** X12. An id that no entity has: GET answers 404, and so does PUT,
    which leaves the array as it was. *)
Theorem unknown_id (id stamp : str) (body : value) (es : store)
    (H : Forall (fun e => prop (lit "id") e <> VString id) es) :
  getEntity id es = NotFound /\ putEntity id stamp body es = (es, NotFound).
Proof.
  assert (Hf : find (hasId id) es = None).
  { induction H as [|e es He _ IH]; cbn [find]; [reflexivity|].
    destruct (hasId id e) eqn:E; [|exact IH].
    apply hasId_spec in E. contradiction. }
  unfold getEntity, putEntity. rewrite Hf.
  apply findIndex_none in Hf. now rewrite Hf.
Qed.

Lemma unknown_id_witness :
  getEntity (lit "e1") [[(lit "id", VString (lit "e2"))]] = NotFound
  /\ putEntity (lit "e1") (lit "now") VNull [[(lit "id", VString (lit "e2"))]]
     = ([[(lit "id", VString (lit "e2"))]], NotFound).
Proof.
  apply (unknown_id (lit "e1") (lit "now") VNull
           [[(lit "id", VString (lit "e2"))]]).
  repeat constructor. discriminate.
Defined.

(** X13. PUT then GET: when the id is found and the body has no [id],
    the PUT answers with the updated entity and a GET of the id then
    gives that entity.  Its [lastUpdated] is the time of the server, every
    other property is that of the body if the body has it and that of the
    old entity if not, and the other entities of the array are as they
    were. *)
Theorem put_then_get (id stamp : str) (body : value) (es : store)
    (old : object)
    (Hold : getEntity id es = Found old)
    (Hid : lookup (lit "id") (ownProps body) = None) :
  exists e i,
    snd (putEntity id stamp body es) = Found e
    /\ getEntity id (fst (putEntity id stamp body es)) = Found e
    /\ prop (lit "lastUpdated") e = VString stamp
    /\ (forall k, k <> lit "lastUpdated" ->
          prop k e = match lookup k (ownProps body) with
                     | Some v => v
                     | None => prop k old
                     end)
    /\ length (fst (putEntity id stamp body es)) = length es
    /\ nth_error es i = Some old
    /\ forall j, j <> i ->
         nth_error (fst (putEntity id stamp body es)) j = nth_error es j.
Proof.
  unfold getEntity in Hold.
  destruct (find (hasId id) es) as [o|] eqn:Hf; [|discriminate].
  injection Hold as ->.
  destruct (find_findIndex _ _ _ Hf) as (i & Hi & Hn).
  destruct (findIndex_find _ _ _ Hi) as (Hlt & _ & Ht). rewrite Hn in Ht.
  unfold putEntity. rewrite Hi, Hn. cbn [fst snd].
  set (e := old ++ ownProps body ++ [(lit "lastUpdated", VString stamp)]).
  assert (Hk : forall k, k <> lit "lastUpdated" ->
            prop k e = match lookup k (ownProps body) with
                       | Some v => v
                       | None => prop k old
                       end).
  { intros k Hk. unfold prop, e. rewrite !lookup_app, lookup_single.
    destruct (str_eq_dec (lit "lastUpdated") k) as [E|_]; [now elim Hk|].
    now destruct (lookup k (ownProps body)). }
  exists e, i. repeat split.
  - unfold getEntity. rewrite (find_assign _ _ _ e Hi); [reflexivity|].
    apply hasId_spec. rewrite Hk by discriminate. rewrite Hid.
    now apply hasId_spec.
  - unfold prop, e. now rewrite !lookup_app, lookup_single.
  - exact Hk.
  - apply length_assign.
  - rewrite <- Hn. apply nth_error_nth'. exact Hlt.
  - intros j Hj. now apply nth_error_assign.
Qed.

Lemma put_then_get_witness :
  exists e i,
    snd (putEntity (lit "e1") (lit "t1") (VObject [(lit "n", VNull)])
           [[(lit "id", VString (lit "e1"))]]) = Found e
    /\ getEntity (lit "e1")
         (fst (putEntity (lit "e1") (lit "t1") (VObject [(lit "n", VNull)])
                 [[(lit "id", VString (lit "e1"))]])) = Found e
    /\ prop (lit "lastUpdated") e = VString (lit "t1")
    /\ (forall k, k <> lit "lastUpdated" ->
          prop k e = match lookup k (ownProps (VObject [(lit "n", VNull)])) with
                     | Some v => v
                     | None => prop k [(lit "id", VString (lit "e1"))]
                     end)
    /\ length (fst (putEntity (lit "e1") (lit "t1")
                      (VObject [(lit "n", VNull)])
                      [[(lit "id", VString (lit "e1"))]])) = 1
    /\ nth_error [[(lit "id", VString (lit "e1"))]] i
       = Some [(lit "id", VString (lit "e1"))]
    /\ forall j, j <> i ->
         nth_error (fst (putEntity (lit "e1") (lit "t1")
                           (VObject [(lit "n", VNull)])
                           [[(lit "id", VString (lit "e1"))]])) j
         = nth_error [[(lit "id", VString (lit "e1"))]] j.
Proof.
  apply (put_then_get (lit "e1") (lit "t1") (VObject [(lit "n", VNull)])
           [[(lit "id", VString (lit "e1"))]]
           [(lit "id", VString (lit "e1"))]); reflexivity.
Defined.

(** X14. POST then GET, for a body that has no [id] of its own: the new
    entity is added at the end of the array under the id [entity-<now>],
    and a GET of that id gives it only when no older entity has the id;
    when one has, the GET gives the older one. *)
Theorem post_then_get (now : N) (createdAt lastUpdated : str) (body : value)
    (es : store)
    (Hid : lookup (lit "id") (ownProps body) = None) :
  exists e,
    postEntity now createdAt lastUpdated body es = (es ++ [e], Found e)
    /\ prop (lit "id") e = VString (lit "entity-" ++ decimal now)
    /\ getEntity (lit "entity-" ++ decimal now) (es ++ [e])
       = match getEntity (lit "entity-" ++ decimal now) es with
         | Found older => Found older
         | NotFound => Found e
         end.
Proof.
  eexists. split; [reflexivity|]. split; [now apply post_id|].
  exact (get_after_post now createdAt lastUpdated body es Hid).
Qed.

Lemma post_then_get_witness :
  exists e,
    postEntity 5 (lit "t") (lit "t") (VObject []) [] = ([] ++ [e], Found e)
    /\ prop (lit "id") e = VString (lit "entity-" ++ decimal 5)
    /\ getEntity (lit "entity-" ++ decimal 5) ([] ++ [e])
       = match getEntity (lit "entity-" ++ decimal 5) [] with
         | Found older => Found older
         | NotFound => Found e
         end.
Proof.
  apply (post_then_get 5 (lit "t") (lit "t") (VObject []) []). reflexivity.
Defined.

(** X15. Two POSTs in the same millisecond, with bodies that have no
    [id] of their own, when no older entity has the id of that
    millisecond: both entities are added, under the same id, and the
    second is hidden: the GET of the id gives the first. *)
Theorem same_millisecond (now : N) (c1 u1 c2 u2 : str) (b1 b2 : value)
    (es : store)
    (H1 : lookup (lit "id") (ownProps b1) = None)
    (H2 : lookup (lit "id") (ownProps b2) = None)
    (Hnew : getEntity (lit "entity-" ++ decimal now) es = NotFound) :
  let first := postEntity now c1 u1 b1 es in
  let second := postEntity now c2 u2 b2 (fst first) in
  length (fst second) = length es + 2
  /\ getEntity (lit "entity-" ++ decimal now) (fst second) = snd first.
Proof.
  cbv zeta. split.
  - unfold postEntity. cbn [fst]. rewrite !length_app. cbn [length]. lia.
  - rewrite (get_after_post now c2 u2 b2 _ H2).
    rewrite (get_after_post now c1 u1 b1 es H1). rewrite Hnew.
    reflexivity.
Qed.

Lemma same_millisecond_witness :
  let first := postEntity 5 (lit "t") (lit "t") (VObject [(lit "n", VBool true)]) [] in
  let second := postEntity 5 (lit "t") (lit "t") (VObject [(lit "n", VBool false)])
                  (fst first) in
  length (fst second) = length (@nil object) + 2
  /\ getEntity (lit "entity-" ++ decimal 5) (fst second) = snd first.
Proof.
  apply (same_millisecond 5 (lit "t") (lit "t") (lit "t") (lit "t")
           (VObject [(lit "n", VBool true)])
           (VObject [(lit "n", VBool false)]) []); reflexivity.
Defined.

(** X16. A POST takes every property of the body as it is, the id and
    the two dates included; a PUT takes them too, except [lastUpdated],
    which is always the time of the server. *)
Theorem body_overrides (now : N) (createdAt lastUpdated id : str)
    (body : value) (es : store) (k : str) (v : value)
    (H : lookup k (ownProps body) = Some v) :
  (exists e, snd (postEntity now createdAt lastUpdated body es) = Found e
             /\ prop k e = v)
  /\ (forall e, snd (putEntity id lastUpdated body es) = Found e ->
        prop (lit "lastUpdated") e = VString lastUpdated
        /\ (k <> lit "lastUpdated" -> prop k e = v)).
Proof.
  split.
  - eexists. split; [reflexivity|]. unfold prop. now rewrite lookup_app, H.
  - unfold putEntity. destruct (findIndex (hasId id) es) as [i|];
      [|discriminate].
    cbn [snd]. intros e [= <-]. unfold prop.
    rewrite !lookup_app, !lookup_single. split; [reflexivity|]. intros Hk.
    destruct (str_eq_dec _ k) as [E|_]; [now elim Hk|].
    now rewrite H.
Qed.

Lemma body_overrides_witness :
  (exists e, snd (postEntity 5 (lit "t") (lit "t")
                    (VObject [(lit "id", VString (lit "mine"))]) []) = Found e
             /\ prop (lit "id") e = VString (lit "mine"))
  /\ (forall e, snd (putEntity (lit "x") (lit "t")
                       (VObject [(lit "id", VString (lit "mine"))]) [])
                = Found e ->
        prop (lit "lastUpdated") e = VString (lit "t")
        /\ (lit "id" <> lit "lastUpdated" ->
            prop (lit "id") e = VString (lit "mine"))).
Proof.
  apply (body_overrides 5 (lit "t") (lit "t") (lit "x")
           (VObject [(lit "id", VString (lit "mine"))]) []
           (lit "id") (VString (lit "mine"))).
  reflexivity.
Defined.

End EntitiesFacts.

(** ** POST /api/pm/strategy *)

Module StrategyFacts.

Import Strategy.

Lemma calls_app (a b : list event) : calls (a ++ b) = calls a + calls b.
Proof. unfold calls. rewrite filter_app, length_app. reflexivity. Qed.

Lemma slept_app (a b : list event) : slept (a ++ b) = (slept a + slept b)%N.
Proof.
  induction a as [|[|ms|status|] a IH]; cbn [app slept]; rewrite ?IH; lia.
Qed.

Lemma responses_app (a b : list event) :
  responses (a ++ b) = responses a ++ responses b.
Proof.
  induction a as [|[|ms|status|] a IH]; cbn [app responses]; rewrite ?IH;
    reflexivity.
Qed.

Lemma answered_app (pre tr : list event) :
  responses pre = [] -> answered tr -> answered (pre ++ tr).
Proof.
  intros Hpre (tr0 & status & -> & H0 & Hs).
  exists (pre ++ tr0), status. rewrite app_assoc. split; [reflexivity|].
  split; [|exact Hs]. rewrite responses_app, Hpre, H0. reflexivity.
Qed.

Lemma answered_one (pre : list event) (status : N) :
  responses pre = [] -> status = 200%N \/ status = 500%N ->
  answered (pre ++ [Respond status]).
Proof. intros Hpre Hs. exists pre, status. auto. Qed.

Lemma before_bounds (called : bool) :
  calls (if called then [CallModel] else []) <= 1
  /\ slept (if called then [CallModel] else []) = 0%N
  /\ responses (if called then [CallModel] else []) = [].
Proof. destruct called; cbn; auto. Qed.

(** The catch block, when the rest of the loop is bounded: [last] says
    that no pass follows. *)
Lemma caught_bounded (retry : nat -> outcome (list event))
    (called : bool) (test : option bool) (printable : bool) (k n : nat) :
  k + S n = 3 ->
  (n <> 0 ->
   exists tr, retry (S k) = Ok tr
     /\ calls tr <= n /\ (slept tr <= budget (S k))%N
     /\ (responses tr = [] \/ answered tr)) ->
  exists tr, caught retry called test printable k = Ok tr
    /\ calls tr <= S n /\ (slept tr <= budget k)%N
    /\ (responses tr = [] \/ answered tr).
Proof.
  intros Hk Hretry. unfold caught.
  destruct (before_bounds called) as (Hc & Hs & Hr).
  destruct test as [parse|].
  2:{ eexists. split; [reflexivity|]. rewrite calls_app, slept_app,
        responses_app, Hs, Hr. cbn. repeat split; try lia. now left. }
  destruct n as [|n].
  - assert (k = 2) by lia. subst k. cbn [maxRetries Nat.ltb Nat.leb].
    rewrite andb_false_r.
    eexists. split; [reflexivity|]. rewrite calls_app, slept_app, Hs.
    split; [destruct printable; cbn; lia|].
    split; [destruct printable; cbn; lia|].
    destruct printable.
    + right. apply answered_one; auto.
    + left. rewrite responses_app, Hr. reflexivity.
  - destruct (Hretry ltac:(discriminate)) as (tr & E & Hc' & Hs' & Hr').
    assert (Hlt : Nat.ltb (S k) maxRetries = true)
      by (apply Nat.ltb_lt; unfold maxRetries; lia).
    assert (Hle : Nat.leb maxRetries (S k) = false)
      by (apply Nat.leb_gt; unfold maxRetries; lia).
    rewrite Hlt, Hle, andb_true_r, E. cbn [bind].
    destruct parse.
    + eexists. split; [reflexivity|].
      rewrite calls_app, slept_app, Hs.
      change (calls (Sleep (1000 * N.of_nat (S k)) :: tr)) with (calls tr).
      cbn [slept].
      split; [lia|].
      split; [destruct k as [|[|k]]; cbn [budget] in *; lia|].
      destruct Hr' as [Hr'|Hr'].
      * left. rewrite responses_app, Hr. cbn. exact Hr'.
      * right. apply answered_app; [exact Hr|].
        apply (answered_app [Sleep _]); [reflexivity|exact Hr'].
    + eexists. split; [reflexivity|].
      rewrite calls_app, slept_app, Hs.
      split; [lia|].
      split; [destruct k as [|[|k]]; cbn [budget] in *; lia|].
      destruct Hr' as [Hr'|Hr'].
      * left. rewrite responses_app, Hr. exact Hr'.
      * right. apply answered_app; assumption.
Qed.

(** The loop from the pass [k], with [S n] passes left. *)
Lemma loop_bounded (attempts : nat -> attempt) (n : nat) :
  forall k fuel, k + S n = 3 -> S n <= fuel ->
  exists tr, loop fuel attempts k = Ok tr
    /\ calls tr <= S n /\ (slept tr <= budget k)%N
    /\ (responses tr = [] \/ answered tr).
Proof.
  induction n as [|n IH]; intros k fuel Hk Hf;
    (destruct fuel as [|fuel]; [lia|]); cbn [loop];
    (assert (Hlt : Nat.ltb k maxRetries = true)
       by (apply Nat.ltb_lt; unfold maxRetries; lia)); rewrite Hlt;
    destruct (attempts k) as [| |c m|c t p|].
  all: try (eexists; split; [reflexivity|]; cbn;
            repeat split; try lia;
            first [now left
                  | right; apply (answered_one []); auto
                  | right; apply (answered_one [CallModel]); auto]).
  all: apply caught_bounded; try assumption; intros Hn;
    try congruence; apply IH; lia.
Qed.

(** The same loop when every pass answers. *)
Lemma caught_answered (retry : nat -> outcome (list event))
    (called : bool) (parse printable : bool) (k n : nat) :
  k + S n = 3 ->
  (n = 0 -> printable = true) ->
  (n <> 0 -> exists tr, retry (S k) = Ok tr /\ answered tr) ->
  exists tr, caught retry called (Some parse) printable k = Ok tr
    /\ answered tr.
Proof.
  intros Hk Hp Hretry. unfold caught.
  destruct (before_bounds called) as (Hc & Hs & Hr).
  destruct n as [|n].
  - assert (k = 2) by lia. subst k. cbn [maxRetries Nat.ltb Nat.leb].
    rewrite andb_false_r, (Hp eq_refl).
    eexists. split; [reflexivity|]. apply answered_one; auto.
  - destruct (Hretry ltac:(discriminate)) as (tr & E & Ha).
    assert (Hlt : Nat.ltb (S k) maxRetries = true)
      by (apply Nat.ltb_lt; unfold maxRetries; lia).
    assert (Hle : Nat.leb maxRetries (S k) = false)
      by (apply Nat.leb_gt; unfold maxRetries; lia).
    rewrite Hlt, Hle, andb_true_r, E. cbn [bind].
    destruct parse; (eexists; split; [reflexivity|]).
    + apply answered_app; [exact Hr|].
      apply (answered_app [Sleep _]); [reflexivity|exact Ha].
    + apply answered_app; assumption.
Qed.

Lemma loop_answered (attempts : nat -> attempt) (n : nat)
    (Hall : forall i, i < maxRetries -> answers (attempts i) = true) :
  forall k fuel, k + S n = 3 -> S n <= fuel ->
  exists tr, loop fuel attempts k = Ok tr /\ answered tr.
Proof.
  induction n as [|n IH]; intros k fuel Hk Hf;
    (destruct fuel as [|fuel]; [lia|]); cbn [loop];
    (assert (Hlt : Nat.ltb k maxRetries = true)
       by (apply Nat.ltb_lt; unfold maxRetries; lia)); rewrite Hlt;
    (assert (Ha : answers (attempts k) = true)
       by (apply Hall; unfold maxRetries; lia));
    destruct (attempts k) as [| |c m|c [parse|] p|];
    cbn [answers] in Ha; try discriminate Ha.
  all: try (eexists; split; [reflexivity|];
            first [apply (answered_one []); auto
                  | apply (answered_one [CallModel]); auto]).
  all: match goal with
       | IH' : forall k fuel, _ |- exists tr, caught _ _ _ _ ?k = _ /\ _ =>
           apply (caught_answered _ _ _ _ k (S n)); try assumption;
           try discriminate; try reflexivity; intros _; apply IH'; lia
       | |- exists tr, caught _ _ _ _ ?k = _ /\ _ =>
           apply (caught_answered _ _ _ _ k 0); try assumption;
           try (intros _; assumption); try reflexivity; congruence
       end.
Qed.

(** X17. Whatever the passes do, and whatever they throw, the run of the
    handler is finite: it calls the model three times at most, sleeps
    three seconds at most, and sends one response at most, with the status
    200 or 500, as the last thing it does.  It sends that response when
    every pass answers: none hangs on the model, and none throws a value
    on which the catch block itself throws.  When a pass throws a value
    without a message, the handler ends with that second error and sends
    nothing. *)
Theorem strategy_bounded (attempts : nat -> attempt) :
  (exists tr,
     strategy attempts = Ok tr
     /\ calls tr <= 3
     /\ (slept tr <= 3000)%N
     /\ (responses tr = []
         \/ exists tr0 status,
              tr = tr0 ++ [Respond status]
              /\ responses tr0 = []
              /\ (status = 200%N \/ status = 500%N)))
  /\ ((forall i, i < maxRetries -> answers (attempts i) = true) ->
      exists tr0 status,
        strategy attempts = Ok (tr0 ++ [Respond status])
        /\ responses tr0 = []
        /\ (status = 200%N \/ status = 500%N))
  /\ strategy (fun _ => ThrownOther true None true) = Ok [CallModel; Throw]
  /\ strategy (fun _ => Pending) = Ok [CallModel].
Proof.
  split; [|split; [|split; reflexivity]].
  - destruct (loop_bounded attempts 2 0 (S maxRetries)) as (tr & E & H);
      [reflexivity|unfold maxRetries; lia|].
    exists tr. split; [exact E|]. exact H.
  - intros Hall.
    destruct (loop_answered attempts 2 Hall 0 (S maxRetries))
      as (tr & E & tr0 & status & -> & H);
      [reflexivity|unfold maxRetries; lia|].
    exists tr0, status. split; [exact E|]. exact H.
Qed.

Lemma strategy_bounded_witness :
  exists tr0 status,
    strategy (fun i => match i with
                       | 0 => Thrown true (lit "Unexpected token < in JSON")
                       | 1 => ThrownOther true (Some false) true
                       | _ => Thrown false (lit "fetch failed")
                       end)
    = Ok (tr0 ++ [Respond status])
    /\ responses tr0 = []
    /\ (status = 200%N \/ status = 500%N).
Proof.
  apply (strategy_bounded
           (fun i => match i with
                     | 0 => Thrown true (lit "Unexpected token < in JSON")
                     | 1 => ThrownOther true (Some false) true
                     | _ => Thrown false (lit "fetch failed")
                     end)).
  intros [|[|i]] _; reflexivity.
Defined.

(** X18. Every error is tried again, not only an error of parsing: when
    the passes before the pass [k] throw, whatever their messages, and the
    pass [k] sends the brief, the response is the brief.  Only after an
    error of parsing does the handler wait, one second times the number
    of the pass. *)
Theorem every_error_retried (attempts : nat -> attempt) (k : nat)
    (Hk : k < maxRetries)
    (Hthrown : forall i, i < k -> exists c m, attempts i = Thrown c m)
    (Hsent : attempts k = Sent) :
  exists tr,
    strategy attempts = Ok (tr ++ [Respond 200%N])
    /\ responses tr = []
    /\ slept tr = delays attempts k.
Proof.
  unfold maxRetries in Hk.
  destruct k as [|[|[|k]]]; [| | |lia].
  - unfold strategy. cbn [loop maxRetries Nat.ltb Nat.leb]. rewrite Hsent.
    sends.
  - destruct (Hthrown 0 ltac:(lia)) as (c0 & m0 & E0).
    unfold strategy. cbn [loop caught maxRetries Nat.ltb Nat.leb delays].
    unfold delay. rewrite E0, Hsent.
    destruct c0, (isParseError m0); cbn [andb bind app];
      sends.
  - destruct (Hthrown 0 ltac:(lia)) as (c0 & m0 & E0).
    destruct (Hthrown 1 ltac:(lia)) as (c1 & m1 & E1).
    unfold strategy. cbn [loop caught maxRetries Nat.ltb Nat.leb delays].
    unfold delay. rewrite E0, E1, Hsent.
    destruct c0, (isParseError m0), c1, (isParseError m1); cbn [andb bind app];
      sends.
Qed.

Lemma every_error_retried_witness :
  exists tr,
    strategy (fun i => match i with
                       | 0 => Thrown true (lit "fetch failed")
                       | _ => Sent
                       end)
    = Ok (tr ++ [Respond 200%N])
    /\ responses tr = []
    /\ slept tr
       = delays (fun i => match i with
                          | 0 => Thrown true (lit "fetch failed")
                          | _ => Sent
                          end) 1.
Proof.
  apply (every_error_retried
           (fun i => match i with
                     | 0 => Thrown true (lit "fetch failed")
                     | _ => Sent
                     end) 1).
  - unfold maxRetries. lia.
  - intros i Hi. replace i with 0 by lia. eauto.
  - reflexivity.
Defined.

End StrategyFacts.

(** ** createEventsInGoogleCalendar *)

Module CalendarFacts.

Import Json Calendar.

Lemma pass_cases inserted i event t :
  match pass inserted i event t with
  | Ok t' => created t' = created t + length (linkOf inserted i)
             /\ eventLinks t' = eventLinks t ++ linkOf inserted i
  | TypeError => nullish event
  | OutOfFuel => False
  end.
Proof.
  unfold pass, linkOf, nullish.
  destruct event; cbn [get bind]; try tauto;
    destruct (inserted i) as [l|]; rewrite ?app_nil_r;
    try (split; [cbn; lia|reflexivity]);
    destruct (truthy l); rewrite ?app_nil_r; cbn [created eventLinks length];
    split; (lia || reflexivity).
Qed.

Lemma forOf_cases inserted events : forall i t,
  match forOf inserted i events t with
  | Ok t' => created t' = created t + length (linksFrom inserted i (length events))
             /\ eventLinks t'
                = eventLinks t ++ linksFrom inserted i (length events)
  | TypeError => Exists nullish events
  | OutOfFuel => False
  end.
Proof.
  induction events as [|e events IH]; intros i t; cbn [forOf linksFrom length].
  - rewrite app_nil_r. cbn. split; [lia|reflexivity].
  - pose proof (pass_cases inserted i e t) as Hp.
    destruct (pass inserted i e t) as [t1| |]; cbn [bind];
      [|now constructor|contradiction].
    destruct Hp as [Hc Hl]. specialize (IH (S i) t1).
    destruct (forOf inserted (S i) events t1) as [t2| |];
      [|now constructor 2|contradiction].
    destruct IH as [Hc2 Hl2].
    rewrite Hc2, Hl2, Hc, Hl, length_app, <- app_assoc. split; [lia|reflexivity].
Qed.



Lemma linksFrom_none inserted n :
  (forall i, inserted i = None) -> forall i, linksFrom inserted i n = [].
Proof.
  intros H. induction n as [|n IH]; intros i; cbn [linksFrom]; [reflexivity|].
  rewrite IH, app_nil_r. unfold linkOf. now rewrite H.
Qed.


End CalendarFacts.

(** ** POST /api/pm/automation/sync-calendar *)

Module SyncFacts.

Import Json Sync.

(** X20. An insertion that throws is never seen by the handler: the
    loop of [createEventsInGoogleCalendar] catches it, so that with a
    session and a token the reply never asks for a new authentication and
    the token is never deleted, whatever the insertions do.  When all of
    them throw, as with a token that has expired, the reply has no event
    and says that the events will be created after authentication. *)
Theorem insertion_errors_unseen (configured : bool)
    (inserted : nat -> option value) (calendarEvents : list value)
    (result : Calendar.tally)
    (H : Calendar.createEventsInGoogleCalendar inserted calendarEvents
         = Ok result) :
  exists message,
    syncCalendar true true configured (inl result)
    = (Synced false (Calendar.created result) (Calendar.eventLinks result)
         message, false)
    /\ ((forall i, inserted i = None) ->
        Calendar.created result = 0
        /\ message = lit "Schedule generated successfully. Events will be created after authentication.").
Proof.
  unfold syncCalendar. cbn [andb].
  eexists. split; [reflexivity|]. intros Hn.
  unfold Calendar.createEventsInGoogleCalendar in H.
  pose proof (CalendarFacts.forOf_cases inserted calendarEvents 0
                {| Calendar.created := 0; Calendar.eventLinks := [] |}) as Hc.
  rewrite H in Hc. destruct Hc as [Hc _].
  rewrite (CalendarFacts.linksFrom_none inserted _ Hn) in Hc.
  cbn in Hc. rewrite Hc. split; reflexivity.
Qed.

Lemma insertion_errors_unseen_witness :
  exists message,
    syncCalendar true true true
      (inl {| Calendar.created := 0; Calendar.eventLinks := [] |})
    = (Synced false 0 [] message, false)
    /\ ((forall i : nat, (fun _ => @None value) i = None) ->
        0 = 0
        /\ message = lit "Schedule generated successfully. Events will be created after authentication.").
Proof.
  apply (insertion_errors_unseen true (fun _ => None) [VObject []]
           {| Calendar.created := 0; Calendar.eventLinks := [] |}).
  reflexivity.
Defined.

End SyncFacts.

(** ** The duration of a task *)

Module DurationFacts.

Import Pattern PatternFacts Duration.

Lemma digit_not_h d : isDigit d = true -> letter 104 d = false.
Proof.
  unfold isDigit, letter. intros H. apply andb_true_iff in H as [H1 H2].
  apply N.leb_le in H1. apply N.leb_le in H2. unfold char in *.
  apply orb_false_iff. split; apply N.eqb_neq; lia.
Qed.

(** Before the number: no [hour] can be read where there is no [h]. *)
Lemma hourTail_fail x d y st :
  noH x = true -> isDigit d = true -> rest st = x ++ d :: y ->
  hourTail st = None.
Proof.
  intros Hx Hd Hr. unfold hourTail. cbn [chars]. unfold chr at 1. rewrite Hr.
  destruct x as [|c x]; cbn [app].
  - now rewrite (digit_not_h d Hd).
  - cbn in Hx. apply andb_true_iff in Hx as [Hc _].
    apply negb_true_iff in Hc. now rewrite Hc.
Qed.

Lemma white_fail x d y : noH x = true -> isDigit d = true ->
  forall st, plusGreedy isWhiteSpace hourTail (x ++ d :: y) st = None.
Proof.
  intros Hx Hd. induction x as [|c x IH]; intros st; cbn [app plusGreedy].
  - now rewrite (digit_not_white d Hd).
  - pose proof Hx as Hx'. cbn in Hx'. apply andb_true_iff in Hx' as [_ Hx'].
    destruct (isWhiteSpace c); [|reflexivity].
    rewrite (IH Hx'). now apply (hourTail_fail x d y).
Qed.

Lemma star_fail x d y st :
  noH x = true -> isDigit d = true -> rest st = x ++ d :: y ->
  star isWhiteSpace hourTail st = None.
Proof.
  intros Hx Hd Hr. unfold star. rewrite Hr, (white_fail x d y Hx Hd).
  now apply (hourTail_fail x d y).
Qed.

Lemma endsOutsideNumber_tl c x :
  x <> [] -> endsOutsideNumber (c :: x) = endsOutsideNumber x.
Proof.
  intros Hx. unfold endsOutsideNumber. cbn [rev].
  destruct (rev x) as [|e r] eqn:E; [|reflexivity].
  apply (f_equal (@rev _)) in E. rewrite rev_involutive in E. contradiction.
Qed.

Lemma digits_fail x d y : x <> [] -> noH x = true ->
  endsOutsideNumber x = true -> isDigit d = true ->
  forall st,
    plusGreedy isDigit (fun st' => star isWhiteSpace hourTail (closeGroup st'))
      (x ++ d :: y) st = None.
Proof.
  intros Hne Hx He Hd. induction x as [|c x IH]; [contradiction|].
  intros st. cbn [app plusGreedy].
  destruct (isDigit c) eqn:Hc; [|reflexivity].
  assert (Hx' : noH x = true).
  { cbn in Hx. now apply andb_true_iff in Hx as [_ Hx]. }
  destruct x as [|c' x'].
  - unfold endsOutsideNumber in He. cbn in He. now rewrite Hc in He.
  - rewrite endsOutsideNumber_tl in He by discriminate.
    rewrite (IH ltac:(discriminate) Hx' He).
    now apply (star_fail (c' :: x') d y).
Qed.

Lemma hourRe_unfold st :
  hourRe st =
  plusGreedy isDigit (fun st' => star isWhiteSpace hourTail (closeGroup st'))
    (rest st) (openGroup st).
Proof. reflexivity. Qed.

Lemma find_skip pre d y : noH pre = true -> endsOutsideNumber pre = true ->
  isDigit d = true ->
  forall i, find hourRe i (pre ++ d :: y) = find hourRe (i + length pre) (d :: y).
Proof.
  intros Hx He Hd. induction pre as [|c x IH]; intros i.
  - cbn [app length]. now rewrite Nat.add_0_r.
  - cbn [app length]. rewrite <- Nat.add_succ_comm.
    assert (Hx' : noH x = true).
    { cbn in Hx. now apply andb_true_iff in Hx as [_ Hx]. }
    assert (He' : endsOutsideNumber x = true).
    { destruct x; [reflexivity|]. now rewrite endsOutsideNumber_tl in He. }
    rewrite <- (IH Hx' He'). cbn [find]. rewrite hourRe_unfold. cbn [rest start].
    now rewrite (digits_fail (c :: x) d y ltac:(discriminate) Hx He Hd).
Qed.

(** A greedy [p+] before text that [p] does not begin takes all it can
    when the rest of the pattern then matches. *)
Lemma plusGreedy_all p (K : cont) (Q : mstate -> Prop) T ds :
  ds <> [] -> forallb p ds = true ->
  match T with [] => True | c :: _ => p c = false end ->
  forall st,
    (forall st', rest st' = T -> mark st' = mark st -> grp st' = grp st ->
                 exists r, K st' = Some r /\ Q r) ->
    exists r, plusGreedy p K (ds ++ T) st = Some r /\ Q r.
Proof.
  intros Hne Hp HT. induction ds as [|c ds IH]; [contradiction|].
  intros st HK. cbn [app plusGreedy]. cbn in Hp.
  apply andb_true_iff in Hp as [Hc Hp]. rewrite Hc.
  destruct ds as [|c' ds'].
  - cbn [app].
    assert (HN : plusGreedy p K T (eat st T) = None).
    { destruct T as [|t T']; [reflexivity|]. cbn [plusGreedy]. now rewrite HT. }
    rewrite HN. apply HK; reflexivity.
  - destruct (IH ltac:(discriminate) Hp (eat st ((c' :: ds') ++ T)))
      as (r & Hr & HQ).
    + intros st' H1 H2 H3. apply HK; assumption.
    + rewrite Hr. eauto.
Qed.

Lemma hourTail_ok h o u r post st :
  letter 104 h = true -> letter 111 o = true -> letter 117 u = true ->
  letter 114 r = true -> rest st = h :: o :: u :: r :: post ->
  exists m, hourTail st = Some m /\ grp m = grp st.
Proof.
  intros Hh Ho Hu Hr E. unfold hourTail. cbn [chars]. unfold chr.
  rewrite E, Hh. cbn [rest eat]. rewrite Ho, Hu, Hr. eexists. split; reflexivity.
Qed.

Lemma star_ok ws h o u r post st :
  forallb isWhiteSpace ws = true ->
  letter 104 h = true -> letter 111 o = true -> letter 117 u = true ->
  letter 114 r = true -> rest st = ws ++ h :: o :: u :: r :: post ->
  exists m, star isWhiteSpace hourTail st = Some m /\ grp m = grp st.
Proof.
  intros Hws Hh Ho Hu Hr E. unfold star. rewrite E.
  assert (Hhw : isWhiteSpace h = false).
  { unfold letter in Hh. apply orb_true_iff in Hh as [Hh|Hh];
      apply N.eqb_eq in Hh; now subst h. }
  destruct ws as [|w ws].
  - cbn [app plusGreedy]. rewrite Hhw.
    now apply (hourTail_ok h o u r post).
  - destruct (plusGreedy_all isWhiteSpace hourTail (fun m => grp m = grp st)
                (h :: o :: u :: r :: post) (w :: ws)
                ltac:(discriminate) Hws Hhw st) as (m & Hm & HQ).
    + intros st' H1 _ H3.
      destruct (hourTail_ok h o u r post st' Hh Ho Hu Hr H1) as (m & Hm & Hg).
      exists m. split; [exact Hm|congruence].
    + rewrite Hm. eauto.
Qed.

Lemma firstn_app_length (a b : str) :
  firstn (length (a ++ b) - length b) (a ++ b) = a.
Proof.
  rewrite length_app. replace (_ + _ - _) with (length a) by lia.
  rewrite firstn_app, Nat.sub_diag, firstn_all. cbn. apply app_nil_r.
Qed.

Lemma hourRe_ok digits ws h o u r post i :
  digits <> [] -> forallb isDigit digits = true ->
  forallb isWhiteSpace ws = true ->
  letter 104 h = true -> letter 111 o = true -> letter 117 u = true ->
  letter 114 r = true ->
  exists m, hourRe (start i (digits ++ ws ++ h :: o :: u :: r :: post)) = Some m
            /\ grp m = Some digits.
Proof.
  intros Hne Hd Hws Hh Ho Hu Hr. rewrite hourRe_unfold. cbn [rest start idx grp].
  set (T := ws ++ h :: o :: u :: r :: post).
  apply plusGreedy_all; try assumption.
  - subst T. destruct ws as [|w ws]; cbn [app].
    + destruct (isDigit h) eqn:E; [|reflexivity].
      apply digit_not_h in E. congruence.
    + cbn in Hws. apply andb_true_iff in Hws as [Hw _].
      destruct (isDigit w) eqn:E; [|reflexivity].
      apply digit_not_white in E. congruence.
  - intros st' H1 H2 _. unfold openGroup in H2. cbn [mark rest start] in H2.
    destruct (star_ok ws h o u r post (closeGroup st') Hws Hh Ho Hu Hr H1)
      as (m & Hm & Hg).
    exists m. split; [exact Hm|]. rewrite Hg. unfold closeGroup. cbn [grp].
    rewrite H2, H1. f_equal. apply firstn_app_length.
Qed.

(** [parseInt] of a string of digits. *)
Lemma digitVal_digit c : isDigit c = true -> digitVal 10 c = Some (c - 48)%N.
Proof.
  intros H. unfold digitVal. rewrite H.
  unfold isDigit in H. apply andb_true_iff in H as [H1 H2].
  apply N.leb_le in H1. apply N.leb_le in H2. unfold char in *.
  destruct (N.ltb_spec (c - 48) 10); [reflexivity|lia].
Qed.

Lemma digitsPrefix_digits ds : forallb isDigit ds = true ->
  forall n,
    digitsPrefix 10 ds (Some n)
    = Some (fold_left (fun n c => (10 * n + (c - 48))%N) ds n).
Proof.
  induction ds as [|c ds IH]; intros Hd n; cbn [digitsPrefix fold_left];
    [reflexivity|].
  cbn in Hd. apply andb_true_iff in Hd as [Hc Hd].
  rewrite (digitVal_digit c Hc). now rewrite IH.
Qed.

Lemma digitsPrefix_cons radix c s acc :
  digitsPrefix radix (c :: s) acc =
  match digitVal radix c with
  | Some d =>
      digitsPrefix radix s
        (Some (radix * match acc with Some n => n | None => 0 end + d)%N)
  | None => acc
  end.
Proof. reflexivity. Qed.

(** The Number of an integer below two to the 53 is the integer. *)
Lemma toNumber_exact neg n :
  (n < 2 ^ 53)%N -> toNumber neg n = Json.Finite neg n 0.
Proof. intros H. unfold toNumber. apply N.ltb_lt in H. now rewrite H. Qed.

Lemma toNumber_notNegative n : notNegative (toNumber false n) = true.
Proof.
  unfold toNumber. destruct (n <? 2 ^ 53)%N; [reflexivity|]. cbv zeta.
  match goal with |- context [if ?b then Json.Infinity _ else _] =>
    destruct b end; reflexivity.
Qed.

Lemma parseInt_digits ds : ds <> [] -> forallb isDigit ds = true ->
  parseInt ds = toNumber false (decimalValue ds).
Proof.
  intros Hne Hd. destruct ds as [|c ds]; [contradiction|].
  pose proof Hd as Hd'. cbn in Hd'. apply andb_true_iff in Hd' as [Hc Hds].
  unfold parseInt. cbn [trimStart]. rewrite (digit_not_white c Hc).
  assert (H45 : (c =? 45)%N = false /\ (c =? 43)%N = false).
  { unfold isDigit in Hc. apply andb_true_iff in Hc as [H1 H2].
    apply N.leb_le in H1. apply N.leb_le in H2. unfold char in *.
    split; apply N.eqb_neq; lia. }
  destruct H45 as [-> ->].
  assert (Hv : decimalValue (c :: ds)
               = fold_left (fun n c => (10 * n + (c - 48))%N) ds
                   (10 * 0 + (c - 48))%N) by reflexivity.
  rewrite Hv.
  destruct ds as [|x ds'].
  - cbv beta iota zeta. rewrite digitsPrefix_cons, (digitVal_digit c Hc).
    reflexivity.
  - pose proof Hds as Hds'. cbn in Hds'. apply andb_true_iff in Hds' as [Hx _].
    assert (Hx' : ((x =? 120) || (x =? 88))%N = false).
    { unfold isDigit in Hx. apply andb_true_iff in Hx as [H1 H2].
      apply N.leb_le in H1. apply N.leb_le in H2. unfold char in *.
      apply orb_false_iff. split; apply N.eqb_neq; lia. }
    rewrite Hx', andb_false_r. cbv beta iota zeta.
    rewrite digitsPrefix_cons, (digitVal_digit c Hc).
    rewrite (digitsPrefix_digits (x :: ds') Hds). reflexivity.
Qed.

(** X21. The hours are read from the first number that [hour] follows:
    when the text before the number has no [h] and does not end with a
    digit, the duration is the Number of the digits, with white space or
    none before [hour] in either case of its letters.  The Number is the
    integer the digits write when that is below two to the 53, and the
    double nearest to it beyond: of [9007199254740993 hours] the hours
    are 9007199254740992.  What stands before the number is not looked
    at, so that of [1.5 hours] the hours are 5. *)
Theorem hours_read (pre digits ws post : str) (h o u r : char)
    (Hpre : noH pre = true)
    (Hend : endsOutsideNumber pre = true)
    (Hne : digits <> [])
    (Hdigits : forallb isDigit digits = true)
    (Hws : forallb isWhiteSpace ws = true)
    (Hh : letter 104 h = true) (Ho : letter 111 o = true)
    (Hu : letter 117 u = true) (Hr : letter 114 r = true) :
  durationHours (pre ++ digits ++ ws ++ h :: o :: u :: r :: post)
  = toNumber false (decimalValue digits)
  /\ ((decimalValue digits < 2 ^ 53)%N ->
      durationHours (pre ++ digits ++ ws ++ h :: o :: u :: r :: post)
      = Json.Finite false (decimalValue digits) 0)
  /\ durationHours (lit "9007199254740993 hours")
     = Json.Finite false 4503599627370496 1.
Proof.
  assert (Hmain : durationHours (pre ++ digits ++ ws ++ h :: o :: u :: r :: post)
                  = toNumber false (decimalValue digits)).
  { destruct digits as [|d ds] eqn:Ed; [contradiction|].
    assert (Hd : isDigit d = true).
    { cbn in Hdigits. now apply andb_true_iff in Hdigits as [Hd _]. }
    unfold durationHours.
    destruct (pre ++ (d :: ds) ++ ws ++ h :: o :: u :: r :: post)
      as [|c0 s0] eqn:E.
    { destruct pre; discriminate. }
    rewrite <- E. clear E. unfold exec. cbn [app].
    rewrite (find_skip pre d _ Hpre Hend Hd). cbn [find].
    destruct (hourRe_ok (d :: ds) ws h o u r post (0 + length pre)
                Hne Hdigits Hws Hh Ho Hu Hr) as (m & Hm & Hg).
    cbn [app] in Hm. rewrite Hm. cbn [option_map snd]. rewrite Hg.
    now apply parseInt_digits. }
  split; [exact Hmain|]. split.
  - intros Hlt. rewrite Hmain. now apply toNumber_exact.
  - vm_compute. reflexivity.
Qed.

Lemma hours_read_witness :
  durationHours (lit "1.5 hours") = Json.Finite false 5 0.
Proof.
  destruct (hours_read (lit "1.") (lit "5") (lit " ") (lit "s")
              104%N 111%N 117%N 114%N
              eq_refl eq_refl ltac:(discriminate) eq_refl eq_refl
              eq_refl eq_refl eq_refl eq_refl) as (_ & H & _).
  apply H. reflexivity.
Defined.

Lemma find_some (k : cont) s : forall i j m,
  find k i s = Some (j, m) ->
  exists pre s', s = pre ++ s' /\ k (start j s') = Some m.
Proof.
  induction s as [|c s IH]; intros i j m; cbn [find].
  - destruct (k (start i [])) as [r|] eqn:E; [|discriminate].
    intros [= <- <-]. now exists [], [].
  - destruct (k (start i (c :: s))) as [r|] eqn:E.
    + intros [= <- <-]. now exists [], (c :: s).
    + intros H. destruct (IH _ _ _ H) as (pre & s' & -> & Hk).
      now exists (c :: pre), s'.
Qed.

Lemma hourTail_keeps st m : hourTail st = Some m -> grp m = grp st.
Proof.
  unfold hourTail. cbn [chars]. unfold chr.
  destruct (rest st) as [|c1 s1]; [discriminate|].
  destruct (letter 104 c1); [|discriminate]. cbn [rest eat].
  destruct s1 as [|c2 s2]; [discriminate|].
  destruct (letter 111 c2); [|discriminate].
  destruct s2 as [|c3 s3]; [discriminate|].
  destruct (letter 117 c3); [|discriminate].
  destruct s3 as [|c4 s4]; [discriminate|].
  destruct (letter 114 c4); [|discriminate].
  now intros [= <-].
Qed.

Lemma star_keeps st m :
  star isWhiteSpace hourTail st = Some m -> grp m = grp st.
Proof.
  unfold star.
  destruct (plusGreedy isWhiteSpace hourTail (rest st) st) as [r|] eqn:E.
  - intros [= <-].
    apply RegexFacts.plusGreedy_some in E as (x & s' & _ & _ & _ & Hk).
    now apply hourTail_keeps in Hk.
  - apply hourTail_keeps.
Qed.

(** What a match of [hourRe] captures: digits, and one at least. *)
Lemma hourRe_captures st m :
  hourRe st = Some m ->
  exists digits s', rest st = digits ++ s' /\ digits <> []
                    /\ forallb isDigit digits = true
                    /\ grp m = Some digits.
Proof.
  rewrite hourRe_unfold. intros H.
  apply RegexFacts.plusGreedy_some in H as (x & s' & Hne & Hx & E & Hk).
  exists x, s'. repeat split; try assumption.
  apply star_keeps in Hk. rewrite Hk.
  unfold closeGroup, advance, openGroup. cbn [grp mark rest].
  rewrite E. f_equal. apply firstn_app_length.
Qed.

(** X22. The hours are always a Number that is not NaN and not
    negative: the match has digits in its group, so that [parseInt] has
    digits to read.  A text without a digit has the two hours of the
    default.  The Number need not be finite: 309 nines before [hours] give
    infinity. *)
Theorem hours_a_number (duration : str) :
  notNegative (durationHours duration) = true
  /\ ((forall c, In c duration -> isDigit c = false) ->
      durationHours duration = Json.Finite false 2 0)
  /\ durationHours (repeat 57%N 309 ++ lit " hours") = Json.Infinity false.
Proof.
  split; [|split; [|vm_compute; reflexivity]].
  - unfold durationHours. destruct duration as [|c0 s0] eqn:Ed; [reflexivity|].
    rewrite <- Ed. clear Ed c0 s0. unfold exec.
    destruct (find hourRe 0 duration) as [[j m]|] eqn:Ef; [|reflexivity].
    destruct (find_some _ _ _ _ _ Ef) as (pre & s' & -> & Hm).
    destruct (hourRe_captures _ _ Hm) as (ds & t & Hs & Hne & Hd & Hg).
    cbn [option_map snd]. rewrite Hg, (parseInt_digits ds Hne Hd).
    apply toNumber_notNegative.
  - intros Hno. unfold durationHours.
    destruct duration as [|c0 s0] eqn:Ed; [reflexivity|].
    rewrite <- Ed in *. clear Ed c0 s0. unfold exec.
    destruct (find hourRe 0 duration) as [[j m]|] eqn:Ef; [|reflexivity].
    destruct (find_some _ _ _ _ _ Ef) as (pre & s' & -> & Hm).
    destruct (hourRe_captures _ _ Hm) as (ds & t & Hs & Hne & Hd & Hg).
    cbn [rest start] in Hs. subst s'. destruct ds as [|d ds]; [contradiction|].
    cbn in Hd. apply andb_true_iff in Hd as [Hd _].
    rewrite Hno in Hd; [discriminate|].
    apply in_or_app. right. now left.
Qed.

End DurationFacts.

(** ** The text of the model, without its code fence *)

Module FenceFacts.

Import Pattern PatternFacts Fence.

Lemma replaceFrom_none fuel m r i s :
  find m i s = None -> replaceFrom (S fuel) m r i s = Ok s.
Proof. intros H. cbn [replaceFrom]. now rewrite H. Qed.

Lemma replaceFrom_match fuel m r i s j e :
  find m i s = Some (j, e) -> idx e <> j ->
  replaceFrom (S fuel) m r i s =
  (t <- replaceFrom fuel m r (idx e) (rest e) ;; Ok (firstn (j - i) s ++ r ++ t)).
Proof.
  intros H Hn. cbn [replaceFrom]. rewrite H.
  apply Nat.eqb_neq in Hn. now rewrite Hn.
Qed.

Lemma find_here (m : cont) i s e :
  m (start i s) = Some e -> find m i s = Some (i, e).
Proof. intros H. destruct s; cbn [find]; now rewrite H. Qed.

(** A literal is read character by character. *)
Lemma chars_lit l k : forall st T,
  rest st = l ++ T ->
  chars (map the l) k st = k (advance st (length l) T).
Proof.
  induction l as [|c l IH]; intros st T E; cbn [map chars length].
  - f_equal. destruct st. cbn in *. now subst.
  - unfold chr. rewrite E. cbn [app]. unfold the at 1. rewrite N.eqb_refl.
    rewrite (IH (eat st (l ++ T)) T eq_refl). f_equal.
    unfold advance, eat. cbn [idx rest mark grp]. f_equal. lia.
Qed.

(** A pattern that begins with a backtick matches at a backtick only. *)
Lemma chars_no_tick l k st :
  match rest st with [] => True | c :: _ => isTick c = false end ->
  chars (map the (fence ++ l)) k st = None.
Proof.
  intros H. cbn [fence app map chars]. unfold chr at 1.
  destruct (rest st) as [|c s]; [reflexivity|].
  unfold the at 1. unfold isTick in H. now rewrite H.
Qed.

Lemma find_no_tick l k x : noTick x = true ->
  forall i T,
    find (chars (map the (fence ++ l)) k) i (x ++ T)
    = find (chars (map the (fence ++ l)) k) (i + length x) T.
Proof.
  intros Hx. induction x as [|c x IH]; intros i T.
  - cbn [app length]. now rewrite Nat.add_0_r.
  - cbn in Hx. apply andb_true_iff in Hx as [Hc Hx].
    apply negb_true_iff in Hc.
    cbn [app length find]. rewrite chars_no_tick by exact Hc.
    rewrite (IH Hx). f_equal. lia.
Qed.

(** [\n?] at the end of a pattern. *)
Lemma opt_newline st :
  exists e, opt isNewline Some st = Some e
            /\ rest e = dropNewline (rest st) /\ idx st <= idx e.
Proof.
  unfold opt, chr, dropNewline. destruct (rest st) as [|c s] eqn:E.
  - exists st. now rewrite E.
  - destruct (isNewline c).
    + eexists. split; [reflexivity|]. cbn. split; [reflexivity|lia].
    + exists st. now rewrite E.
Qed.

Lemma dropNewline_app y :
  dropNewline (y ++ fence) = dropNewline y ++ fence.
Proof. destruct y as [|c y]; [reflexivity|]. cbn. now destruct (isNewline c). Qed.

Lemma noTick_dropNewline y : noTick y = true -> noTick (dropNewline y) = true.
Proof.
  destruct y as [|c y]; [reflexivity|]. cbn.
  intros H. apply andb_true_iff in H as [Hc Hy].
  destruct (isNewline c); [exact Hy|]. cbn. now rewrite Hc, Hy.
Qed.

Lemma trimStart_white w c s :
  forallb isWhiteSpace w = true -> isWhiteSpace c = false ->
  trimStart (w ++ c :: s) = c :: s.
Proof.
  intros Hw Hc. induction w as [|a w IH]; cbn [app trimStart].
  - now rewrite Hc.
  - cbn in Hw. apply andb_true_iff in Hw as [Ha Hw]. rewrite Ha. now apply IH.
Qed.

Lemma forallb_rev {A} (f : A -> bool) l :
  forallb f l = true -> forallb f (rev l) = true.
Proof.
  rewrite !forallb_forall. intros H x Hx. apply H. now apply in_rev.
Qed.

(** White space around a text that neither begins nor ends with white
    space is trimmed away. *)
Lemma trim_core w1 w2 c t c' :
  forallb isWhiteSpace w1 = true -> forallb isWhiteSpace w2 = true ->
  isWhiteSpace c = false -> isWhiteSpace c' = false ->
  trim (w1 ++ (c :: t ++ [c']) ++ w2) = c :: t ++ [c'].
Proof.
  intros H1 H2 Hc Hc'. unfold trim. cbn [app].
  rewrite (trimStart_white w1 c _ H1 Hc). unfold trimEnd.
  change (c :: (t ++ [c']) ++ w2) with ((c :: t ++ [c']) ++ w2).
  rewrite rev_app_distr.
  change (c :: t ++ [c']) with ((c :: t) ++ [c']) at 1.
  rewrite (rev_app_distr (c :: t)). cbn [rev app].
  rewrite (trimStart_white (rev w2) c' _ (forallb_rev _ _ H2) Hc').
  cbn [rev]. rewrite rev_app_distr, rev_involutive. reflexivity.
Qed.

Lemma trim_fenced w1 y w2 :
  forallb isWhiteSpace w1 = true -> forallb isWhiteSpace w2 = true ->
  trim (w1 ++ fence ++ y ++ fence ++ w2) = fence ++ y ++ fence.
Proof.
  intros H1 H2.
  replace (fence ++ y ++ fence ++ w2)
    with ((96%N :: ([96%N; 96%N] ++ y ++ [96%N; 96%N]) ++ [96%N]) ++ w2).
  - rewrite (trim_core w1 w2 96%N _ 96%N H1 H2 eq_refl eq_refl).
    cbn [fence app]. now rewrite <- !app_assoc.
  - cbn [fence app]. now rewrite <- !app_assoc.
Qed.

Lemma startsWith_app p s : startsWith p (p ++ s) = true.
Proof.
  induction p as [|a p IH]; cbn [app startsWith]; [reflexivity|].
  now rewrite N.eqb_refl, IH.
Qed.

Lemma startsWith_noTick p y :
  noTick p = true -> noTick y = true ->
  startsWith p (y ++ fence) = startsWith p y.
Proof.
  revert y. induction p as [|a p IH]; intros y Hp Hy; [reflexivity|].
  cbn in Hp. apply andb_true_iff in Hp as [Ha Hp].
  destruct y as [|c y].
  - cbn [app fence startsWith].
    unfold isTick in Ha. apply negb_true_iff in Ha.
    now rewrite Ha.
  - cbn in Hy. apply andb_true_iff in Hy as [_ Hy].
    cbn [app startsWith]. destruct (a =? c)%N; [|reflexivity]. cbn [andb].
    now apply IH.
Qed.

(** The end of a scan: the closing fence. *)
Lemma json_at_fence i : find fenceJsonRe i fence = None.
Proof. reflexivity. Qed.

Lemma end_at_nil i : find fenceEndRe i [] = None.
Proof. reflexivity. Qed.

Lemma plain_at_nil i : find fenceRe i [] = None.
Proof. reflexivity. Qed.

Lemma end_at_fence i :
  exists e, find fenceEndRe i fence = Some (i, e)
            /\ rest e = [] /\ idx e = 3 + i.
Proof. eexists. split; [reflexivity|]. split; reflexivity. Qed.

Lemma plain_at_fence i :
  exists e, find fenceRe i fence = Some (i, e)
            /\ rest e = [] /\ idx e = 3 + i.
Proof. eexists. split; [reflexivity|]. split; reflexivity. Qed.

(** The second [replace] takes the closing fence away. *)
Lemma end_removed x : noTick x = true ->
  replaceAll fenceEndRe [] (x ++ fence) = Ok x.
Proof.
  intros Hx. unfold replaceAll.
  destruct (end_at_fence (0 + length x)) as (e & He & Hr & Hi).
  rewrite (replaceFrom_match _ _ _ _ _ (0 + length x) e).
  - rewrite Hr, length_app. cbn [fence length].
    rewrite Nat.add_succ_r, replaceFrom_none by apply end_at_nil.
    cbn [bind]. rewrite Nat.sub_0_r, Nat.add_0_l, firstn_app, Nat.sub_diag.
    rewrite firstn_all. cbn. now rewrite !app_nil_r.
  - unfold fenceEndRe. rewrite (find_no_tick [] _ x Hx). exact He.
  - lia.
Qed.

(** It leaves a text without a backtick as it is. *)
Lemma end_kept x : noTick x = true -> replaceAll fenceEndRe [] x = Ok x.
Proof.
  intros Hx. unfold replaceAll. apply replaceFrom_none.
  rewrite <- (app_nil_r x) at 1. unfold fenceEndRe.
  rewrite (find_no_tick [] _ x Hx). apply end_at_nil.
Qed.

(** X23. A text in a code fence comes out without the fence: white
    space around it, the two fences, the word [json] after the first one
    and one newline after that are taken away from a text that has no
    other backtick.  A word other than [json] after the fence stays. *)
Theorem fenced_text (w1 y w2 : str)
    (Hw1 : forallb isWhiteSpace w1 = true)
    (Hw2 : forallb isWhiteSpace w2 = true)
    (Hy : noTick y = true) :
  stripFence (w1 ++ fence ++ y ++ fence ++ w2)
  = Ok (if startsWith (lit "json") y
        then dropNewline (skipn 4 y) else dropNewline y).
Proof.
  unfold stripFence. cbv zeta. rewrite (trim_fenced w1 y w2 Hw1 Hw2).
  assert (Hj : startsWith (fence ++ lit "json") (fence ++ y ++ fence)
               = startsWith (lit "json") y).
  { cbn [fence app startsWith N.eqb Pos.eqb].
    change (96 :: 96 :: 96 :: @nil char)%N with fence.
    now apply (startsWith_noTick (lit "json")). }
  rewrite Hj. destruct (startsWith (lit "json") y) eqn:Ej.
  - apply startsWith_spec in Ej as [y' ->].
    assert (Hy' : noTick y' = true).
    { cbn in Hy. exact Hy. }
    change (skipn 4 (lit "json" ++ y')) with y'.
    set (s0 := fence ++ (lit "json" ++ y') ++ fence).
    destruct (opt_newline (advance (start 0 s0) 7 (y' ++ fence)))
      as (e & He & Hr & Hi).
    cbn [rest advance] in Hr. rewrite dropNewline_app in Hr.
    assert (Hm : find fenceJsonRe 0 s0 = Some (0, e)).
    { apply find_here. unfold fenceJsonRe.
      rewrite (chars_lit (fence ++ lit "json") _ (start 0 s0) (y' ++ fence))
        by (unfold s0; cbn [rest start]; now rewrite <- !app_assoc).
      exact He. }
    unfold replaceAll at 1.
    rewrite (replaceFrom_match _ _ _ _ _ 0 e Hm)
      by (cbn [idx advance start] in Hi; lia).
    rewrite Hr. unfold s0 at 1. cbn [fence app length].
    rewrite replaceFrom_none.
    + cbn [bind firstn app]. apply end_removed. now apply noTick_dropNewline.
    + unfold fenceJsonRe. rewrite (find_no_tick (lit "json")).
      * apply json_at_fence.
      * now apply noTick_dropNewline.
  - rewrite startsWith_app.
    set (s0 := fence ++ y ++ fence).
    destruct (opt_newline (advance (start 0 s0) 3 (y ++ fence)))
      as (e & He & Hr & Hi).
    cbn [rest advance] in Hr. rewrite dropNewline_app in Hr.
    assert (Hm : find fenceRe 0 s0 = Some (0, e)).
    { apply find_here. unfold fenceRe.
      rewrite (chars_lit fence _ (start 0 s0) (y ++ fence))
        by reflexivity.
      exact He. }
    destruct (plain_at_fence (idx e + length (dropNewline y)))
      as (e2 & He2 & Hr2 & Hi2).
    unfold replaceAll at 1.
    rewrite (replaceFrom_match _ _ _ _ _ 0 e Hm)
      by (cbn [idx advance start] in Hi; lia).
    rewrite Hr. unfold s0 at 1. cbn [fence app length].
    rewrite (replaceFrom_match _ _ _ _ _ (idx e + length (dropNewline y)) e2);
      [| |lia].
    + rewrite Hr2.
      rewrite replaceFrom_none by apply plain_at_nil.
      cbn [bind].
      replace (idx e + length (dropNewline y) - idx e)
        with (length (dropNewline y)) by lia.
      rewrite firstn_app, !Nat.sub_diag, firstn_all. cbn [firstn app].
      rewrite !app_nil_r. apply end_kept. now apply noTick_dropNewline.
    + unfold fenceRe.
      rewrite (find_no_tick [] _ _ (noTick_dropNewline y Hy)). exact He2.
Qed.

Lemma fenced_text_witness :
  stripFence (lit "```json" ++ NL ++ lit "{}" ++ NL ++ lit "```" ++ NL)
  = Ok (lit "{}" ++ NL).
Proof.
  apply (fenced_text [] (lit "json" ++ NL ++ lit "{}" ++ NL) NL);
    reflexivity.
Defined.

End FenceFacts.

(** ** The customer chat *)

Module ChatFacts.

Import Chat.

Lemma requestOf_some p r :
  requestOf p = Some r ->
  message r = trim (customerMessageInput p)
  /\ message r <> []
  /\ conversationHistory r
     = customerMessages p ++ [{| role := lit "user"; content := message r |}].
Proof.
  unfold requestOf. destruct (trim (customerMessageInput p)) as [|c t] eqn:E;
    [discriminate|].
  intros [= <-]. cbn [message conversationHistory]. repeat split. discriminate.
Qed.

(** X24. What a call does to the chat.  A call that is answered adds two
    messages at the end: the trimmed question, with the role [user], and
    the answer, with the role [assistant].  A call that fails leaves the
    messages as they were, and an input of white space leaves the whole
    page as it was.  Any call with a question empties the input, a call
    that fails too.  Clearing empties the chat and keeps the input.  So a
    chat that is a sequence of questions and answers stays one. *)
Theorem chat_paired (p : page) (reply : option str) :
  (forall answer,
     trim (customerMessageInput p) <> [] -> reply = Some answer ->
     customerMessages (handleCustomerAdvisoryMessage p reply)
     = customerMessages p
       ++ [ {| role := lit "user";
               content := trim (customerMessageInput p) |};
            {| role := lit "assistant"; content := answer |} ])
  /\ (reply = None ->
      customerMessages (handleCustomerAdvisoryMessage p reply)
      = customerMessages p)
  /\ (trim (customerMessageInput p) = [] ->
      handleCustomerAdvisoryMessage p reply = p)
  /\ (trim (customerMessageInput p) <> [] ->
      customerMessageInput (handleCustomerAdvisoryMessage p reply) = [])
  /\ customerMessages (clearCustomerChat p) = []
  /\ customerMessageInput (clearCustomerChat p) = customerMessageInput p
  /\ (paired (customerMessages p) ->
      paired (customerMessages (handleCustomerAdvisoryMessage p reply)))
  /\ paired (customerMessages (clearCustomerChat p)).
Proof.
  unfold handleCustomerAdvisoryMessage.
  destruct (requestOf p) as [r|] eqn:Er.
  - destruct (requestOf_some p r Er) as (Hm & Hne & Hh).
    rewrite <- Hm.
    repeat split; try constructor.
    + intros answer _ ->. cbn [customerMessages].
      rewrite Hh, <- app_assoc. reflexivity.
    + now intros ->.
    + intros E. now elim Hne.
    + now destruct reply.
    + intros H. destruct reply as [answer|]; cbn [customerMessages]; [|exact H].
      rewrite Hh, <- app_assoc. cbn [app]. now constructor.
  - unfold requestOf in Er.
    destruct (trim (customerMessageInput p)) eqn:Et; [|discriminate].
    repeat split; try constructor; try (intros H; exact H).
    + intros answer Hn. now elim Hn.
    + intros Hn. now elim Hn.
Qed.

Lemma chat_paired_witness :
  customerMessages
    (handleCustomerAdvisoryMessage
       {| customerMessages :=
            [ {| role := lit "user"; content := lit "price?" |};
              {| role := lit "assistant"; content := lit "too high" |} ];
          customerMessageInput := lit " why? " |}
       (Some (lit "no budget")))
  = [ {| role := lit "user"; content := lit "price?" |};
      {| role := lit "assistant"; content := lit "too high" |};
      {| role := lit "user"; content := lit "why?" |};
      {| role := lit "assistant"; content := lit "no budget" |} ]
  /\ customerMessages
       (clearCustomerChat
          {| customerMessages :=
               [ {| role := lit "user"; content := lit "price?" |};
                 {| role := lit "assistant"; content := lit "too high" |} ];
             customerMessageInput := lit " why? " |})
     = [].
Proof.
  destruct (chat_paired
              {| customerMessages :=
                   [ {| role := lit "user"; content := lit "price?" |};
                     {| role := lit "assistant"; content := lit "too high" |} ];
                 customerMessageInput := lit " why? " |}
              (Some (lit "no budget")))
    as (Hadd & _ & _ & _ & Hclear & _).
  split; [|exact Hclear].
  apply (Hadd (lit "no budget")); [vm_compute; discriminate|reflexivity].
Defined.

Lemma context_snoc history m :
  conversationContext (history ++ [m])
  = NL ++ NL ++ lit "Previous conversation:" ++ NL
    ++ concat (map contextLine history) ++ contextLine m.
Proof.
  unfold conversationContext.
  destruct (history ++ [m]) as [|m0 l] eqn:E.
  - now destruct history.
  - rewrite <- E, map_app, concat_app. cbn [map concat].
    now rewrite app_nil_r.
Qed.

(** X25. The question is in the prompt twice: the history that the page
    sends ends with the question that is being asked, so that the prompt
    has it as the last line [PM: ...] of the previous conversation and
    again as the current question. *)
Theorem question_twice (p : page) (r : request) (systemPrompt : str)
    (H : requestOf p = Some r) :
  exists before between after,
    prompt systemPrompt r
    = before
      ++ (lit "PM: " ++ trim (customerMessageInput p) ++ NL)
      ++ between
      ++ (lit "Current question from PM: " ++ dq
          ++ trim (customerMessageInput p) ++ dq)
      ++ after.
Proof.
  destruct (requestOf_some p r H) as (Hm & _ & Hh).
  unfold prompt. rewrite Hh, context_snoc, <- Hm.
  unfold contextLine at 2. cbn [role content].
  destruct (str_eq_dec (lit "user") (lit "user")) as [_|Hn]; [|now elim Hn].
  eexists (systemPrompt ++ NL ++ NL ++ NL ++ NL
           ++ lit "Previous conversation:" ++ NL
           ++ concat (map contextLine (customerMessages p))),
          (NL ++ NL), _.
  rewrite <- !app_assoc. reflexivity.
Qed.

Lemma question_twice_witness :
  exists before between after,
    prompt (lit "You are a real customer")
      {| message := lit "hi";
         conversationHistory := [{| role := lit "user"; content := lit "hi" |}] |}
    = before
      ++ (lit "PM: " ++ trim (lit " hi ") ++ NL)
      ++ between
      ++ (lit "Current question from PM: " ++ dq ++ trim (lit " hi ") ++ dq)
      ++ after.
Proof.
  apply (question_twice
           {| customerMessages := []; customerMessageInput := lit " hi " |}).
  reflexivity.
Defined.

End ChatFacts.
